(** * xcontainer: circular doubly-linked list and insertion-ordered map

    A shallow embedding of [list.go] (type [List]) and of the ordered map
    built on it (type [OrderedMap]).

    Go pointers [*List[T]] are modelled as addresses into an arena: the heap
    is the list of all nodes ever allocated, [&List[T]{...}] appends a node
    and yields its index, and [nil] is [None].  Nodes are never freed (Go is
    garbage collected), so an address stays valid once allocated.
    Dereferencing [nil] panics in Go; the operations below live in the
    [option] monad and [None] stands for that panic (or for a dereference of
    an address outside the arena, which no Go program can produce). *)

From stdpp Require Import base option list gmap strings.
From Stdlib Require Import ZArith.
From Stdlib Require Floats.PrimFloat.

Module LinkedList.

(** A possibly-nil [*List[T]]. *)
Abbreviation ptr := (option nat).

(** [type List[T any] struct { prev, next *List[T]; Val T }] *)
Record node (T : Type) := mkNode { prev : ptr; next : ptr; Val : T }.
Arguments mkNode {T} _ _ _.
Arguments prev {T} _.
Arguments next {T} _.
Arguments Val {T} _.

(** The arena of all allocated nodes. *)
Abbreviation heap T := (list (node T)).

Definition ptr_eqb (p q : ptr) : bool := bool_decide (p = q).

(** Read through a pointer: [None] on nil. *)
Definition load {T} (h : heap T) (p : ptr) : option (node T) :=
  a ← p; h !! a.

(** Overwrite the node a pointer designates. *)
Definition store {T} (h : heap T) (p : ptr) (nd : node T) : option (heap T) :=
  a ← p; _ ← h !! a; Some (<[a := nd]> h).

(** [&List[T]{...}]: a fresh node, at the first unused address. *)
Definition alloc {T} (h : heap T) (nd : node T) : heap T * ptr :=
  (h ++ [nd], Some (length h)).

Definition set_prev {T} (nd : node T) (p : ptr) : node T :=
  mkNode p (next nd) (Val nd).
Definition set_next {T} (nd : node T) (p : ptr) : node T :=
  mkNode (prev nd) p (Val nd).
Definition set_Val {T} (nd : node T) (v : T) : node T :=
  mkNode (prev nd) (next nd) v.

(** [func (list *List[T]) Prev() *List[T]] *)
Definition Prev {T} (h : heap T) (list : ptr) : option ptr :=
  match list with
  | None => Some None
  | Some _ => nd ← load h list; Some (prev nd)
  end.

(** [func (list *List[T]) Next() *List[T]] *)
Definition Next {T} (h : heap T) (list : ptr) : option ptr :=
  match list with
  | None => Some None
  | Some _ => nd ← load h list; Some (next nd)
  end.

(** [func (list *List[T]) InsertBefore(v T) *List[T]]

    The new node is allocated with [next: list]; for a non-nil [list] the
    tuple assignment [node.prev, list.prev = list.prev, node] evaluates
    [list.prev] first and then performs the two stores. *)
Definition InsertBefore {T} (h : heap T) (list : ptr) (v : T)
  : option (heap T * ptr) :=
  let '(h1, nodep) := alloc h (mkNode None list v) in
  match list with
  | Some _ =>
      l ← load h1 list;
      let old_prev := prev l in
      n ← load h1 nodep;
      h2 ← store h1 nodep (set_prev n old_prev);
      l2 ← load h2 list;
      h3 ← store h2 list (set_prev l2 nodep);
      Some (h3, list)
  | None =>
      n ← load h1 nodep;
      h2 ← store h1 nodep (set_prev n nodep);
      n2 ← load h2 nodep;
      h3 ← store h2 nodep (set_next n2 nodep);
      Some (h3, nodep)
  end.

(** [func (list *List[T]) InsertAfter(v T) *List[T]] *)
Definition InsertAfter {T} (h : heap T) (list : ptr) (v : T)
  : option (heap T * ptr) :=
  let '(h1, nodep) := alloc h (mkNode list None v) in
  match list with
  | Some _ =>
      l ← load h1 list;
      let old_next := next l in
      n ← load h1 nodep;
      h2 ← store h1 nodep (set_next n old_next);
      l2 ← load h2 list;
      h3 ← store h2 list (set_next l2 nodep);
      Some (h3, list)
  | None =>
      n ← load h1 nodep;
      h2 ← store h1 nodep (set_prev n nodep);
      n2 ← load h2 nodep;
      h3 ← store h2 nodep (set_next n2 nodep);
      Some (h3, nodep)
  end.

(** [func (list *List[T]) Remove() *List[T]]

    [list.prev.next, list.next.prev = list.next, list.prev]: the two
    pointers on the left and the two values on the right are read first,
    then [p.next] and [n.prev] are stored in that order; the result is
    [list.prev] as read after the stores. *)
Definition Remove {T} (h : heap T) (list : ptr) : option (heap T * ptr) :=
  match list with
  | None => Some (h, None)
  | Some _ =>
      l ← load h list;
      let p := prev l in
      let n := next l in
      pn ← load h p;
      _ ← load h n;
      h1 ← store h p (set_next pn n);
      nn ← load h1 n;
      h2 ← store h1 n (set_prev nn p);
      l' ← load h2 list;
      Some (h2, prev l')
  end.

(** [func (list *List[T]) InsertSeqBefore(seq iter.Seq[T]) *List[T]];
    the input sequence is the finite list of the values it yields. *)
Fixpoint InsertSeqBefore {T} (h : heap T) (list : ptr) (seq : Datatypes.list T)
  : option (heap T * ptr) :=
  match seq with
  | [] => Some (h, list)
  | v :: seq' =>
      '(h', list') ← InsertBefore h list v;
      InsertSeqBefore h' list' seq'
  end.

(** The loop of [InsertSeqAfter], with its two variables [list] and [tail]. *)
Fixpoint InsertSeqAfter_loop {T} (h : heap T) (list tail : ptr) (seq : Datatypes.list T)
  : option (heap T * ptr) :=
  match seq with
  | [] => Some (h, list)
  | v :: seq' =>
      '(h', r) ← InsertAfter h tail v;
      tail' ← Next h' r;
      let list' := match list with None => tail' | Some _ => list end in
      InsertSeqAfter_loop h' list' tail' seq'
  end.

(** [func (list *List[T]) InsertSeqAfter(seq iter.Seq[T]) *List[T]] *)
Definition InsertSeqAfter {T} (h : heap T) (list : ptr) (seq : Datatypes.list T)
  : option (heap T * ptr) :=
  InsertSeqAfter_loop h list list seq.

(** [func NewListFromSeq[T any](seq iter.Seq[T]) (list *List[T])]: the
    named result [list] starts out nil. *)
Definition NewListFromSeq {T} (h : heap T) (seq : list T)
  : option (heap T * ptr) :=
  InsertSeqBefore h None seq.

(** [func NewList[T any](vals ...T) *List[T]] *)
Definition NewList {T} (h : heap T) (vals : list T) : option (heap T * ptr) :=
  NewListFromSeq h vals.

(** ** Iterators

    An [iter.Seq[X]] is a function taking the consumer's [yield] callback.
    The consumer is a state machine: [yield s x] is the consumer's new
    state and whether it wants more, or [None] if the loop body panics.
    The [for] loop of [seq] has no bound of its own, so the model takes
    fuel: one unit per call of [yield]. *)
Inductive outcome (A : Type) :=
  | Done (a : A)
  | Panic
  | OutOfFuel.
Arguments Done {A} _.
Arguments Panic {A}.
Arguments OutOfFuel {A}.

Definition consumer (St X : Type) := St → X → option (St * bool).

Fixpoint seq_loop {St} (advance : ptr → option ptr) (list : ptr)
    (yield : consumer St ptr) (fuel : nat) (cur : ptr) (s : St) : outcome St :=
  match fuel with
  | 0 => OutOfFuel
  | S fuel' =>
      match yield s cur with
      | None => Panic
      | Some (s', false) => Done s'
      | Some (s', true) =>
          match advance cur with
          | None => Panic
          | Some cur' =>
              if ptr_eqb cur' list then Done s'
              else seq_loop advance list yield fuel' cur' s'
          end
      end
  end.

(** [func (list *List[T]) seq(advance ...) iter.Seq[*List[T]]], where
    [advance] maps a node pointer to a node pointer. *)
Definition seq {St} (advance : ptr → option ptr) (list : ptr)
    (yield : consumer St ptr) (fuel : nat) (s : St) : outcome St :=
  match list with
  | None => Done s
  | Some _ => seq_loop advance list yield fuel list s
  end.

(** [func (list *List[T]) All() iter.Seq[*List[T]]] *)
Definition All {T St} (h : heap T) (list : ptr)
  : consumer St ptr → nat → St → outcome St :=
  seq (Next h) list.

(** [func (list *List[T]) Backward() iter.Seq[*List[T]]] *)
Definition Backward {T St} (h : heap T) (list : ptr)
  : consumer St ptr → nat → St → outcome St :=
  seq (Prev h) list.

(** The loop body [if !yield(node.Val) { return }] of [Values] and
    [ValuesBackward], as a consumer of nodes. *)
Definition on_Val {T St} (h : heap T) (yield : consumer St T) : consumer St ptr :=
  λ s nodep, nd ← load h nodep; yield s (Val nd).

(** [func (list *List[T]) Values() iter.Seq[T]] *)
Definition Values {T St} (h : heap T) (list : ptr) (yield : consumer St T)
  : nat → St → outcome St :=
  All h list (on_Val h yield).

(** [func (list *List[T]) ValuesBackward() iter.Seq[T]] *)
Definition ValuesBackward {T St} (h : heap T) (list : ptr) (yield : consumer St T)
  : nat → St → outcome St :=
  Backward h list (on_Val h yield).

(** Consumers: [slices.Collect] keeps everything; [take_k k] records every
    element it is handed and stops once it holds [k] of them. *)
Definition collect {X} : consumer (list X) X :=
  λ s x, Some (s ++ [x], true).

Definition take_k {X} (k : nat) : consumer (list X) X :=
  λ s x, Some (s ++ [x], bool_decide (length (s ++ [x]) < k)).

End LinkedList.

Import LinkedList.

(** Go's zero value of a type, as returned for an unset named result. *)
Class ZeroValue (V : Type) := zero_value : V.
#[export] Instance Z_ZeroValue : ZeroValue Z := 0%Z.
#[export] Instance nat_ZeroValue : ZeroValue nat := 0.
#[export] Instance string_ZeroValue : ZeroValue string := EmptyString.

(** ** The ordered map at key types whose [==] is equality

    In [OM] the index [map[K]*List[entry[K, V]]] is a finite map keyed by
    [K]: this is Go's map for the key types on which Go's [==] is plain
    equality, such as strings and integers.  The module [OMC] further down
    takes any comparable key type, with Go's [==] as a parameter; lemma
    [OMC_simulates_OM] shows that the two agree where [==] is equality. *)
Module OM.
Section OrderedMap.
Context {K : Type} `{Countable K} {V : Type}.

(** [type entry[K comparable, V any] struct { key K; val V }] *)
Record entry := mkEntry { key : K; val : V }.

(** [func enter[K comparable, V any](key K, val V) entry[K, V]] *)
Definition enter (key : K) (val : V) : entry := mkEntry key val.

(** The field update [e.val = v]. *)
Definition set_val (e : entry) (v : V) : entry := mkEntry (key e) v.

(** [type OrderedMap[K, V] struct { m map[K]*List[entry[K, V]]; head *List[entry[K, V]] }];
    a nil Go map is [None]. *)
Record OrderedMap := mkMap { m : option (gmap K ptr); head : ptr }.

(** The nodes live in the heap the map shares with its list. *)
Definition state : Type := heap entry * OrderedMap.

(** The zero-value [OrderedMap], on a heap without nodes. *)
Definition empty : state := ([], mkMap None None).

(** [node, ok := m.m[key]]: reading a nil map finds nothing. *)
Definition index (om : OrderedMap) (key : K) : option ptr :=
  mm ← m om; mm !! key.

(** [func (m *OrderedMap[K, V]) init()] *)
Definition init (om : OrderedMap) : OrderedMap :=
  match m om with
  | Some _ => om
  | None => mkMap (Some ∅) (head om)
  end.

(** [func (m *OrderedMap[K, V]) Set(key K, val V)] *)
Definition Set_ (key : K) (val : V) (st : state) : option state :=
  let '(h, om) := st in
  let om := init om in
  match index om key with
  | Some nodep =>
      nd ← load h nodep;
      h' ← store h nodep (set_Val nd (set_val (Val nd) val));
      Some (h', om)
  | None =>
      '(h', head') ← InsertBefore h (head om) (enter key val);
      p ← Prev h' head';
      mm ← m om;
      Some (h', mkMap (Some (<[key := p]> mm)) head')
  end.

(** [func (m *OrderedMap[K, V]) Lookup(key K) (val V, ok bool)] *)
Definition Lookup `{ZeroValue V} (key : K) (st : state) : option (V * bool) :=
  let '(h, om) := st in
  match index om key with
  | None => Some (zero_value, false)
  | Some nodep => nd ← load h nodep; Some (val (Val nd), true)
  end.

(** [func (m *OrderedMap[K, V]) Delete(key K)] *)
Definition Delete (key : K) (st : state) : option state :=
  let '(h, om) := st in
  match index om key with
  | None => Some st
  | Some nodep =>
      '(h', prev) ← Remove h nodep;
      head' ← (if ptr_eqb nodep (head om) then Next h' prev
               else Some (head om));
      Some (h', mkMap (delete key <$> m om) head')
  end.

(** [func (m *OrderedMap[K, V]) Clear()]: [clear] of a nil map leaves it nil. *)
Definition Clear (st : state) : option state :=
  let '(h, om) := st in
  Some (h, mkMap ((λ _, ∅) <$> m om) None).

(** [func (m *OrderedMap[K, V]) All() iter.Seq2[K, V]] *)
Definition All {St} (st : state) (yield : consumer St (K * V))
  : nat → St → outcome St :=
  LinkedList.Values (fst st) (head (snd st))
    (λ s e, yield s (key e, val e)).

(** [func (m *OrderedMap[K, V]) Keys() iter.Seq[K]] *)
Definition Keys {St} (st : state) (yield : consumer St K)
  : nat → St → outcome St :=
  All st (λ s kv, yield s (fst kv)).

(** [func (m *OrderedMap[K, V]) Values() iter.Seq[V]] *)
Definition Values {St} (st : state) (yield : consumer St V)
  : nat → St → outcome St :=
  All st (λ s kv, yield s (snd kv)).

(** The public mutators, for describing reachable states. *)
Inductive op :=
  | OpSet (key : K) (val : V)
  | OpDelete (key : K)
  | OpClear.

Definition run_op (o : op) (st : state) : option state :=
  match o with
  | OpSet k v => Set_ k v st
  | OpDelete k => Delete k st
  | OpClear => Clear st
  end.

Fixpoint run (ops : list op) (st : state) : option state :=
  match ops with
  | [] => Some st
  | o :: ops' => st' ← run_op o st; run ops' st'
  end.

End OrderedMap.
Arguments entry : clear implicits.
Arguments OrderedMap _ {_ _}.
Arguments state _ {_ _} _.
Arguments op : clear implicits.
End OM.

(** ** The ordered map at any comparable key type *)

(** Go's [==] on a comparable type.  It need not be reflexive: a
    floating-point NaN is different from itself. *)
Class Comparable (K : Type) := go_eq : K → K → bool.
#[export] Instance string_Comparable : Comparable string := String.eqb.
#[export] Instance Z_Comparable : Comparable Z := Z.eqb.
#[export] Instance bool_Comparable : Comparable bool := Bool.eqb.
(** [float64]: IEEE 754 binary64 and its comparison. *)
#[export] Instance float64_Comparable : Comparable PrimFloat.float :=
  PrimFloat.eqb.
#[export] Instance float64_ZeroValue : ZeroValue PrimFloat.float :=
  PrimFloat.zero.

(** Go's built-in [map[K]X] as the list of its entries; an entry is found
    by comparing its key with [==], so that an entry whose key is different
    from itself is never found, and several of them can be held. *)
Module GoMap.
Section GoMap.
Context {K : Type} `{Comparable K} {X : Type}.

(** [x, ok := m[key]] *)
Fixpoint get (m : list (K * X)) (key : K) : option X :=
  match m with
  | [] => None
  | (k, x) :: m' => if go_eq k key then Some x else get m' key
  end.

(** [m[key] = x]: the entry with an equal key is overwritten, and a new
    entry is made if there is none. *)
Fixpoint set (m : list (K * X)) (key : K) (x : X) : list (K * X) :=
  match m with
  | [] => [(key, x)]
  | (k, y) :: m' =>
      if go_eq k key then (key, x) :: m' else (k, y) :: set m' key x
  end.

(** [delete(m, key)]: no entry with an equal key is left. *)
Definition delete (m : list (K * X)) (key : K) : list (K * X) :=
  filter (λ e, go_eq (fst e) key = false) m.

(** [clear(m)] *)
Definition clear (m : list (K * X)) : list (K * X) := [].

End GoMap.
End GoMap.

Module OMC.
Section OrderedMap.
Context {K : Type} `{Comparable K} {V : Type}.

(** [type OrderedMap[K, V] struct { m map[K]*List[entry[K, V]]; head *List[entry[K, V]] }];
    a nil Go map is [None]. *)
Record OrderedMap := mkMap { m : option (list (K * ptr)); head : ptr }.

Definition state : Type := heap (OM.entry K V) * OrderedMap.

(** The zero-value [OrderedMap], on a heap without nodes. *)
Definition empty : state := ([], mkMap None None).

(** [node, ok := m.m[key]]: reading a nil map finds nothing. *)
Definition index (om : OrderedMap) (key : K) : option ptr :=
  mm ← m om; GoMap.get mm key.

(** The entries of [m.m]; a nil map has none. *)
Definition entries (om : OrderedMap) : list (K * ptr) :=
  default [] (m om).

(** [func (m *OrderedMap[K, V]) init()] *)
Definition init (om : OrderedMap) : OrderedMap :=
  match m om with
  | Some _ => om
  | None => mkMap (Some []) (head om)
  end.

(** [func (m *OrderedMap[K, V]) Set(key K, val V)] *)
Definition Set_ (key : K) (val : V) (st : state) : option state :=
  let '(h, om) := st in
  let om := init om in
  match index om key with
  | Some nodep =>
      nd ← load h nodep;
      h' ← store h nodep (set_Val nd (OM.set_val (Val nd) val));
      Some (h', om)
  | None =>
      '(h', head') ← InsertBefore h (head om) (OM.enter key val);
      p ← Prev h' head';
      mm ← m om;
      Some (h', mkMap (Some (GoMap.set mm key p)) head')
  end.

(** [func (m *OrderedMap[K, V]) Lookup(key K) (val V, ok bool)] *)
Definition Lookup `{ZeroValue V} (key : K) (st : state) : option (V * bool) :=
  let '(h, om) := st in
  match index om key with
  | None => Some (zero_value, false)
  | Some nodep => nd ← load h nodep; Some (OM.val (Val nd), true)
  end.

(** [func (m *OrderedMap[K, V]) Delete(key K)] *)
Definition Delete (key : K) (st : state) : option state :=
  let '(h, om) := st in
  match index om key with
  | None => Some st
  | Some nodep =>
      '(h', prev) ← Remove h nodep;
      head' ← (if ptr_eqb nodep (head om) then Next h' prev
               else Some (head om));
      Some (h', mkMap ((λ mm, GoMap.delete mm key) <$> m om) head')
  end.

(** [func (m *OrderedMap[K, V]) Clear()]: [clear] of a nil map leaves it nil. *)
Definition Clear (st : state) : option state :=
  let '(h, om) := st in
  Some (h, mkMap (GoMap.clear <$> m om) None).

(** [func (m *OrderedMap[K, V]) All() iter.Seq2[K, V]] *)
Definition All {St} (st : state) (yield : consumer St (K * V))
  : nat → St → outcome St :=
  LinkedList.Values (fst st) (head (snd st))
    (λ s e, yield s (OM.key e, OM.val e)).

(** [func (m *OrderedMap[K, V]) Keys() iter.Seq[K]] *)
Definition Keys {St} (st : state) (yield : consumer St K)
  : nat → St → outcome St :=
  All st (λ s kv, yield s (fst kv)).

(** [func (m *OrderedMap[K, V]) Values() iter.Seq[V]] *)
Definition Values {St} (st : state) (yield : consumer St V)
  : nat → St → outcome St :=
  All st (λ s kv, yield s (snd kv)).

Definition run_op (o : OM.op K V) (st : state) : option state :=
  match o with
  | OM.OpSet k v => Set_ k v st
  | OM.OpDelete k => Delete k st
  | OM.OpClear => Clear st
  end.

Fixpoint run (ops : list (OM.op K V)) (st : state) : option state :=
  match ops with
  | [] => Some st
  | o :: ops' => st' ← run_op o st; run ops' st'
  end.

End OrderedMap.
Arguments OrderedMap _ : clear implicits.
Arguments state _ _ : clear implicits.
End OMC.

(** [m.Set(NaN, 1)] on the zero-value [OrderedMap[float64, int]]. *)
Definition map_nan_set : option (OMC.state PrimFloat.float Z) :=
  OMC.Set_ PrimFloat.nan 1%Z OMC.empty.

(** * Auxiliary definitions for the statements *)

(** The heap [Remove] leaves behind: [p.next = n], then [n.prev = p]. *)
Definition unlink {T} (h : heap T) (p n : nat) : heap T :=
  let h1 := alter (λ x, set_next x (Some n)) p h in
  alter (λ x, set_prev x (Some p)) n h1.

(** The list built by [InsertBefore] on the empty list and then on its
    result: the values "A" and "B". *)
Definition two_before : option (heap string * ptr) :=
  '(h, l) ← InsertBefore [] None "A"; InsertBefore h l "B".

(** A three-node heap whose links are those of a proper cycle A, B, C. *)
Definition abc_cycle : heap string :=
  [ mkNode (Some 2) (Some 1) "A";
    mkNode (Some 0) (Some 2) "B";
    mkNode (Some 1) (Some 0) "C" ].

(** [walk advance i p]: the node reached from [p] by [i] calls of
    [advance]. *)
Fixpoint walk (advance : ptr → option ptr) (i : nat) (p : ptr) : option ptr :=
  match i with
  | 0 => Some p
  | S i' => q ← advance p; walk advance i' q
  end.

(** The first [count] nodes met from [p], [p] included. *)
Fixpoint orbit (advance : ptr → option ptr) (count : nat) (p : ptr) : list ptr :=
  match count with
  | 0 => []
  | S c => p :: match advance p with
                | Some q => orbit advance c q
                | None => []
                end
  end.

(** [ref] is a node of a list of exactly [count] nodes: following the links
    comes back to [ref] after [count] steps and not earlier. *)
Definition cycle_of (advance : ptr → option ptr) (ref : ptr) (count : nat) : Prop :=
  is_Some ref ∧ 0 < count ∧
  walk advance count ref = Some ref ∧
  ∀ i, 0 < i < count → walk advance i ref ≠ Some ref.

(** Handing the elements [xs] to a consumer, one by one, until it stops. *)
Fixpoint feed {St X} (yield : consumer St X) (xs : list X) (s : St) : outcome St :=
  match xs with
  | [] => Done s
  | x :: xs' =>
      match yield s x with
      | None => Panic
      | Some (s', false) => Done s'
      | Some (s', true) => feed yield xs' s'
      end
  end.

(** The two traversals, [All] along [next] and [Backward] along [prev]. *)
Inductive direction := Forward | Reverse.

Definition advance_of {T} (d : direction) (h : heap T) : ptr → option ptr :=
  match d with
  | Forward => Next h
  | Reverse => Prev h
  end.

Definition traverse {T St} (d : direction) (h : heap T) (ref : ptr)
  : consumer St ptr → nat → St → outcome St :=
  match d with
  | Forward => All h ref
  | Reverse => Backward h ref
  end.

(** A non-nil pointer to an allocated node. *)
Definition valid {T} (h : heap T) (p : ptr) : Prop :=
  ∃ a, p = Some a ∧ a < length h.

(** Every node's two links are non-nil and allocated. *)
Definition linked {T} (h : heap T) : Prop :=
  ∀ a nd, h !! a = Some nd → valid h (prev nd) ∧ valid h (next nd).

(** What every reachable map state satisfies: no operation meets a nil or
    unallocated pointer. *)
Definition wf `{Countable K} {V} (st : OM.state K V) : Prop :=
  linked (fst st) ∧
  (OM.head (snd st) = None ∨ valid (fst st) (OM.head (snd st))) ∧
  ∀ k p, OM.index (snd st) k = Some p → valid (fst st) p.

(** Handing the elements [xs] to a consumer: its final state and whether
    it still wants more after the last of them; [None] if it panics. *)
Fixpoint feed_more {St X} (yield : consumer St X) (xs : list X) (s : St)
  : option (St * bool) :=
  match xs with
  | [] => Some (s, true)
  | x :: xs' =>
      match yield s x with
      | None => None
      | Some (s', false) => Some (s', false)
      | Some (s', true) => feed_more yield xs' s'
      end
  end.

Definition finished {St} (r : option (St * bool)) : outcome St :=
  match r with
  | None => Panic
  | Some (s, _) => Done s
  end.

(** The [prev] link of the [i]-th node that a run of [InsertBefore] calls on
    one anchor has allocated from address [b] on: the anchor's old [prev]
    for the first, the node allocated just before for the others.  The
    anchor's own [prev] is that of the node allocated next. *)
Definition prev_link (b : nat) (p0 : ptr) (i : nat) : ptr :=
  match i with
  | 0 => p0
  | S i' => Some (b + i')
  end.

(** The heap while [InsertSeqBefore] runs on the anchor [a], whose value is
    [x0] and whose [prev] was [p0]: the values [ys] inserted so far sit from
    address [b] on. *)
Definition before_inv {T} (H : heap T) (a b : nat) (p0 : ptr) (x0 : T)
    (ys : list T) : Prop :=
  a < b ∧ length H = b + length ys ∧
  (∃ nd, H !! a = Some nd ∧ Val nd = x0 ∧
         prev nd = prev_link b p0 (length ys)) ∧
  ∀ i y, ys !! i = Some y →
    ∃ nd, H !! (b + i) = Some nd ∧ Val nd = y ∧ prev nd = prev_link b p0 i.

(** The [next] link of the node before the [i]-th of [len] nodes that a run
    of [InsertAfter] calls has allocated from address [b] on, each call on
    the node of the call before: the [i]-th node, or past the last one what
    the anchor's [next] was. *)
Definition next_link (b : nat) (nl : ptr) (len i : nat) : ptr :=
  if decide (i = len) then nl else Some (b + i).

(** The heap while [InsertSeqAfter] runs from the anchor [a], whose value is
    [x0] and whose [next] was [nl]: the values [zs] inserted so far sit from
    address [b] on. *)
Definition after_inv {T} (H : heap T) (a b : nat) (nl : ptr) (x0 : T)
    (zs : list T) : Prop :=
  a < b ∧ length H = b + length zs ∧
  (∃ nd, H !! a = Some nd ∧ Val nd = x0 ∧
         next nd = next_link b nl (length zs) 0) ∧
  ∀ i z, zs !! i = Some z →
    ∃ nd, H !! (b + i) = Some nd ∧ Val nd = z ∧
          next nd = next_link b nl (length zs) (S i).

(** The variable [tail] of [InsertSeqAfter] after [n] insertions. *)
Definition tail_ptr (a b n : nat) : ptr :=
  match n with
  | 0 => Some a
  | S n' => Some (b + n')
  end.

(** What [ValuesBackward] yields after [InsertSeqBefore] of [vals] on nil. *)
Definition first_then_reversed {T} (vals : list T) : list T :=
  match vals with
  | [] => []
  | x :: xs => x :: rev xs
  end.

(** The heap [NewList("A", "B", "C")] builds from the empty heap. *)
Definition newlist_abc : heap string :=
  [ mkNode (Some 2) (Some 0) "A";
    mkNode (Some 0) (Some 0) "B";
    mkNode (Some 1) (Some 0) "C" ].

(** The map scenarios. *)
Definition map_a1_b2_a3 : option (OM.state string Z) :=
  OM.run [OM.OpSet "a" 1%Z; OM.OpSet "b" 2%Z; OM.OpSet "a" 3%Z] OM.empty.

Definition map_a1_b2 : option (OM.state string Z) :=
  OM.run [OM.OpSet "a" 1%Z; OM.OpSet "b" 2%Z] OM.empty.

Definition map_a1_deleted : option (OM.state string Z) :=
  OM.run [OM.OpSet "a" 1%Z; OM.OpDelete "a"] OM.empty.

Definition map_a1_b2_a_deleted : option (OM.state string Z) :=
  OM.run [OM.OpSet "a" 1%Z; OM.OpSet "b" 2%Z; OM.OpDelete "a"] OM.empty.

(** Decides [cycle_of] on a concrete heap of at most four nodes. *)
Ltac cycle_by_evaluation :=
  split; [by eexists|]; split; [lia|]; split; [reflexivity|];
  let i := fresh "i" in let Hi := fresh "Hi" in
  intros i Hi; do 4 (try destruct i as [|i]); try lia; by vm_compute.

(** ** Definitions for the further properties *)

(** A well-formed circular list: the allocated nodes [l], each once, with
    every node's [next] on the following one and every node's [prev] on the
    preceding one, the last and the first being neighbours. *)
Definition ring {T} (h : heap T) (l : list nat) : Prop :=
  NoDup l ∧
  ∀ i x y, l !! i = Some x → l !! (S i mod length l) = Some y →
    Next h (Some x) = Some (Some y) ∧ Prev h (Some y) = Some (Some x).

(** The result of a run, with its final state mapped. *)
Definition outcome_map {A B} (f : A → B) (o : outcome A) : outcome B :=
  match o with
  | Done a => Done (f a)
  | Panic => Panic
  | OutOfFuel => OutOfFuel
  end.

(** Decides [linked] on a concrete heap of at most four nodes. *)
Ltac linked_by_evaluation :=
  let a := fresh "a" in let nd := fresh "nd" in let Ha := fresh "Ha" in
  intros a nd Ha; do 4 (try destruct a as [|a]); simpl in Ha;
  first [ discriminate Ha
        | injection Ha as <-; split; eexists;
          (split; [reflexivity | simpl; lia]) ].

(** The value a node reference designates, if it is allocated. *)
Definition value_at {T} (h : heap T) (p : ptr) : option T :=
  Val <$> load h p.

(** A run yielding nodes and a run yielding values went the same way: both
    ran out of fuel, or both ended and the values are those of the nodes,
    one by one. *)
Definition values_of_nodes {T} (h : heap T) (on : outcome (list ptr))
    (ov : outcome (list T)) : Prop :=
  match on, ov with
  | Done nodes, Done vals =>
      Forall2 (λ p v, value_at h p = Some v) nodes vals
  | OutOfFuel, OutOfFuel => True
  | _, _ => False
  end.

(** A finite map under the same calls: what the index of [OM] holds, key
    by key. *)
Definition model_step `{Countable K} {V} (o : OM.op K V) (mdl : gmap K V)
  : gmap K V :=
  match o with
  | OM.OpSet k v => <[k := v]> mdl
  | OM.OpDelete k => delete k mdl
  | OM.OpClear => ∅
  end.

Fixpoint model_of `{Countable K} {V} (ops : list (OM.op K V)) (mdl : gmap K V)
  : gmap K V :=
  match ops with
  | [] => mdl
  | o :: ops' => model_of ops' (model_step o mdl)
  end.

(** The key of the first [Set] since the last [Clear]. *)
Definition first_key_step {K V} (o : OM.op K V) (fk : option K) : option K :=
  match o with
  | OM.OpSet k _ => match fk with None => Some k | Some _ => fk end
  | OM.OpDelete _ => fk
  | OM.OpClear => None
  end.

Fixpoint first_key {K V} (ops : list (OM.op K V)) (fk : option K) : option K :=
  match ops with
  | [] => fk
  | o :: ops' => first_key ops' (first_key_step o fk)
  end.

(** The index holds the keys of the reference map, each on an allocated
    node that holds the key and its value. *)
Definition represents `{Countable K} {V} (st : OM.state K V) (mdl : gmap K V)
  : Prop :=
  ∀ k, match mdl !! k with
       | Some v => ∃ a nd, OM.index (snd st) k = Some (Some a) ∧
                           fst st !! a = Some nd ∧ Val nd = OM.enter k v
       | None => OM.index (snd st) k = None
       end.

(** Without a [Set] since the last [Clear] the head is nil and the index
    empty; otherwise the head is a node holding the key of the first such
    [Set], it is its own [next], and it is the [next] of every indexed
    node. *)
Definition head_fixed `{Countable K} {V} (st : OM.state K V) (fk : option K)
  : Prop :=
  match fk with
  | None => OM.head (snd st) = None ∧ ∀ k, OM.index (snd st) k = None
  | Some k0 =>
      ∃ a nd, OM.head (snd st) = Some a ∧ fst st !! a = Some nd ∧
              next nd = Some a ∧ OM.key (Val nd) = k0 ∧
              ∀ k p, OM.index (snd st) k = Some p →
                     Next (fst st) p = Some (Some a)
  end.

Definition map_inv `{Countable K} {V} (st : OM.state K V) (mdl : gmap K V)
    (fk : option K) : Prop :=
  wf st ∧ represents st mdl ∧ head_fixed st fk.

(** ** Definitions for the ordered map at any comparable key type *)

(** What every reachable state of the map satisfies, whatever the key type:
    links are allocated, the head is nil or allocated, every entry of the
    index holds an allocated node whose entry has the key of the index
    entry, and no node is held by two entries. *)
Definition cwf {K} `{Comparable K} {V} (st : OMC.state K V) : Prop :=
  linked (fst st) ∧
  (OMC.head (snd st) = None ∨ valid (fst st) (OMC.head (snd st))) ∧
  NoDup (snd <$> OMC.entries (snd st)) ∧
  Forall (λ e, ∃ a nd, snd e = Some a ∧ fst st !! a = Some nd ∧
                       OM.key (Val nd) = fst e)
         (OMC.entries (snd st)).

(** The value last given to a key equal to [key] and not deleted or cleared
    since, call by call. *)
Definition found_step {K} `{Comparable K} {V} (key : K) (r : option V)
    (o : OM.op K V) : option V :=
  match o with
  | OM.OpSet k v => if go_eq k key then Some v else r
  | OM.OpDelete k => if go_eq k key then None else r
  | OM.OpClear => None
  end.

Definition found_after {K} `{Comparable K} {V} (ops : list (OM.op K V))
    (key : K) : option V :=
  foldl (found_step key) None ops.

(** The two results of [Lookup]: the value and [true], or the zero value
    and [false]. *)
Definition lookup_result {V} `{ZeroValue V} (r : option V) : V * bool :=
  match r with
  | Some v => (v, true)
  | None => (zero_value, false)
  end.

(** A state of [OMC] and a state of [OM] on the same heap, with the same
    head and the same index. *)
Definition agree {K} `{Countable K} `{Comparable K} {V}
    (cst : OMC.state K V) (st : OM.state K V) : Prop :=
  fst cst = fst st ∧
  OMC.head (snd cst) = OM.head (snd st) ∧
  ∀ k, OMC.index (snd cst) k = OM.index (snd st) k.

Definition agree_opt {K} `{Countable K} `{Comparable K} {V}
    (oc : option (OMC.state K V)) (o : option (OM.state K V)) : Prop :=
  match oc, o with
  | Some cst, Some st => agree cst st
  | None, None => True
  | _, _ => False
  end.

(** [Set(NaN, 1); Set(1.0, 2)] on the zero-value [OrderedMap[float64, int]]. *)
Definition ops_nan_one : list (OM.op PrimFloat.float Z) :=
  [OM.OpSet PrimFloat.nan 1%Z; OM.OpSet PrimFloat.one 2%Z].

(** * Basic facts about the heap primitives *)

Section HeapFacts.
Context {T : Type}.
Implicit Types (h : heap T) (nd : node T) (a : nat).

Lemma lookup_fresh h nd : (h ++ [nd]) !! length h = Some nd.
Proof. by rewrite lookup_app_r, Nat.sub_diag by lia. Qed.

Lemma lookup_old h nd a x : h !! a = Some x → (h ++ [nd]) !! a = Some x.
Proof. intros Ha. by rewrite lookup_app_l_Some with (x := x). Qed.

(** [InsertBefore] in closed form, on the empty list ... *)
Lemma InsertBefore_nil h (v : T) :
  InsertBefore h None v =
    Some (h ++ [mkNode (Some (length h)) (Some (length h)) v], Some (length h)).
Proof.
  unfold InsertBefore, alloc.
  unfold load, store. simpl. rewrite !lookup_fresh. simpl.
  rewrite !list_lookup_insert_eq by (rewrite length_app; simpl; lia). simpl.
  rewrite list_insert_insert_eq.
  by rewrite insert_app_r_alt, Nat.sub_diag by lia.
Qed.

(** ... and before an allocated node. *)
Lemma InsertBefore_Some h a nd (v : T) :
  h !! a = Some nd →
  InsertBefore h (Some a) v =
    Some (<[a := set_prev nd (Some (length h))]> h ++ [mkNode (prev nd) (Some a) v],
          Some a).
Proof.
  intros Ha. pose proof (lookup_lt_Some _ _ _ Ha) as Hlt.
  unfold InsertBefore, alloc.
  unfold load, store. simpl.
  rewrite (lookup_old _ _ _ _ Ha), !lookup_fresh. simpl.
  rewrite insert_app_r_alt, Nat.sub_diag by lia. simpl.
  rewrite !lookup_app_l, Ha by done. simpl.
  by rewrite insert_app_l by done.
Qed.

Lemma InsertAfter_nil h (v : T) :
  InsertAfter h None v =
    Some (h ++ [mkNode (Some (length h)) (Some (length h)) v], Some (length h)).
Proof.
  unfold InsertAfter, alloc.
  unfold load, store. simpl. rewrite !lookup_fresh. simpl.
  rewrite !list_lookup_insert_eq by (rewrite length_app; simpl; lia). simpl.
  rewrite list_insert_insert_eq.
  by rewrite insert_app_r_alt, Nat.sub_diag by lia.
Qed.

Lemma InsertAfter_Some h a nd (v : T) :
  h !! a = Some nd →
  InsertAfter h (Some a) v =
    Some (<[a := set_next nd (Some (length h))]> h ++ [mkNode (Some a) (next nd) v],
          Some a).
Proof.
  intros Ha. pose proof (lookup_lt_Some _ _ _ Ha) as Hlt.
  unfold InsertAfter, alloc.
  unfold load, store. simpl.
  rewrite (lookup_old _ _ _ _ Ha), !lookup_fresh. simpl.
  rewrite insert_app_r_alt, Nat.sub_diag by lia. simpl.
  rewrite !lookup_app_l, Ha by done. simpl.
  by rewrite insert_app_l by done.
Qed.

Lemma unlink_lookup_self h a nd p n :
  h !! a = Some nd → prev nd = Some p → next nd = Some n →
  unlink h p n !! a = Some nd.
Proof.
  intros Ha Hp Hn. unfold unlink.
  destruct (decide (n = a)) as [->|Hna], (decide (p = a)) as [->|Hpa];
    repeat first [ rewrite list_lookup_alter_eq | rewrite list_lookup_alter_ne by done ];
    rewrite Ha; simpl; f_equal;
    destruct nd; unfold set_prev, set_next; simpl in *; congruence.
Qed.

Lemma Remove_Some h a nd p n :
  h !! a = Some nd → prev nd = Some p → next nd = Some n →
  p < length h → n < length h →
  Remove h (Some a) = Some (unlink h p n, Some p).
Proof.
  intros Ha Hp Hn Hpl Hnl.
  destruct (lookup_lt_is_Some_2 h p Hpl) as [pn Hpn].
  destruct (lookup_lt_is_Some_2 h n Hnl) as [nn Hnn].
  pose proof (unlink_lookup_self _ _ _ _ _ Ha Hp Hn) as Hself.
  unfold Remove, load, store. simpl. rewrite Ha. simpl.
  rewrite Hp, Hn. simpl. rewrite Hpn, Hnn. simpl.
  assert (Hh1 : <[p := set_next pn (Some n)]> h
                = alter (λ x, set_next x (Some n)) p h).
  { apply list_eq. intros i. destruct (decide (i = p)) as [->|].
    - by rewrite list_lookup_insert_eq, list_lookup_alter_eq, Hpn by done.
    - by rewrite list_lookup_insert_ne, list_lookup_alter_ne by done. }
  rewrite Hh1.
  destruct (lookup_lt_is_Some_2 (alter (λ x, set_next x (Some n)) p h) n)
    as [nn' Hnn']; [by rewrite length_alter|].
  rewrite Hnn'. simpl.
  assert (Hh2 : <[n := set_prev nn' (Some p)]> (alter (λ x, set_next x (Some n)) p h)
                = unlink h p n).
  { unfold unlink. apply list_eq. intros i. destruct (decide (i = n)) as [->|].
    - rewrite list_lookup_insert_eq, list_lookup_alter_eq, Hnn'; [done|].
      by rewrite length_alter.
    - rewrite list_lookup_insert_ne by done.
      by rewrite (list_lookup_alter_ne _ _ n) by done. }
  rewrite Hh2, Hself. simpl. by rewrite Hp.
Qed.

End HeapFacts.

(** * The list operations *)

(** C6: [Remove] on nil returns nil and changes nothing; on a node whose
    [prev] and [next] are the allocated nodes [p] and [n] it returns [p],
    the predecessor read before the call, and afterwards [p.next] is [n] and
    [n.prev] is [p]. *)
Theorem Remove_connects_neighbours {T} (h : heap T) (a p n : nat) (nd : node T) :
  h !! a = Some nd → prev nd = Some p → next nd = Some n →
  p < length h → n < length h →
  Remove h None = Some (h, None) ∧
  ∃ h', Remove h (Some a) = Some (h', Some p) ∧
        Next h' (Some p) = Some (Some n) ∧
        Prev h' (Some n) = Some (Some p).
Proof.
  intros Ha Hp Hn Hpl Hnl. split; [done|].
  exists (unlink h p n). split; [by eapply Remove_Some|].
  destruct (lookup_lt_is_Some_2 h p Hpl) as [pn Hpn].
  destruct (lookup_lt_is_Some_2 h n Hnl) as [nn Hnn].
  unfold Next, Prev, load, unlink. simpl. split.
  - destruct (decide (n = p)) as [->|Hne].
    + by rewrite !list_lookup_alter_eq, Hpn.
    + by rewrite list_lookup_alter_ne, list_lookup_alter_eq, Hpn.
  - rewrite list_lookup_alter_eq.
    destruct (decide (p = n)) as [->|Hne].
    + by rewrite list_lookup_alter_eq, Hnn.
    + by rewrite list_lookup_alter_ne, Hnn.
Qed.

(** C6 on the list A, B, C: removing B returns A and links A to C. *)
Lemma Remove_connects_neighbours_witness :
  Remove abc_cycle None = Some (abc_cycle, None) ∧
  ∃ h', Remove abc_cycle (Some 1) = Some (h', Some 0) ∧
        Next h' (Some 0) = Some (Some 2) ∧
        Prev h' (Some 2) = Some (Some 0).
Proof.
  apply (Remove_connects_neighbours abc_cycle 1 0 2
           (mkNode (Some 0) (Some 2) "B"));
    [reflexivity | reflexivity | reflexivity | simpl; lia | simpl; lia].
Defined.

(** C10: for an allocated anchor [ref], [InsertBefore] leaves [ref.Val] and
    [ref.next] as they were and only redirects [ref.prev] (to the new node);
    [InsertAfter] leaves [ref.Val] and [ref.prev] as they were and only
    redirects [ref.next]; and after [Remove] the node [ref] holds exactly
    the [Val], [prev] and [next] it held before. *)
Theorem anchor_frame {T} (h : heap T) (a : nat) (nd : node T) (v : T) :
  h !! a = Some nd →
  (∃ h', InsertBefore h (Some a) v = Some (h', Some a) ∧
         h' !! a = Some (mkNode (Some (length h)) (next nd) (Val nd))) ∧
  (∃ h', InsertAfter h (Some a) v = Some (h', Some a) ∧
         h' !! a = Some (mkNode (prev nd) (Some (length h)) (Val nd))) ∧
  (∀ p n, prev nd = Some p → next nd = Some n →
          p < length h → n < length h →
          ∃ h' r, Remove h (Some a) = Some (h', r) ∧ h' !! a = Some nd).
Proof.
  intros Ha. pose proof (lookup_lt_Some _ _ _ Ha) as Hlt.
  split; [|split].
  - eexists. split; [by apply InsertBefore_Some|].
    rewrite lookup_app_l by (by rewrite length_insert).
    by rewrite list_lookup_insert_eq.
  - eexists. split; [by apply InsertAfter_Some|].
    rewrite lookup_app_l by (by rewrite length_insert).
    by rewrite list_lookup_insert_eq.
  - intros p n Hp Hn Hpl Hnl. exists (unlink h p n), (Some p).
    split; [by eapply Remove_Some | by eapply unlink_lookup_self].
Qed.

(** C10 on the list A, B, C with anchor B. *)
Lemma anchor_frame_witness :
  (∃ h', InsertBefore abc_cycle (Some 1) "X" = Some (h', Some 1) ∧
         h' !! 1 = Some (mkNode (Some 3) (Some 2) "B")) ∧
  (∃ h', InsertAfter abc_cycle (Some 1) "X" = Some (h', Some 1) ∧
         h' !! 1 = Some (mkNode (Some 0) (Some 3) "B")) ∧
  (∀ p n, Some 0 = Some p → Some 2 = Some n →
          p < 3 → n < 3 →
          ∃ h' r, Remove abc_cycle (Some 1) = Some (h', r) ∧
                  h' !! 1 = Some (mkNode (Some 0) (Some 2) "B")).
Proof.
  apply (anchor_frame abc_cycle 1 (mkNode (Some 0) (Some 2) "B") "X").
  reflexivity.
Defined.

(** C1 (defect in [InsertBefore]): in the list reached from the empty list
    by [InsertBefore "A"] and then [InsertBefore "B"], node A still has
    [next == A] while its [prev] is the new node B, so [prev(next(A))] is B
    and not A: the predecessor's [next] link is never redirected. *)
Theorem InsertBefore_breaks_prev_next :
  ∃ h, two_before = Some (h, Some 0) ∧
       Next h (Some 0) = Some (Some 0) ∧
       Prev h (Some 0) = Some (Some 1) ∧
       (n ← Next h (Some 0); Prev h n) ≠ Some (Some 0).
Proof. eexists. split; [reflexivity|]. by vm_compute. Qed.

(** C5 (defect in [InsertBefore]): on nil the new node is its own [prev] and
    [next] and is returned; on the one-node list A the call returns A and
    links the new node B by [B.prev = A], [B.next = A], [A.prev = B], but
    A, which was [ref.prev], keeps [next == A]: B is not between [ref.prev]
    and [ref] for a forward traversal, which yields A alone. *)
Theorem InsertBefore_predecessor_not_relinked :
  ∃ h0 h1,
    InsertBefore [] None "A" = Some (h0, Some 0) ∧
    Prev h0 (Some 0) = Some (Some 0) ∧ Next h0 (Some 0) = Some (Some 0) ∧
    InsertBefore h0 (Some 0) "B" = Some (h1, Some 0) ∧
    h1 !! 1 = Some (mkNode (Some 0) (Some 0) "B") ∧
    Prev h1 (Some 0) = Some (Some 1) ∧
    Next h1 (Some 0) = Some (Some 0) ∧
    All h1 (Some 0) collect 2 [] = Done [Some 0].
Proof. do 2 eexists. split; [reflexivity|]. by vm_compute. Qed.

(** * Traversal *)

Section Traversal.
Variable advance : ptr → option ptr.

Lemma walk_add i j p : walk advance (i + j) p = walk advance i p ≫= walk advance j.
Proof.
  revert p. induction i as [|i IH]; intros p; simpl; [done|].
  destruct (advance p) as [q|]; simpl; [apply IH | done].
Qed.

Lemma walk_prefix i j p :
  i ≤ j → is_Some (walk advance j p) → is_Some (walk advance i p).
Proof.
  intros Hle [q Hq]. replace j with (i + (j - i)) in Hq by lia.
  rewrite walk_add in Hq. destruct (walk advance i p); [by eexists | done].
Qed.

Lemma orbit_length c p :
  is_Some (walk advance (c - 1) p) → length (orbit advance c p) = c.
Proof.
  revert p. induction c as [|c IH]; intros p Hw; simpl; [done|].
  destruct c as [|c]; [by destruct (advance p)|].
  simpl in Hw. replace (c - 0) with c in Hw by lia.
  destruct (advance p) as [q|]; [|by destruct Hw].
  simpl in Hw. f_equal. apply IH. simpl. by replace (c - 0) with c by lia.
Qed.

Lemma orbit_lookup c p i :
  i < c → is_Some (walk advance i p) → orbit advance c p !! i = walk advance i p.
Proof.
  revert p i. induction c as [|c IH]; intros p i Hlt Hw; [lia|].
  destruct i as [|i]; [done|]. simpl in *.
  destruct (advance p) as [q|]; [|by destruct Hw].
  simpl in *. apply IH; [lia | done].
Qed.

Lemma orbit_take c k p :
  k ≤ c → take k (orbit advance c p) = orbit advance k p.
Proof.
  revert k p. induction c as [|c IH]; intros k p Hle.
  - by replace k with 0 by lia.
  - destruct k as [|k]; [done|]. simpl. f_equal.
    destruct (advance p) as [q|]; [apply IH; lia | by destruct k].
Qed.

(** The loop of [seq] hands the consumer the nodes of the remaining cycle
    segment, in order, until the consumer stops or the start is met. *)
Lemma seq_loop_feed {St} (list : ptr) (yield : consumer St ptr) c :
  ∀ cur s fuel,
    0 < c → c ≤ fuel →
    walk advance c cur = Some list →
    (∀ j, 0 < j < c → walk advance j cur ≠ Some list) →
    seq_loop advance list yield fuel cur s = feed yield (orbit advance c cur) s.
Proof.
  induction c as [|c IH]; intros cur s fuel Hc Hfuel Hw Hmin; [lia|].
  destruct fuel as [|fuel]; [lia|]. simpl in *.
  destruct (yield s cur) as [[s' [|]]|]; [|done|done].
  destruct (advance cur) as [q|] eqn:Hq; [|done]. simpl in Hw.
  destruct c as [|c].
  - simpl in Hw. injection Hw as ->. unfold ptr_eqb.
    by rewrite bool_decide_eq_true_2.
  - unfold ptr_eqb. rewrite bool_decide_eq_false_2.
    + apply IH; [lia | lia | done |].
      intros j Hj. specialize (Hmin (S j)). simpl in Hmin. rewrite Hq in Hmin.
      apply Hmin. lia.
    + intros ->. specialize (Hmin 1). simpl in Hmin. rewrite Hq in Hmin.
      apply Hmin; [lia | done].
Qed.

(** With the consumer [take_k k], the loop reads the links of the first
    [m - 1] remaining nodes only: any [advance'] that agrees with [advance]
    there gives the same run. *)
Lemma seq_loop_take_k (advance' : ptr → option ptr) (list : ptr) k m :
  ∀ cur (s : Datatypes.list ptr) fuel,
    0 < m → m ≤ fuel → length s + m = k →
    is_Some (walk advance (m - 1) cur) →
    (∀ j, 0 < j < m → walk advance j cur ≠ Some list) →
    (∀ q, q ∈ orbit advance (m - 1) cur → advance' q = advance q) →
    seq_loop advance' list (take_k k) fuel cur s = Done (s ++ orbit advance m cur).
Proof.
  induction m as [|m IH]; intros cur s fuel Hm Hfuel Hk Hw Hmin Hagree; [lia|].
  destruct fuel as [|fuel]; [lia|]. simpl.
  change (take_k k s cur)
    with (Some (s ++ [cur], bool_decide (length (s ++ [cur]) < k))).
  rewrite length_app. simpl.
  destruct m as [|m].
  - rewrite bool_decide_eq_false_2 by lia. by destruct (advance cur).
  - rewrite bool_decide_eq_true_2 by lia.
    simpl in Hw, Hagree. replace (m - 0) with m in * by lia.
    rewrite Hagree by (left).
    destruct (advance cur) as [q|] eqn:Hq; [|by destruct Hw]. simpl in Hw.
    unfold ptr_eqb. rewrite bool_decide_eq_false_2.
    + rewrite (IH q (s ++ [cur]) fuel); try lia.
      * by rewrite <- app_assoc.
      * rewrite length_app. simpl. lia.
      * simpl. by replace (m - 0) with m by lia.
      * intros j Hj. specialize (Hmin (S j)). simpl in Hmin. rewrite Hq in Hmin.
        apply Hmin. lia.
      * intros q' Hq'. apply Hagree. right.
        simpl in Hq'. by replace (m - 0) with m in Hq' by lia.
    + intros ->. specialize (Hmin 1). simpl in Hmin. rewrite Hq in Hmin.
      apply Hmin; [lia | done].
Qed.

Lemma feed_collect {X} (xs s : Datatypes.list X) : feed collect xs s = Done (s ++ xs).
Proof.
  revert s. induction xs as [|x xs IH]; intros s; simpl.
  - by rewrite app_nil_r.
  - by rewrite IH, <- app_assoc.
Qed.

Lemma walk_cycle_mul ref count q :
  walk advance count ref = Some ref → walk advance (q * count) ref = Some ref.
Proof.
  intros Hc. induction q as [|q IH]; [done|]. simpl.
  by rewrite walk_add, Hc.
Qed.

Lemma walk_cycle_mod ref count j :
  0 < count → walk advance count ref = Some ref →
  walk advance j ref = walk advance (j mod count) ref.
Proof.
  intros Hpos Hc.
  rewrite (Nat.div_mod_eq j count) at 1.
  rewrite (Nat.mul_comm count), walk_add, (walk_cycle_mul _ _ _ Hc). done.
Qed.

Lemma cycle_walk_Some ref count i :
  cycle_of advance ref count → is_Some (walk advance i ref).
Proof.
  intros (_ & Hpos & Hc & _).
  rewrite (walk_cycle_mod _ _ _ Hpos Hc).
  apply (walk_prefix _ count); [|by rewrite Hc].
  pose proof (Nat.mod_upper_bound i count). lia.
Qed.

Lemma cycle_orbit_NoDup ref count :
  cycle_of advance ref count → NoDup (orbit advance count ref).
Proof.
  intros Hcyc. pose proof Hcyc as (_ & Hpos & Hc & Hmin).
  assert (Hlen : length (orbit advance count ref) = count)
    by (apply orbit_length, (cycle_walk_Some _ _ _ Hcyc)).
  assert (Hlt : ∀ i j x, i < j →
            orbit advance count ref !! i = Some x →
            orbit advance count ref !! j = Some x → False).
  { intros i j x Hij Hi Hj.
    assert (j < count) by (rewrite <- Hlen; by eapply lookup_lt_Some).
    rewrite orbit_lookup in Hi, Hj
      by (try lia; apply (cycle_walk_Some _ _ _ Hcyc)).
    apply (Hmin (i + (count - j))); [lia|].
    rewrite walk_add, Hi. simpl.
    assert (Hx : walk advance j ref ≫= walk advance (count - j) = Some ref).
    { rewrite <- walk_add. by replace (j + (count - j)) with count by lia. }
    by rewrite Hj in Hx. }
  apply NoDup_alt. intros i j x Hi Hj.
  destruct (Nat.lt_trichotomy i j) as [?|[?|?]]; [|done|]; exfalso; eauto.
Qed.

Lemma cycle_orbit_elem ref count x :
  cycle_of advance ref count →
  x ∈ orbit advance count ref ↔ ∃ i, walk advance i ref = Some x.
Proof.
  intros Hcyc. pose proof Hcyc as (_ & Hpos & Hc & _).
  assert (Hlen : length (orbit advance count ref) = count)
    by (apply orbit_length, (cycle_walk_Some _ _ _ Hcyc)).
  split.
  - intros [i Hi]%list_elem_of_lookup_1. exists i.
    rewrite <- Hi. symmetry. apply orbit_lookup.
    + rewrite <- Hlen. by eapply lookup_lt_Some.
    + apply (cycle_walk_Some _ _ _ Hcyc).
  - intros [i Hi]. apply (list_elem_of_lookup_2 _ (i mod count)).
    rewrite orbit_lookup.
    + by rewrite <- (walk_cycle_mod _ _ _ Hpos Hc).
    + apply Nat.mod_upper_bound. lia.
    + apply (cycle_walk_Some _ _ _ Hcyc).
Qed.

Lemma walk_nil i : advance None = Some None → walk advance i None = Some None.
Proof. intros Hnil. induction i as [|i IH]; simpl; [done|]. by rewrite Hnil. Qed.

(** Every node met from [ref] lies on the same cycle: it comes back to
    itself after [count] steps and not earlier, and reaches [ref]. *)
Lemma cycle_of_shift ref count j q :
  advance None = Some None →
  cycle_of advance ref count → walk advance j ref = Some q →
  cycle_of advance q count ∧ ∃ t, walk advance t q = Some ref.
Proof.
  intros Hnil (Href & Hpos & Hc & Hmin) Hq.
  rewrite (walk_cycle_mod _ _ _ Hpos Hc) in Hq.
  pose proof (Nat.mod_upper_bound j count) as Hj.
  set (j' := j mod count) in *.
  assert (Ht : walk advance (count - j') q = Some ref).
  { pose proof (walk_add j' (count - j') ref) as Hadd.
    rewrite Hq in Hadd. simpl in Hadd. rewrite <- Hadd.
    by replace (j' + (count - j')) with count by lia. }
  split; [|by eexists].
  split; [|split; [done|split]].
  - destruct q as [x|]; [by eexists|].
    rewrite walk_nil in Ht by done. destruct Href as [r ->]. done.
  - pose proof (walk_add j' count ref) as H1.
    pose proof (walk_add count j' ref) as H2.
    rewrite Hq in H1. rewrite Hc in H2. simpl in *.
    rewrite <- H1, Nat.add_comm, H2. done.
  - intros i Hi Hback. apply (Hmin i Hi).
    pose proof (walk_add i (count - j') q) as H1.
    pose proof (walk_add (count - j') i q) as H2.
    rewrite Hback in H1. rewrite Ht in H2. simpl in *.
    rewrite <- H2, Nat.add_comm, H1. done.
Qed.

Lemma cycle_orbit_Permutation ref count j q :
  advance None = Some None →
  cycle_of advance ref count → walk advance j ref = Some q →
  orbit advance count q ≡ₚ orbit advance count ref.
Proof.
  intros Hnil Hcyc Hq.
  destruct (cycle_of_shift _ _ _ _ Hnil Hcyc Hq) as (Hcycq & t & Ht).
  apply NoDup_Permutation; [by apply cycle_orbit_NoDup.. |].
  intros x. rewrite !cycle_orbit_elem by done. split; intros [i Hi].
  - exists (j + i). by rewrite walk_add, Hq.
  - exists (t + i). by rewrite walk_add, Ht.
Qed.

End Traversal.

Lemma advance_of_agree {T} (d : direction) (h h' : heap T) (q : ptr) :
  (∀ a, q = Some a → h' !! a = h !! a) →
  advance_of d h' q = advance_of d h q.
Proof.
  intros Hq. destruct q as [a|]; [|by destruct d].
  destruct d; unfold advance_of, Next, Prev, load; simpl; by rewrite Hq.
Qed.

Lemma traverse_seq {T St} (d : direction) (h : heap T) (ref : ptr)
    (yield : consumer St ptr) fuel s :
  traverse d h ref yield fuel s = seq (advance_of d h) ref yield fuel s.
Proof. by destruct d. Qed.

(** C4: let [ref] be a node of a list of [count] nodes, in the direction of
    the traversal ([All] follows [next], [Backward] follows [prev]).  The
    traversal hands its consumer the [count] nodes [ref], [advance ref], ...
    in that order and nothing else: [ref] comes first, no node comes twice,
    every node of the cycle is among them, and [count] rounds of the loop
    suffice.  A consumer that stops at its [k]-th element has received the
    first [k] nodes after [k] rounds, and the run is the same on every heap
    that agrees with this one on the first [k - 1] of them: no other node
    is read.  Every node [q] met from [ref] is a starting node of the same
    kind, and the traversal from [q] yields the same nodes in rotated
    order. *)
Theorem traversal_once_around {T} (d : direction) (h : heap T) (ref : ptr)
    (count : nat) :
  cycle_of (advance_of d h) ref count →
  let nodes := orbit (advance_of d h) count ref in
  (length nodes = count ∧ nodes !! 0 = Some ref ∧ NoDup nodes) ∧
  (∀ i, i < count → nodes !! i = walk (advance_of d h) i ref) ∧
  (∀ j, ∃ q, walk (advance_of d h) j ref = Some q ∧ q ∈ nodes) ∧
  (∀ St (yield : consumer St ptr) (s : St) fuel,
      count ≤ fuel → traverse d h ref yield fuel s = feed yield nodes s) ∧
  (∀ fuel, count ≤ fuel → traverse d h ref collect fuel [] = Done nodes) ∧
  (∀ k, 0 < k ≤ count →
      traverse d h ref (take_k k) k [] = Done (take k nodes) ∧
      ∀ h' : heap T,
        (∀ a, Some a ∈ take (k - 1) nodes → h' !! a = h !! a) →
        traverse d h' ref (take_k k) k [] = Done (take k nodes)) ∧
  (∀ j q, walk (advance_of d h) j ref = Some q →
      cycle_of (advance_of d h) q count ∧
      orbit (advance_of d h) count q ≡ₚ nodes).
Proof.
  intros Hcyc nodes. pose proof Hcyc as ([r ->] & Hpos & Hc & Hmin).
  assert (Hsome : ∀ i, is_Some (walk (advance_of d h) i (Some r)))
    by (intros i; by eapply cycle_walk_Some).
  assert (Hlook : ∀ i, i < count → nodes !! i = walk (advance_of d h) i (Some r))
    by (intros i Hi; by apply orbit_lookup).
  assert (Hfeed : ∀ St (yield : consumer St ptr) (s : St) fuel,
            count ≤ fuel →
            traverse d h (Some r) yield fuel s = feed yield nodes s).
  { intros St yield s fuel Hfuel. rewrite traverse_seq. simpl.
    by apply seq_loop_feed. }
  assert (Htake : ∀ k, 0 < k ≤ count → ∀ h' : heap T,
            (∀ a, Some a ∈ take (k - 1) nodes → h' !! a = h !! a) →
            traverse d h' (Some r) (take_k k) k [] = Done (take k nodes)).
  { intros k Hk h' Hagree. rewrite traverse_seq. simpl.
    unfold nodes in *. rewrite orbit_take in * by lia.
    rewrite (seq_loop_take_k (advance_of d h) (advance_of d h') (Some r) k k);
      [done | lia | lia | done | apply Hsome | | ].
    - intros j Hj. apply Hmin. lia.
    - intros q Hq. apply advance_of_agree. intros a ->. by apply Hagree. }
  assert (Hshift : ∀ j q, walk (advance_of d h) j (Some r) = Some q →
            cycle_of (advance_of d h) q count ∧
            orbit (advance_of d h) count q ≡ₚ nodes).
  { intros j q Hq. split.
    - eapply cycle_of_shift; [by destruct d | done | done].
    - eapply cycle_orbit_Permutation; [by destruct d | done | done]. }
  refine (conj _ (conj Hlook (conj _ (conj Hfeed (conj _ (conj _ Hshift)))))).
  - split; [by apply orbit_length|]. split; [by rewrite Hlook|].
    by apply cycle_orbit_NoDup.
  - intros j. destruct (Hsome (j mod count)) as [q Hq]. exists q.
    rewrite (walk_cycle_mod _ _ _ _ Hpos Hc). split; [done|].
    apply (list_elem_of_lookup_2 _ (j mod count)). rewrite Hlook; [done|].
    by apply Nat.mod_upper_bound, Nat.neq_0_lt_0.
  - intros fuel Hfuel. by rewrite Hfeed, feed_collect.
  - intros k Hk. split; by apply Htake.
Qed.

(** C4 on the list A, B, C, started at B: forward B, C, A; backward
    B, A, C; a consumer stopping at its second element gets B, C. *)
Lemma traversal_once_around_witness :
  cycle_of (advance_of Forward abc_cycle) (Some 1) 3 ∧
  cycle_of (advance_of Reverse abc_cycle) (Some 1) 3 ∧
  All abc_cycle (Some 1) collect 3 [] = Done [Some 1; Some 2; Some 0] ∧
  Backward abc_cycle (Some 1) collect 3 [] = Done [Some 1; Some 0; Some 2] ∧
  All abc_cycle (Some 1) (take_k 2) 2 [] = Done [Some 1; Some 2].
Proof.
  assert (Hf : cycle_of (advance_of Forward abc_cycle) (Some 1) 3)
    by cycle_by_evaluation.
  assert (Hr : cycle_of (advance_of Reverse abc_cycle) (Some 1) 3)
    by cycle_by_evaluation.
  pose proof (traversal_once_around Forward abc_cycle (Some 1) 3 Hf)
    as (_ & _ & _ & _ & Hall & Htake & _).
  pose proof (traversal_once_around Reverse abc_cycle (Some 1) 3 Hr)
    as (_ & _ & _ & _ & Hback & _ & _).
  split; [exact Hf|]. split; [exact Hr|].
  split; [apply (Hall 3); lia|]. split; [apply (Hback 3); lia|].
  assert (H2 : 0 < 2 ≤ 3) by lia.
  exact (proj1 (Htake 2 H2)).
Defined.

(** * Allocated links are preserved *)

Section Linked.
Context {T : Type}.
Implicit Types (h : heap T) (nd : node T) (a : nat) (p : ptr).

Lemma valid_Some h a : valid h (Some a) ↔ a < length h.
Proof.
  split; [by intros (? & [= <-] & ?) | intros; by exists a].
Qed.

Lemma valid_lookup h p : valid h p → ∃ a nd, p = Some a ∧ h !! a = Some nd.
Proof.
  intros (a & -> & Hlt). destruct (lookup_lt_is_Some_2 h a Hlt) as [nd Hnd].
  by exists a, nd.
Qed.

Lemma valid_mono h h' p : length h ≤ length h' → valid h p → valid h' p.
Proof. intros Hle (a & -> & Hlt). exists a. split; [done | lia]. Qed.

Lemma linked_InsertBefore h p (v : T) :
  linked h → p = None ∨ valid h p →
  ∃ h' p', InsertBefore h p v = Some (h', p') ∧
           linked h' ∧ valid h' p' ∧ length h' = S (length h) ∧
           Prev h' p' = Some (Some (length h)) ∧
           (∃ nd, h' !! length h = Some nd ∧ Val nd = v).
Proof.
  intros Hl [->|Hp].
  - eexists _, _. split; [apply InsertBefore_nil|].
    assert (Hlen : length (h ++ [mkNode (Some (length h)) (Some (length h)) v])
                   = S (length h)) by (rewrite length_app; simpl; lia).
    split; [|repeat split].
    + intros i x Hi.
      apply lookup_app_Some in Hi as [Hi|[_ Hi]].
      * split; (apply valid_mono with h; [lia|]); by apply (Hl i).
      * apply list_lookup_singleton_Some in Hi as [_ <-]. simpl.
        split; apply valid_Some; lia.
    + apply valid_Some. lia.
    + done.
    + unfold Prev, load. simpl. by rewrite lookup_fresh.
    + eexists. split; [apply lookup_fresh | done].
  - destruct (valid_lookup _ _ Hp) as (a & nd & -> & Ha).
    pose proof (lookup_lt_Some _ _ _ Ha) as Hlt.
    eexists _, _. split; [by apply InsertBefore_Some|].
    set (h' := <[a:=set_prev nd (Some (length h))]> h ++ [mkNode (prev nd) (Some a) v]).
    assert (Hlen : length h' = S (length h))
      by (unfold h'; rewrite length_app, length_insert; simpl; lia).
    assert (Hnew : h' !! length h = Some (mkNode (prev nd) (Some a) v)).
    { unfold h'. rewrite lookup_app_r by (by rewrite length_insert).
      by rewrite length_insert, Nat.sub_diag. }
    assert (Hup : ∀ q, valid h q → valid h' q)
      by (intros q; apply valid_mono; lia).
    split; [|repeat split].
    + intros i x Hi. unfold h' in Hi.
      apply lookup_app_Some in Hi as [Hi|[_ Hi]].
      * apply list_lookup_insert_Some in Hi as [(<- & <- & _)|[_ Hi]].
        -- simpl. split; [apply valid_Some; lia | apply Hup; by apply (Hl a)].
        -- split; apply Hup; by apply (Hl i).
      * apply list_lookup_singleton_Some in Hi as [_ <-]. simpl.
        split; [apply Hup; by apply (Hl a) | apply valid_Some; lia].
    + apply valid_Some. lia.
    + done.
    + unfold Prev, load, h'. simpl.
      rewrite lookup_app_l by (by rewrite length_insert).
      by rewrite list_lookup_insert_eq.
    + by eexists.
Qed.

Lemma length_unlink h (p n : nat) : length (unlink h p n) = length h.
Proof. unfold unlink. by rewrite !length_alter. Qed.

Lemma unlink_lookup h (p n : nat) i x :
  unlink h p n !! i = Some x →
  ∃ y, h !! i = Some y ∧
       prev x = (if decide (n = i) then Some p else prev y) ∧
       next x = (if decide (p = i) then Some n else next y).
Proof.
  unfold unlink. intros Hx.
  destruct (h !! i) as [y|] eqn:Hy.
  - exists y. split; [done|].
    destruct (decide (n = i)) as [->|Hn], (decide (p = i)) as [->|Hp];
      repeat first [ rewrite list_lookup_alter_eq in Hx
                   | rewrite list_lookup_alter_ne in Hx by done ];
      rewrite Hy in Hx; by injection Hx as <-.
  - apply lookup_lt_Some in Hx. rewrite !length_alter in Hx.
    apply lookup_ge_None in Hy. lia.
Qed.

Lemma linked_unlink h (p n : nat) :
  linked h → p < length h → n < length h → linked (unlink h p n).
Proof.
  intros Hl Hp Hn i x Hx.
  destruct (unlink_lookup _ _ _ _ _ Hx) as (y & Hy & -> & ->).
  destruct (Hl i y Hy) as [Hyp Hyn].
  split; case_decide;
    first [ apply valid_Some; by rewrite length_unlink
          | (eapply valid_mono; [|done]); by rewrite length_unlink ].
Qed.

End Linked.

(** * The ordered map *)

Section MapFacts.
Context `{Countable K} {V : Type} `{ZeroValue V}.
Implicit Types (st : OM.state K V) (om : OM.OrderedMap K) (k : K) (v : V).

Lemma index_init om k : OM.index (OM.init om) k = OM.index om k.
Proof.
  destruct om as [[mm|] hd]; unfold OM.index, OM.init; simpl; [done|].
  by rewrite lookup_empty.
Qed.

Lemma head_init om : OM.head (OM.init om) = OM.head om.
Proof. unfold OM.init. by destruct (OM.m om). Qed.

Lemma m_init om :
  ∃ mm, OM.m (OM.init om) = Some mm ∧ ∀ k, mm !! k = OM.index om k.
Proof.
  destruct om as [[mm|] hd]; unfold OM.index, OM.init; simpl.
  - by exists mm.
  - exists ∅. split; [done|]. intros k. by rewrite lookup_empty.
Qed.

Lemma Set_wf st k v :
  wf st →
  ∃ st', OM.Set_ k v st = Some st' ∧ wf st' ∧ OM.Lookup k st' = Some (v, true).
Proof.
  destruct st as [h om]. intros (Hl & Hh & Hi). simpl in *.
  unfold OM.Set_. rewrite index_init.
  destruct (OM.index om k) as [p|] eqn:Hk.
  - destruct (valid_lookup _ _ (Hi k p Hk)) as (a & nd & -> & Ha).
    pose proof (lookup_lt_Some _ _ _ Ha) as Hlt.
    unfold load, store. simpl. rewrite Ha. simpl.
    eexists. split; [done|]. split; [split; [|split]|]; simpl.
    + intros i x Hx.
      apply list_lookup_insert_Some in Hx as [(<- & <- & _)|[_ Hx]]; simpl;
        split; (apply valid_mono with h; [by rewrite length_insert|]);
        first [ by apply (Hl a nd) | by apply (Hl i x) ].
    + rewrite head_init. destruct Hh as [?|Hh]; [by left | right].
      apply valid_mono with h; [by rewrite length_insert | done].
    + intros k' p Hk'. rewrite index_init in Hk'.
      apply valid_mono with h; [by rewrite length_insert | by apply (Hi k')].
    + unfold OM.Lookup. rewrite index_init, Hk. unfold load. simpl.
      by rewrite list_lookup_insert_eq.
  - rewrite head_init.
    destruct (linked_InsertBefore h (OM.head om) (OM.enter k v) Hl Hh)
      as (h' & p' & Hins & Hl' & Hp' & Hlen & Hprev & nd & Hnd & HVal).
    rewrite Hins. simpl. rewrite Hprev. simpl.
    destruct (m_init om) as (mm & -> & Hmm). simpl.
    eexists. split; [done|]. split; [split; [|split]|]; simpl.
    + done.
    + by right.
    + intros k' p Hk'. unfold OM.index in Hk'. simpl in Hk'.
      apply lookup_insert_Some in Hk' as [[_ <-]|[_ Hk']].
      * apply valid_Some. lia.
      * apply valid_mono with h; [lia|]. apply (Hi k'). by rewrite <- Hmm.
    + unfold OM.Lookup, OM.index. simpl. rewrite lookup_insert_eq.
      unfold load. simpl. rewrite Hnd. simpl. by rewrite HVal.
Qed.

Lemma Delete_wf st k :
  wf st →
  ∃ st', OM.Delete k st = Some st' ∧ wf st' ∧ OM.index (snd st') k = None.
Proof.
  destruct st as [h om]. intros (Hl & Hh & Hi). simpl in *.
  unfold OM.Delete.
  destruct (OM.index om k) as [p|] eqn:Hk; [|by exists (h, om)].
  destruct (valid_lookup _ _ (Hi k p Hk)) as (a & nd & -> & Ha).
  destruct (Hl a nd Ha) as [(p0 & Hp0 & Hp0l) (n0 & Hn0 & Hn0l)].
  rewrite (Remove_Some h a nd p0 n0) by done. cbn [mbind option_bind].
  pose proof (linked_unlink h p0 n0 Hl Hp0l Hn0l) as Hl'.
  assert (Hhead : ∃ q, (if ptr_eqb (Some a) (OM.head om)
                        then Next (unlink h p0 n0) (Some p0)
                        else Some (OM.head om)) = Some q ∧
                       (q = None ∨ valid (unlink h p0 n0) q)).
  { destruct (ptr_eqb (Some a) (OM.head om)).
    - destruct (lookup_lt_is_Some_2 (unlink h p0 n0) p0) as [y Hy];
        [by rewrite length_unlink|].
      unfold Next, load. simpl. rewrite Hy. simpl.
      eexists. split; [done|]. right. by apply (Hl' p0 y).
    - eexists. split; [done|]. destruct Hh as [?|Hh]; [by left | right].
      apply valid_mono with h; [by rewrite length_unlink | done]. }
  destruct Hhead as (q & -> & Hq). simpl.
  eexists. split; [done|].
  unfold OM.index in *. simpl.
  destruct (OM.m om) as [mm|]; [|done]. simpl in *.
  split; [split; [|split]|]; simpl.
  - done.
  - done.
  - intros k' p Hk'. unfold OM.index in Hk'. simpl in Hk'.
    apply lookup_delete_Some in Hk' as [_ Hk'].
    apply valid_mono with h; [by rewrite length_unlink | by apply (Hi k')].
  - unfold OM.index. simpl. apply lookup_delete_eq.
Qed.

Lemma Clear_wf st : wf st → ∃ st', OM.Clear st = Some st' ∧ wf st'.
Proof.
  destruct st as [h om]. intros (Hl & _ & _).
  eexists. split; [done|]. split; [done|]. split; [by left|].
  intros k p. unfold OM.index. simpl.
  destruct (OM.m om); simpl; [by rewrite lookup_empty | done].
Qed.

Lemma empty_wf : wf (OM.empty : OM.state K V).
Proof.
  split; [|split].
  - intros a nd Ha. simpl in Ha. by rewrite lookup_nil in Ha.
  - by left.
  - intros k p. by unfold OM.index.
Qed.

Lemma run_wf (ops : list (OM.op K V)) st :
  wf st → ∃ st', OM.run ops st = Some st' ∧ wf st'.
Proof.
  revert st. induction ops as [|o ops IH]; intros st Hwf; [by exists st|].
  assert (Hstep : ∃ st1, OM.run_op o st = Some st1 ∧ wf st1).
  { destruct o as [k v|k|]; simpl.
    - destruct (Set_wf st k v Hwf) as (st1 & ? & ? & _). by exists st1.
    - destruct (Delete_wf st k Hwf) as (st1 & ? & ? & _). by exists st1.
    - by apply Clear_wf. }
  destruct Hstep as (st1 & Hrun & Hwf1). simpl. rewrite Hrun. simpl.
  by apply IH.
Qed.

End MapFacts.


(** * Bulk insertion *)

Section Bulk.
Context {T : Type}.
Implicit Types (H h : heap T) (x v : T) (xs ys zs : list T) (a b : nat).

(** A finished run stays the same with more fuel. *)
Lemma seq_loop_fuel_mono {St} advance (list : ptr) (yield : consumer St ptr)
    fuel fuel' cur s r :
  fuel ≤ fuel' →
  seq_loop advance list yield fuel cur s = Done r →
  seq_loop advance list yield fuel' cur s = Done r.
Proof.
  revert fuel' cur s. induction fuel as [|fuel IH]; intros fuel' cur s Hle Hr;
    [done|].
  destruct fuel' as [|fuel']; [lia|]. simpl in *.
  destruct (yield s cur) as [[s' [|]]|]; [|done|done].
  destruct (advance cur) as [q|]; [|done].
  destruct (ptr_eqb q list); [done|]. apply IH; [lia | done].
Qed.

Lemma feed_more_collect {X} (xs s : Datatypes.list X) :
  feed_more collect xs s = Some (s ++ xs, true).
Proof.
  revert s. induction xs as [|x xs IH]; intros s; simpl.
  - by rewrite app_nil_r.
  - by rewrite IH, <- app_assoc.
Qed.

Lemma feed_more_take_k {X} k (xs s : Datatypes.list X) :
  0 < length xs → length s + length xs = k →
  feed_more (take_k k) xs s = Some (s ++ xs, false).
Proof.
  revert s. induction xs as [|x xs IH]; intros s Hpos Hk; simpl in *; [lia|].
  rewrite length_app. simpl. destruct xs as [|x' xs].
  - by rewrite bool_decide_eq_false_2 by (simpl in *; lia).
  - rewrite bool_decide_eq_true_2 by (simpl in *; lia).
    rewrite IH; [by rewrite <- app_assoc | simpl; lia |].
    rewrite length_app. simpl in *. lia.
Qed.

(** ** [InsertSeqBefore] *)

Lemma before_inv_step H a b p0 x0 ys v :
  before_inv H a b p0 x0 ys →
  ∃ H', InsertBefore H (Some a) v = Some (H', Some a) ∧
        before_inv H' a b p0 x0 (ys ++ [v]).
Proof.
  intros (Hab & Hlen & (nd & Hnd & HVal & Hprev) & Hys).
  eexists. split; [by apply InsertBefore_Some|].
  split; [done|]. split; [|split].
  - rewrite !length_app, length_insert. simpl. lia.
  - eexists. split.
    + rewrite lookup_app_l by (rewrite length_insert; lia).
      apply list_lookup_insert_eq. lia.
    + simpl. split; [done|]. rewrite length_app, Hlen. simpl.
      by replace (length ys + 1) with (S (length ys)) by lia.
  - intros i y Hy. apply lookup_snoc_Some in Hy as [[Hi Hy]|[-> <-]].
    + destruct (Hys i y Hy) as (ndi & Hndi & ? & ?). exists ndi.
      split; [|done].
      rewrite lookup_app_l by (rewrite length_insert; lia).
      by rewrite list_lookup_insert_ne by lia.
    + eexists. split.
      * rewrite lookup_app_r by (rewrite length_insert; lia).
        rewrite length_insert.
        by replace (b + length ys - length H) with 0 by lia.
      * done.
Qed.

Lemma InsertSeqBefore_inv xs : ∀ H a b p0 x0 ys,
  before_inv H a b p0 x0 ys →
  ∃ H', InsertSeqBefore H (Some a) xs = Some (H', Some a) ∧
        before_inv H' a b p0 x0 (ys ++ xs).
Proof.
  induction xs as [|v xs IH]; intros H a b p0 x0 ys Hinv.
  - exists H. by rewrite app_nil_r.
  - destruct (before_inv_step _ _ _ _ _ _ v Hinv) as (H1 & Hstep & Hinv1).
    destruct (IH _ _ _ _ _ _ Hinv1) as (H' & Hrun & Hinv').
    exists H'. simpl. rewrite Hstep. simpl.
    split; [done|]. by rewrite <- app_assoc in Hinv'.
Qed.

(** Backward from the [j]-th inserted node: the values down to the first
    inserted one; if the consumer wants more then, the anchor's old [prev]
    must close the round. *)
Lemma backward_from_inserted {St} H a b p0 x0 ys (yield : consumer St T) :
  before_inv H a b p0 x0 ys →
  ∀ j (s : St) fuel,
    j < length ys → S j ≤ fuel →
    (∀ s', feed_more yield (rev (take (S j) ys)) s = Some (s', true) →
           p0 = Some a) →
    seq_loop (Prev H) (Some a) (on_Val H yield) fuel (Some (b + j)) s
    = finished (feed_more yield (rev (take (S j) ys)) s).
Proof.
  intros (Hab & _ & _ & Hys).
  induction j as [|j IH]; intros s fuel Hj Hfuel Hclose;
    (destruct fuel as [|fuel]; [lia|]);
    destruct (lookup_lt_is_Some_2 ys _ Hj) as [y Hy];
    destruct (Hys _ y Hy) as (nd & Hnd & HVal & Hprev);
    rewrite (take_S_r _ _ _ Hy), rev_unit in *;
    simpl in *; unfold on_Val at 1, load; simpl; rewrite Hnd; simpl;
    rewrite HVal; destruct (yield s y) as [[s' [|]]|]; try done;
    rewrite Hprev; simpl; unfold ptr_eqb.
  - rewrite (Hclose s') by done. by rewrite bool_decide_eq_true_2.
  - rewrite bool_decide_eq_false_2 by (intros [=]; lia).
    apply IH; [lia | lia | done].
Qed.

Lemma ValuesBackward_before_inv {St} H a b p0 x0 ys (yield : consumer St T)
    (s : St) fuel :
  before_inv H a b p0 x0 ys → S (length ys) ≤ fuel →
  (∀ s', feed_more yield (x0 :: rev ys) s = Some (s', true) → p0 = Some a) →
  ValuesBackward H (Some a) yield fuel s
  = finished (feed_more yield (x0 :: rev ys) s).
Proof.
  intros Hinv Hfuel Hclose.
  pose proof Hinv as (Hab & _ & (nd & Hnd & HVal & Hprev) & _).
  destruct fuel as [|fuel]; [lia|].
  unfold ValuesBackward, Backward, seq. simpl in *.
  unfold on_Val at 1, load. simpl. rewrite Hnd. simpl. rewrite HVal.
  destruct (yield s x0) as [[s' [|]]|]; try done.
  rewrite Hprev. unfold ptr_eqb.
  destruct ys as [|y ys _] using rev_ind.
  - simpl in *. rewrite (Hclose s') by done. by rewrite bool_decide_eq_true_2.
  - rewrite length_app in *. simpl in *.
    replace (length ys + 1) with (S (length ys)) in * by lia. simpl.
    rewrite bool_decide_eq_false_2 by (intros [=]; lia).
    rewrite (backward_from_inserted _ _ _ _ _ _ _ Hinv);
      rewrite ?length_app; simpl; try lia.
    + by rewrite firstn_all2 by (rewrite length_app; simpl; lia).
    + by rewrite firstn_all2 by (rewrite length_app; simpl; lia).
Qed.

(** ** [InsertSeqAfter] *)

Lemma after_inv_step H a b nl x0 zs v :
  after_inv H a b nl x0 zs →
  ∃ H' t, tail_ptr a b (length zs) = Some t ∧
          InsertAfter H (Some t) v = Some (H', Some t) ∧
          Next H' (Some t) = Some (Some (b + length zs)) ∧
          after_inv H' a b nl x0 (zs ++ [v]).
Proof.
  intros (Hab & Hlen & (nd & Hnd & HVal & Hnext) & Hzs).
  assert (Htail : ∃ t ndt, tail_ptr a b (length zs) = Some t ∧
                           H !! t = Some ndt ∧ next ndt = nl ∧
                           (t = a ∨ t = b + pred (length zs)) ∧
                           (t = a ↔ length zs = 0)).
  { destruct zs as [|z0 zs0] eqn:Ezs.
    - exists a, nd. simpl. unfold next_link in Hnext.
      rewrite decide_True in Hnext by done. split; [done|]. split; [done|].
      split; [done|]. split; [by left | done].
    - rewrite <- Ezs in *.
      assert (Hl : length zs = S (length zs0)) by (by rewrite Ezs).
      destruct (lookup_lt_is_Some_2 zs (length zs0)) as [zl Hzl]; [lia|].
      destruct (Hzs _ zl Hzl) as (ndl & Hndl & _ & Hnl).
      unfold next_link in Hnl. rewrite decide_True in Hnl by lia.
      exists (b + length zs0), ndl. rewrite Hl. simpl.
      split; [done|]. split; [done|]. split; [done|].
      split; [by right | lia]. }
  destruct Htail as (t & ndt & Ht & Hndt & Hnt & Hcase & Hta).
  pose proof (lookup_lt_Some _ _ _ Hndt) as Hlt.
  eexists _, t. split; [done|]. split; [by apply InsertAfter_Some|]. split.
  - unfold Next, load. simpl.
    rewrite lookup_app_l by (by rewrite length_insert).
    rewrite list_lookup_insert_eq by done. simpl. by rewrite Hlen.
  - split; [done|]. split; [|split].
    + rewrite !length_app, length_insert. simpl. lia.
    + rewrite lookup_app_l by (rewrite length_insert; lia).
      rewrite length_app. simpl. unfold next_link in *.
      destruct (decide (t = a)) as [->|Hne].
      * rewrite list_lookup_insert_eq by done. eexists. split; [done|].
        simpl. assert (nd = ndt) as <- by congruence.
        split; [done|]. rewrite decide_False by lia. f_equal. lia.
      * rewrite list_lookup_insert_ne by done. exists nd.
        split; [done|]. split; [done|].
        rewrite decide_False in Hnext by lia. by rewrite decide_False by lia.
    + intros i z Hz. rewrite length_app. simpl. unfold next_link in *.
      apply lookup_snoc_Some in Hz as [[Hi Hz]|[-> <-]].
      * destruct (Hzs i z Hz) as (ndi & Hndi & HVali & Hnexti).
        rewrite lookup_app_l by (rewrite length_insert; lia).
        destruct (decide (t = b + i)) as [->|Hne].
        -- rewrite list_lookup_insert_eq by done.
           eexists. split; [done|]. simpl. split; [congruence|].
           rewrite decide_False by lia. f_equal. lia.
        -- rewrite list_lookup_insert_ne by done.
           exists ndi. split; [done|]. split; [done|].
           rewrite decide_False in Hnexti by lia.
           by rewrite decide_False by lia.
      * rewrite lookup_app_r by (rewrite length_insert; lia).
        rewrite length_insert.
        replace (b + length zs - length H) with 0 by lia.
        eexists. split; [done|]. simpl. split; [done|].
        by rewrite decide_True by lia.
Qed.

Lemma InsertSeqAfter_loop_inv xs : ∀ H a b nl x0 zs,
  after_inv H a b nl x0 zs →
  ∃ H', InsertSeqAfter_loop H (Some a) (tail_ptr a b (length zs)) xs
          = Some (H', Some a) ∧
        after_inv H' a b nl x0 (zs ++ xs).
Proof.
  induction xs as [|v xs IH]; intros H a b nl x0 zs Hinv.
  - exists H. by rewrite app_nil_r.
  - destruct (after_inv_step _ _ _ _ _ _ v Hinv)
      as (H1 & t & Ht & Hins & Hnext & Hinv1).
    destruct (IH _ _ _ _ _ _ Hinv1) as (H' & Hrun & Hinv').
    exists H'. cbn [InsertSeqAfter_loop].
    rewrite Ht, Hins. cbn [mbind option_bind].
    rewrite Hnext. cbn [mbind option_bind].
    rewrite length_app in Hrun. simpl in Hrun.
    replace (length zs + 1) with (S (length zs)) in Hrun by lia.
    split; [done|]. by rewrite <- app_assoc in Hinv'.
Qed.

(** Forward from the [j]-th inserted node: the values from there to the
    last inserted one; if the consumer wants more then, the anchor's old
    [next] must close the round. *)
Lemma forward_from_inserted {St} H a b nl x0 zs (yield : consumer St T) :
  after_inv H a b nl x0 zs →
  ∀ m j (s : St) fuel,
    j + m = length zs → 0 < m → m ≤ fuel →
    (∀ s', feed_more yield (drop j zs) s = Some (s', true) → nl = Some a) →
    seq_loop (Next H) (Some a) (on_Val H yield) fuel (Some (b + j)) s
    = finished (feed_more yield (drop j zs) s).
Proof.
  intros (Hab & _ & _ & Hzs).
  induction m as [|m IH]; intros j s fuel Hj Hm Hfuel Hclose; [lia|].
  destruct fuel as [|fuel]; [lia|].
  destruct (lookup_lt_is_Some_2 zs j) as [z Hz]; [lia|].
  destruct (Hzs _ z Hz) as (nd & Hnd & HVal & Hnext).
  rewrite (drop_S _ _ _ Hz) in *.
  simpl in *. unfold on_Val at 1, load. simpl. rewrite Hnd. simpl.
  rewrite HVal. destruct (yield s z) as [[s' [|]]|]; try done.
  rewrite Hnext. unfold ptr_eqb, next_link.
  destruct (decide (S j = length zs)) as [Hlast|Hmore].
  - rewrite drop_ge in * by lia. simpl in *.
    rewrite (Hclose s') by done. by rewrite bool_decide_eq_true_2.
  - rewrite bool_decide_eq_false_2 by (intros [=]; lia).
    apply (IH (S j)); [lia | lia | lia | done].
Qed.

Lemma Values_after_inv {St} H a b nl x0 zs (yield : consumer St T)
    (s : St) fuel :
  after_inv H a b nl x0 zs → S (length zs) ≤ fuel →
  (∀ s', feed_more yield (x0 :: zs) s = Some (s', true) → nl = Some a) →
  Values H (Some a) yield fuel s = finished (feed_more yield (x0 :: zs) s).
Proof.
  intros Hinv Hfuel Hclose.
  pose proof Hinv as (Hab & _ & (nd & Hnd & HVal & Hnext) & _).
  destruct fuel as [|fuel]; [lia|].
  unfold Values, All, seq. simpl in *.
  unfold on_Val at 1, load. simpl. rewrite Hnd. simpl. rewrite HVal.
  destruct (yield s x0) as [[s' [|]]|]; try done.
  rewrite Hnext. unfold ptr_eqb, next_link.
  destruct (decide (0 = length zs)) as [Hnone|Hsome].
  - destruct zs; [|done]. simpl in *.
    rewrite (Hclose s') by done. by rewrite bool_decide_eq_true_2.
  - rewrite bool_decide_eq_false_2 by (intros [=]; lia).
    replace (Some b) with (Some (b + 0)) by (f_equal; lia).
    by rewrite (forward_from_inserted _ _ _ _ _ _ _ Hinv (length zs) 0)
      by (done || lia).
Qed.

(** The two invariants at the start: on an allocated anchor, and on the
    node that the first insertion into the empty list has made. *)
Lemma before_inv_anchor h a nd :
  h !! a = Some nd → before_inv h a (length h) (prev nd) (Val nd) [].
Proof.
  intros Ha. pose proof (lookup_lt_Some _ _ _ Ha).
  split; [done|]. split; [simpl; lia|]. split; [by exists nd|].
  intros i y Hy. by rewrite lookup_nil in Hy.
Qed.

Lemma after_inv_anchor h a nd :
  h !! a = Some nd → after_inv h a (length h) (next nd) (Val nd) [].
Proof.
  intros Ha. pose proof (lookup_lt_Some _ _ _ Ha).
  split; [done|]. split; [simpl; lia|]. split; [by exists nd|].
  intros i y Hy. by rewrite lookup_nil in Hy.
Qed.

End Bulk.

Lemma seq_fuel_mono {St} advance (list : ptr) (yield : consumer St ptr)
    fuel fuel' (s r : St) :
  fuel ≤ fuel' →
  seq advance list yield fuel s = Done r →
  seq advance list yield fuel' s = Done r.
Proof.
  destruct list as [a|]; [|done]. apply seq_loop_fuel_mono.
Qed.

(** The result of a finished run does not depend on the fuel. *)
Lemma seq_Done_unique {St} advance (list : ptr) (yield : consumer St ptr)
    fuel1 fuel2 (s r1 r2 : St) :
  seq advance list yield fuel1 s = Done r1 →
  seq advance list yield fuel2 s = Done r2 →
  r1 = r2.
Proof.
  intros H1 H2. destruct (Nat.le_ge_cases fuel1 fuel2) as [Hle|Hle].
  - apply (seq_fuel_mono _ _ _ _ _ _ _ Hle) in H1. congruence.
  - apply (seq_fuel_mono _ _ _ _ _ _ _ Hle) in H2. congruence.
Qed.

(** C2 (amended): bulk insertion keeps the order of the input along the
    links the insertion maintains.  After [InsertSeqAfter] of [vals],
    [Values] from the returned node yields [vals] in order: all of the list
    if it was empty, and right after the anchor's own value otherwise.
    After [InsertSeqBefore] of [vals], [ValuesBackward] from the returned
    node yields [vals] from the last to the first, right after the value of
    the returned node, which comes first: on the empty list, where the
    returned node holds the first of [vals] (this is [NewList]), that is
    the first value and then the others from the last to the second, so
    "A", "C", "B" for "A", "B", "C". *)
Theorem bulk_insert_order {T} (h : heap T) (vals : list T) :
  (∃ h' l, InsertSeqAfter h None vals = Some (h', l) ∧
           ∀ fuel, length vals ≤ fuel →
                   Values h' l collect fuel [] = Done vals) ∧
  (∃ h' l, InsertSeqBefore h None vals = Some (h', l) ∧
           NewList h vals = Some (h', l) ∧
           ∀ fuel, length vals ≤ fuel →
                   ValuesBackward h' l collect fuel []
                   = Done (first_then_reversed vals)) ∧
  (∀ a nd, h !! a = Some nd →
     (∃ h', InsertSeqAfter h (Some a) vals = Some (h', Some a) ∧
            Values h' (Some a) (take_k (S (length vals))) (S (length vals)) []
            = Done (Val nd :: vals)) ∧
     (∃ h', InsertSeqBefore h (Some a) vals = Some (h', Some a) ∧
            ValuesBackward h' (Some a) (take_k (S (length vals)))
              (S (length vals)) []
            = Done (Val nd :: rev vals))).
Proof.
  split; [|split].
  - destruct vals as [|x xs]; [by exists h, None|].
    destruct (InsertSeqAfter_loop_inv xs _ _ _ _ _ _
                (after_inv_anchor _ _ _ (lookup_fresh h (mkNode (Some (length h)) (Some (length h)) x))))
      as (h' & Hrun & Hinv).
    simpl in Hrun, Hinv.
    exists h', (Some (length h)). split.
    + unfold InsertSeqAfter. cbn [InsertSeqAfter_loop].
      rewrite InsertAfter_nil. cbn [mbind option_bind].
      unfold Next, load. simpl. rewrite lookup_fresh. simpl. done.
    + intros fuel Hfuel.
      rewrite (Values_after_inv _ _ _ _ _ _ _ _ _ Hinv) by done.
      by rewrite feed_more_collect.
  - destruct vals as [|x xs]; [by exists h, None|].
    destruct (InsertSeqBefore_inv xs _ _ _ _ _ _
                (before_inv_anchor _ _ _ (lookup_fresh h (mkNode (Some (length h)) (Some (length h)) x))))
      as (h' & Hrun & Hinv).
    simpl in Hrun, Hinv.
    assert (Hrun' : InsertSeqBefore h None (x :: xs) = Some (h', Some (length h))).
    { cbn [InsertSeqBefore]. rewrite InsertBefore_nil. done. }
    exists h', (Some (length h)). split; [done|]. split; [done|].
    intros fuel Hfuel.
    rewrite (ValuesBackward_before_inv _ _ _ _ _ _ _ _ _ Hinv) by done.
    by rewrite feed_more_collect.
  - intros a nd Ha. split.
    + destruct (InsertSeqAfter_loop_inv vals _ _ _ _ _ _
                  (after_inv_anchor _ _ _ Ha)) as (h' & Hrun & Hinv).
      simpl in Hrun, Hinv. exists h'. split; [done|].
      rewrite (Values_after_inv _ _ _ _ _ _ _ _ _ Hinv);
        rewrite ?feed_more_take_k; simpl; done || lia.
    + destruct (InsertSeqBefore_inv vals _ _ _ _ _ _
                  (before_inv_anchor _ _ _ Ha)) as (h' & Hrun & Hinv).
      simpl in Hrun, Hinv. exists h'. split; [done|].
      rewrite (ValuesBackward_before_inv _ _ _ _ _ _ _ _ _ Hinv);
        rewrite ?feed_more_take_k; simpl; rewrite ?length_rev; done || lia.
Qed.

(** C2 (amended) on concrete lists: "X", "Y" inserted after and before the
    node B of the list A, B, C. *)
Lemma bulk_insert_order_witness :
  abc_cycle !! 1 = Some (mkNode (Some 0) (Some 2) "B") ∧
  (∃ h', InsertSeqAfter abc_cycle (Some 1) ["X"; "Y"] = Some (h', Some 1) ∧
         Values h' (Some 1) (take_k 3) 3 [] = Done ["B"; "X"; "Y"]) ∧
  (∃ h', InsertSeqBefore abc_cycle (Some 1) ["X"; "Y"] = Some (h', Some 1) ∧
         ValuesBackward h' (Some 1) (take_k 3) 3 [] = Done ["B"; "Y"; "X"]).
Proof.
  split; [reflexivity|].
  exact (proj2 (proj2 (bulk_insert_order abc_cycle ["X"; "Y"])) 1
           (mkNode (Some 0) (Some 2) "B") eq_refl).
Defined.

(** C2 as stated fails: on the list [NewList("A", "B", "C")] builds,
    [ValuesBackward] starts with the returned node and yields "A", "C", "B",
    never "C", "B", "A"; and [Values] yields "A" alone, never
    "A", "B", "C". *)
Lemma NewList_ABC_not_in_order :
  NewList [] ["A"; "B"; "C"] = Some (newlist_abc, Some 0) ∧
  Values newlist_abc (Some 0) collect 3 [] = Done ["A"] ∧
  ValuesBackward newlist_abc (Some 0) collect 3 [] = Done ["A"; "C"; "B"] ∧
  (∀ fuel, Values newlist_abc (Some 0) collect fuel [] ≠ Done ["A"; "B"; "C"]) ∧
  (∀ fuel, ValuesBackward newlist_abc (Some 0) collect fuel []
           ≠ Done ["C"; "B"; "A"]).
Proof.
  assert (Hf : Values newlist_abc (Some 0) collect 3 [] = Done ["A"])
    by reflexivity.
  assert (Hb : ValuesBackward newlist_abc (Some 0) collect 3 []
               = Done ["A"; "C"; "B"]) by reflexivity.
  split; [reflexivity|]. split; [done|]. split; [done|].
  split; intros fuel Hfuel.
  - by pose proof (seq_Done_unique _ _ _ _ _ _ _ _ Hf Hfuel).
  - by pose proof (seq_Done_unique _ _ _ _ _ _ _ _ Hb Hfuel).
Qed.

(** * The ordered map on its scenarios *)

(** [Delete] of a key without index entry returns the state as it is. *)
Lemma Delete_absent `{Countable K} {V : Type} (k : K) (st : OM.state K V) :
  OM.index (snd st) k = None → OM.Delete k st = Some st.
Proof. destruct st as [h om]. simpl. intros Hk. unfold OM.Delete. by rewrite Hk. Qed.

(** C3 (defect in [InsertBefore]): after [Set("a",1); Set("b",2);
    Set("a",3)] both keys are indexed, [Lookup("a")] is [(3, true)] and
    [Lookup("b")] is [(2, true)], but [Keys()] yields "a" alone: the node of
    "b" was linked before the head by its own links and the head's [prev]
    only, so the forward traversal from the head never meets it. *)
Theorem Set_new_key_not_iterated :
  ∃ st, map_a1_b2_a3 = Some st ∧
        OM.Lookup "a" st = Some (3%Z, true) ∧
        OM.Lookup "b" st = Some (2%Z, true) ∧
        OM.Keys st collect 2 [] = Done ["a"] ∧
        ∀ fuel, OM.Keys st collect fuel [] ≠ Done ["a"; "b"].
Proof.
  eexists. split; [reflexivity|].
  assert (Hk : ∀ st, map_a1_b2_a3 = Some st → OM.Keys st collect 2 [] = Done ["a"]).
  { intros st [= <-]. reflexivity. }
  split; [reflexivity|]. split; [reflexivity|]. split; [by apply Hk|].
  intros fuel Hfuel.
  by pose proof (seq_Done_unique _ _ _ _ _ _ _ _ (Hk _ eq_refl) Hfuel).
Qed.

(** C7 (defect in [Delete]): after [Set("a",1); Delete("a")] the index is
    empty but the head is still the removed node, not nil, because
    [Remove] of a sole node returns that node and its [next] is itself;
    [Keys()] still yields "a".  After [Set("a",1); Set("b",2); Delete("a")]
    the head is still the removed node of "a" as well, whose [next] was
    never redirected to the node of "b". *)
Theorem Delete_sole_key_keeps_head :
  (∃ st, map_a1_deleted = Some st ∧
         OM.index (snd st) "a" = None ∧
         OM.head (snd st) = Some 0 ∧
         OM.head (snd st) ≠ None ∧
         OM.Keys st collect 1 [] = Done ["a"]) ∧
  (∃ st, map_a1_b2_a_deleted = Some st ∧
         OM.index (snd st) "a" = None ∧
         OM.index (snd st) "b" = Some (Some 1) ∧
         OM.head (snd st) = Some 0 ∧
         OM.Keys st collect 1 [] = Done ["a"]).
Proof. split; (eexists; split; [reflexivity|]; by vm_compute). Qed.

(** C9 (defects in [InsertBefore] and [Delete]): after [Set("a",1);
    Set("b",2)] the index maps "b" to node 1, but the list traversed from
    the head consists of node 0 alone; after [Set("a",1); Delete("a")] the
    list traversed from the head still holds a node with key "a", which the
    index no longer has. *)
Theorem index_and_list_disagree :
  (∃ st, map_a1_b2 = Some st ∧
         OM.index (snd st) "b" = Some (Some 1) ∧
         All (fst st) (OM.head (snd st)) collect 2 [] = Done [Some 0] ∧
         ∀ fuel nodes, All (fst st) (OM.head (snd st)) collect fuel [] = Done nodes →
                       Some 1 ∉ nodes) ∧
  (∃ st, map_a1_deleted = Some st ∧
         OM.index (snd st) "a" = None ∧
         All (fst st) (OM.head (snd st)) collect 1 [] = Done [Some 0] ∧
         (OM.key ∘ Val) <$> fst st !! 0 = Some "a").
Proof.
  split.
  - eexists. split; [reflexivity|]. split; [reflexivity|].
    assert (Hall : ∀ st, map_a1_b2 = Some st →
              All (fst st) (OM.head (snd st)) collect 2 [] = Done [Some 0]).
    { intros st [= <-]. reflexivity. }
    split; [by apply Hall|]. intros fuel nodes Hnodes.
    rewrite <- (seq_Done_unique _ _ _ _ _ _ _ _ (Hall _ eq_refl) Hnodes).
    by intros [[=]|[]%elem_of_nil]%elem_of_cons.
  - eexists. split; [reflexivity|]. by vm_compute.
Qed.

(** * Further properties of the list *)

Section ListMore.
Context {T : Type}.
Implicit Types (h : heap T) (nd : node T) (a : nat) (p : ptr) (v : T).

Lemma Next_Some_inv h a q :
  Next h (Some a) = Some q ↔ ∃ nd, h !! a = Some nd ∧ next nd = q.
Proof.
  unfold Next, load. simpl. destruct (h !! a) as [nd|]; simpl.
  - split; [intros [= <-]; by exists nd | by intros (? & [= <-] & <-)].
  - split; [done | by intros (? & ? & _)].
Qed.

Lemma Prev_Some_inv h a q :
  Prev h (Some a) = Some q ↔ ∃ nd, h !! a = Some nd ∧ prev nd = q.
Proof.
  unfold Prev, load. simpl. destruct (h !! a) as [nd|]; simpl.
  - split; [intros [= <-]; by exists nd | by intros (? & [= <-] & <-)].
  - split; [done | by intros (? & ? & _)].
Qed.

Lemma unlink_Val h (p n : nat) i : Val <$> unlink h p n !! i = Val <$> h !! i.
Proof.
  unfold unlink. rewrite !list_lookup_alter.
  repeat case_decide; simplify_eq; destruct (h !! i); done.
Qed.

Lemma unlink_lookup_ne h (p n : nat) i :
  i ≠ p → i ≠ n → unlink h p n !! i = h !! i.
Proof. intros. unfold unlink. by rewrite !list_lookup_alter_ne. Qed.

Lemma Next_unlink_ne h (p n : nat) a :
  a ≠ p → Next (unlink h p n) (Some a) = Next h (Some a).
Proof.
  intros Hne. unfold Next, load, unlink. simpl.
  rewrite list_lookup_alter.
  case_decide; simplify_eq; rewrite (list_lookup_alter_ne _ _ p) by done;
    destruct (h !! a); done.
Qed.

Lemma Next_unlink_eq h (p n : nat) :
  p < length h → Next (unlink h p n) (Some p) = Some (Some n).
Proof.
  intros Hp. destruct (lookup_lt_is_Some_2 h p Hp) as [pn Hpn].
  unfold Next, load, unlink. simpl.
  rewrite list_lookup_alter.
  case_decide; simplify_eq; by rewrite list_lookup_alter_eq, Hpn.
Qed.

Lemma Prev_unlink_ne h (p n : nat) a :
  a ≠ n → Prev (unlink h p n) (Some a) = Prev h (Some a).
Proof.
  intros Hne. unfold Prev, load, unlink. simpl.
  rewrite (list_lookup_alter_ne _ _ n) by done. rewrite list_lookup_alter.
  case_decide; simplify_eq; destruct (h !! a); done.
Qed.

Lemma Prev_unlink_eq h (p n : nat) :
  n < length h → Prev (unlink h p n) (Some n) = Some (Some p).
Proof.
  intros Hn. destruct (lookup_lt_is_Some_2 h n Hn) as [nn Hnn].
  unfold Prev, load, unlink. simpl.
  rewrite list_lookup_alter_eq, list_lookup_alter.
  case_decide; simplify_eq; by rewrite Hnn.
Qed.

Lemma linked_InsertAfter h p v :
  linked h → p = None ∨ valid h p →
  ∃ h' p', InsertAfter h p v = Some (h', p') ∧
           linked h' ∧ valid h' p' ∧ length h' = S (length h).
Proof.
  intros Hl [->|Hp].
  - eexists _, _. split; [apply InsertAfter_nil|].
    assert (Hlen : length (h ++ [mkNode (Some (length h)) (Some (length h)) v])
                   = S (length h)) by (rewrite length_app; simpl; lia).
    split; [|split; [apply valid_Some; lia | done]].
    intros i x Hi. apply lookup_app_Some in Hi as [Hi|[_ Hi]].
    + split; (apply valid_mono with h; [lia|]); by apply (Hl i).
    + apply list_lookup_singleton_Some in Hi as [_ <-]. simpl.
      split; apply valid_Some; lia.
  - destruct (valid_lookup _ _ Hp) as (a & nd & -> & Ha).
    pose proof (lookup_lt_Some _ _ _ Ha) as Hlt.
    eexists _, _. split; [by apply InsertAfter_Some|].
    set (h' := <[a:=set_next nd (Some (length h))]> h ++ [mkNode (Some a) (next nd) v]).
    assert (Hlen : length h' = S (length h))
      by (unfold h'; rewrite length_app, length_insert; simpl; lia).
    assert (Hup : ∀ q, valid h q → valid h' q)
      by (intros q; apply valid_mono; lia).
    split; [|split; [apply valid_Some; lia | done]].
    intros i x Hi. unfold h' in Hi.
    apply lookup_app_Some in Hi as [Hi|[_ Hi]].
    + apply list_lookup_insert_Some in Hi as [(<- & <- & _)|[_ Hi]].
      * simpl. split; [apply Hup; by apply (Hl a) | apply valid_Some; lia].
      * split; apply Hup; by apply (Hl i).
    + apply list_lookup_singleton_Some in Hi as [_ <-]. simpl.
      split; [apply valid_Some; lia | apply Hup; by apply (Hl a)].
Qed.

Lemma linked_Remove h p :
  linked h → p = None ∨ valid h p →
  ∃ h' q, Remove h p = Some (h', q) ∧ linked h' ∧ length h' = length h ∧
          (p = None → q = None) ∧ (valid h p → valid h' q).
Proof.
  intros Hl [->|Hp].
  - exists h, None. split; [done|]. split; [done|]. split; [done|]. tauto.
  - destruct (valid_lookup _ _ Hp) as (a & nd & -> & Ha).
    destruct (Hl a nd Ha) as [(p0 & Hp0 & Hp0l) (n0 & Hn0 & Hn0l)].
    exists (unlink h p0 n0), (Some p0).
    split; [by eapply Remove_Some|]. split; [by apply linked_unlink|].
    split; [apply length_unlink|]. split; [done|].
    intros _. apply valid_Some. by rewrite length_unlink.
Qed.

Lemma linked_InsertSeqBefore (vals : list T) : ∀ h p,
  linked h → p = None ∨ valid h p →
  ∃ h' p', InsertSeqBefore h p vals = Some (h', p') ∧ linked h' ∧
           (p' = None ∨ valid h' p') ∧ length h' = length h + length vals.
Proof.
  induction vals as [|v vals IH]; intros h p Hl Hp.
  - exists h, p. repeat (split; [done|]). simpl. lia.
  - destruct (linked_InsertBefore h p v Hl Hp)
      as (h1 & p1 & Hins & Hl1 & Hp1 & Hlen1 & _).
    destruct (IH h1 p1 Hl1 (or_intror Hp1)) as (h' & p' & Hrun & Hl' & Hp' & Hlen').
    exists h', p'. simpl. rewrite Hins. simpl.
    repeat (split; [done|]). lia.
Qed.

Lemma linked_InsertSeqAfter_loop (vals : list T) : ∀ h p t,
  linked h → p = None ∨ valid h p → t = None ∨ valid h t →
  ∃ h' p', InsertSeqAfter_loop h p t vals = Some (h', p') ∧ linked h' ∧
           (p' = None ∨ valid h' p') ∧ length h' = length h + length vals.
Proof.
  induction vals as [|v vals IH]; intros h p t Hl Hp Ht.
  - exists h, p. repeat (split; [done|]). simpl. lia.
  - destruct (linked_InsertAfter h t v Hl Ht)
      as (h1 & r & Hins & Hl1 & Hr & Hlen1).
    destruct (valid_lookup _ _ Hr) as (a & nd & -> & Ha).
    assert (Hnext : Next h1 (Some a) = Some (next nd))
      by (apply Next_Some_inv; by exists nd).
    assert (Ht' : valid h1 (next nd)) by (by apply (Hl1 a nd)).
    assert (Hp1 : match p with None => next nd | Some _ => p end = None
                  ∨ valid h1 match p with None => next nd | Some _ => p end).
    { destruct p as [x|]; [|by right]. destruct Hp as [|Hp]; [done|].
      right. apply valid_mono with h; [lia | done]. }
    destruct (IH h1 _ (next nd) Hl1 Hp1 (or_intror Ht'))
      as (h' & p' & Hrun & Hl' & Hp' & Hlen').
    exists h', p'. cbn [InsertSeqAfter_loop]. rewrite Hins.
    cbn [mbind option_bind]. rewrite Hnext. cbn [mbind option_bind].
    repeat (split; [done|]). simpl. lia.
Qed.

End ListMore.

(** X1: on a heap whose links are all non-nil and allocated, and for a list
    reference that is nil or allocated, no list operation panics: [Prev],
    [Next], [InsertBefore], [InsertAfter], [Remove], [InsertSeqBefore] and
    [InsertSeqAfter] all return, the heap they leave has again only non-nil
    allocated links, and the reference they return is nil or allocated
    (nil only where the given one was nil). *)
Theorem list_operations_keep_links_allocated {T} (h : heap T) (p : ptr)
    (v : T) (vals : list T) :
  linked h → p = None ∨ valid h p →
  (∃ q, Prev h p = Some q ∧ (p = None → q = None) ∧ (valid h p → valid h q)) ∧
  (∃ q, Next h p = Some q ∧ (p = None → q = None) ∧ (valid h p → valid h q)) ∧
  (∃ h' p', InsertBefore h p v = Some (h', p') ∧ linked h' ∧ valid h' p') ∧
  (∃ h' p', InsertAfter h p v = Some (h', p') ∧ linked h' ∧ valid h' p') ∧
  (∃ h' q, Remove h p = Some (h', q) ∧ linked h' ∧
           (p = None → q = None) ∧ (valid h p → valid h' q)) ∧
  (∃ h' p', InsertSeqBefore h p vals = Some (h', p') ∧ linked h' ∧
            (p' = None ∨ valid h' p')) ∧
  (∃ h' p', InsertSeqAfter h p vals = Some (h', p') ∧ linked h' ∧
            (p' = None ∨ valid h' p')).
Proof.
  intros Hl Hp.
  assert (Hlinks : ∀ a nd, p = Some a → h !! a = Some nd →
            valid h (prev nd) ∧ valid h (next nd))
    by (intros a nd _; apply Hl).
  split; [|split; [|split; [|split; [|split; [|split]]]]].
  - destruct Hp as [->|Hp]; [by exists None|].
    destruct (valid_lookup _ _ Hp) as (a & nd & -> & Ha).
    exists (prev nd). split; [apply Prev_Some_inv; by exists nd|].
    split; [done|]. intros _. by apply (Hl a nd).
  - destruct Hp as [->|Hp]; [by exists None|].
    destruct (valid_lookup _ _ Hp) as (a & nd & -> & Ha).
    exists (next nd). split; [apply Next_Some_inv; by exists nd|].
    split; [done|]. intros _. by apply (Hl a nd).
  - destruct (linked_InsertBefore h p v Hl Hp) as (h' & p' & ? & ? & ? & _).
    by exists h', p'.
  - destruct (linked_InsertAfter h p v Hl Hp) as (h' & p' & ? & ? & ? & _).
    by exists h', p'.
  - destruct (linked_Remove h p Hl Hp) as (h' & q & ? & ? & _ & ? & ?).
    by exists h', q.
  - destruct (linked_InsertSeqBefore vals h p Hl Hp) as (h' & p' & ? & ? & ? & _).
    by exists h', p'.
  - destruct (linked_InsertSeqAfter_loop vals h p p Hl Hp Hp)
      as (h' & p' & ? & ? & ? & _).
    by exists h', p'.
Qed.

(** X1 on the list A, B, C with the reference B. *)
Lemma list_operations_keep_links_allocated_witness :
  linked abc_cycle ∧ valid abc_cycle (Some 1) ∧
  (∃ h' q, Remove abc_cycle (Some 1) = Some (h', q) ∧ linked h' ∧
           (Some 1 = None → q = None) ∧
           (valid abc_cycle (Some 1) → valid h' q)) ∧
  (∃ h' p', InsertSeqAfter abc_cycle (Some 1) ["X"; "Y"] = Some (h', p') ∧
            linked h' ∧ (p' = None ∨ valid h' p')).
Proof.
  assert (Hl : linked abc_cycle) by linked_by_evaluation.
  assert (Hv : valid abc_cycle (Some 1))
    by (exists 1; split; [reflexivity | simpl; lia]).
  pose proof (list_operations_keep_links_allocated abc_cycle (Some 1) "X"
                ["X"; "Y"] Hl (or_intror Hv))
    as (_ & _ & _ & _ & Hrem & _ & Hafter).
  split; [exact Hl|]. split; [exact Hv|]. split; [exact Hrem | exact Hafter].
Defined.

Section ListFrame.
Context {T : Type}.
Implicit Types (h : heap T) (nd : node T) (a : nat) (v : T).

(** Two runs of the loop of [seq] agree when, on the allocated nodes, the
    links stay among the allocated nodes and both the links and the
    consumers agree. *)
Lemma seq_loop_agree {St} h (adv adv' : ptr → option ptr) (list : ptr)
    (yield yield' : consumer St ptr) :
  (∀ q, valid h q → adv' q = adv q) →
  (∀ q q', valid h q → adv q = Some q' → valid h q') →
  (∀ q s, valid h q → yield' s q = yield s q) →
  ∀ fuel cur s, valid h cur →
    seq_loop adv' list yield' fuel cur s = seq_loop adv list yield fuel cur s.
Proof.
  intros Hadv Hclosed Hyield.
  induction fuel as [|fuel IH]; intros cur s Hcur; [done|]. simpl.
  rewrite Hyield, Hadv by done.
  destruct (yield s cur) as [[s' [|]]|]; [|done|done].
  destruct (adv cur) as [q'|] eqn:Hq; [|done].
  destruct (ptr_eqb q' list); [done|]. apply IH. by eapply Hclosed.
Qed.

Lemma linked_Next_closed h q q' :
  linked h → valid h q → Next h q = Some q' → valid h q'.
Proof.
  intros Hl (a & -> & Ha) Hq. apply Next_Some_inv in Hq as (nd & Hnd & <-).
  by apply (Hl a nd).
Qed.

Lemma linked_Prev_closed h q q' :
  linked h → valid h q → Prev h q = Some q' → valid h q'.
Proof.
  intros Hl (a & -> & Ha) Hq. apply Prev_Some_inv in Hq as (nd & Hnd & <-).
  by apply (Hl a nd).
Qed.

Lemma InsertBefore_frame h (list : ptr) v :
  list = None ∨ valid h list →
  ∃ h' l', InsertBefore h list v = Some (h', l') ∧
    l' = match list with None => Some (length h) | Some _ => list end ∧
    length h' = S (length h) ∧
    (∃ nd, h' !! length h = Some nd ∧ Val nd = v ∧ next nd = l') ∧
    ∀ i nd, h !! i = Some nd →
      ∃ nd', h' !! i = Some nd' ∧ Val nd' = Val nd ∧ next nd' = next nd ∧
             (Some i ≠ list → nd' = nd).
Proof.
  intros [->|Hv].
  - eexists _, _. split; [apply InsertBefore_nil|]. split; [done|].
    split; [rewrite length_app; simpl; lia|]. split.
    + eexists. by rewrite lookup_fresh.
    + intros i nd Hi. exists nd. by rewrite (lookup_app_l_Some _ _ _ _ Hi).
  - destruct (valid_lookup _ _ Hv) as (a & nda & -> & Ha).
    pose proof (lookup_lt_Some _ _ _ Ha) as Hlt.
    eexists _, _. split; [by apply InsertBefore_Some|]. split; [done|].
    split; [rewrite length_app, length_insert; simpl; lia|]. split.
    + rewrite lookup_app_r by (by rewrite length_insert).
      rewrite length_insert, Nat.sub_diag. by eexists.
    + intros i nd Hi. pose proof (lookup_lt_Some _ _ _ Hi).
      rewrite lookup_app_l by (by rewrite length_insert).
      destruct (decide (i = a)) as [->|Hne].
      * rewrite list_lookup_insert_eq by done. eexists. split; [done|].
        assert (nd = nda) as -> by congruence. simpl.
        repeat (split; [done|]). congruence.
      * rewrite list_lookup_insert_ne by done. by exists nd.
Qed.

Lemma InsertAfter_frame h (list : ptr) v :
  list = None ∨ valid h list →
  ∃ h' l', InsertAfter h list v = Some (h', l') ∧
    l' = match list with None => Some (length h) | Some _ => list end ∧
    length h' = S (length h) ∧
    (∃ nd, h' !! length h = Some nd ∧ Val nd = v ∧ prev nd = l') ∧
    ∀ i nd, h !! i = Some nd →
      ∃ nd', h' !! i = Some nd' ∧ Val nd' = Val nd ∧ prev nd' = prev nd ∧
             (Some i ≠ list → nd' = nd).
Proof.
  intros [->|Hv].
  - eexists _, _. split; [apply InsertAfter_nil|]. split; [done|].
    split; [rewrite length_app; simpl; lia|]. split.
    + eexists. by rewrite lookup_fresh.
    + intros i nd Hi. exists nd. by rewrite (lookup_app_l_Some _ _ _ _ Hi).
  - destruct (valid_lookup _ _ Hv) as (a & nda & -> & Ha).
    pose proof (lookup_lt_Some _ _ _ Ha) as Hlt.
    eexists _, _. split; [by apply InsertAfter_Some|]. split; [done|].
    split; [rewrite length_app, length_insert; simpl; lia|]. split.
    + rewrite lookup_app_r by (by rewrite length_insert).
      rewrite length_insert, Nat.sub_diag. by eexists.
    + intros i nd Hi. pose proof (lookup_lt_Some _ _ _ Hi).
      rewrite lookup_app_l by (by rewrite length_insert).
      destruct (decide (i = a)) as [->|Hne].
      * rewrite list_lookup_insert_eq by done. eexists. split; [done|].
        assert (nd = nda) as -> by congruence. simpl.
        repeat (split; [done|]). congruence.
      * rewrite list_lookup_insert_ne by done. by exists nd.
Qed.

End ListFrame.

(** X2: [InsertBefore] and [InsertAfter], on a reference that is nil or
    allocated, return the given reference (the new node if it was nil),
    allocate exactly one node, which holds the given value, and leave every
    node allocated before as it was, except the anchor, whose value they
    keep. *)
Theorem insertion_allocates_one_node {T} (h : heap T) (list : ptr) (v : T) :
  list = None ∨ valid h list →
  let l' := match list with None => Some (length h) | Some _ => list end in
  (∃ h', InsertBefore h list v = Some (h', l') ∧
         length h' = S (length h) ∧ value_at h' (Some (length h)) = Some v ∧
         ∀ i nd, h !! i = Some nd →
           value_at h' (Some i) = Some (Val nd) ∧
           (Some i ≠ list → h' !! i = Some nd)) ∧
  (∃ h', InsertAfter h list v = Some (h', l') ∧
         length h' = S (length h) ∧ value_at h' (Some (length h)) = Some v ∧
         ∀ i nd, h !! i = Some nd →
           value_at h' (Some i) = Some (Val nd) ∧
           (Some i ≠ list → h' !! i = Some nd)).
Proof.
  intros Hlist l'. split.
  - destruct (InsertBefore_frame h list v Hlist)
      as (h' & ? & Hins & -> & Hlen & (ndn & Hn & HVal & _) & Hold).
    exists h'. split; [done|]. split; [done|]. split.
    + unfold value_at, load. simpl. by rewrite Hn, <- HVal.
    + intros i nd Hi. destruct (Hold i nd Hi) as (nd' & Hi' & HV & _ & Hsame).
      unfold value_at, load. simpl. rewrite Hi'. simpl. split; [by rewrite HV|].
      intros Hne. by rewrite (Hsame Hne).
  - destruct (InsertAfter_frame h list v Hlist)
      as (h' & ? & Hins & -> & Hlen & (ndn & Hn & HVal & _) & Hold).
    exists h'. split; [done|]. split; [done|]. split.
    + unfold value_at, load. simpl. by rewrite Hn, <- HVal.
    + intros i nd Hi. destruct (Hold i nd Hi) as (nd' & Hi' & HV & _ & Hsame).
      unfold value_at, load. simpl. rewrite Hi'. simpl. split; [by rewrite HV|].
      intros Hne. by rewrite (Hsame Hne).
Qed.

(** X2 on the list A, B, C with the anchor B. *)
Lemma insertion_allocates_one_node_witness :
  valid abc_cycle (Some 1) ∧
  ∃ h', InsertBefore abc_cycle (Some 1) "X" = Some (h', Some 1) ∧
        length h' = 4 ∧ value_at h' (Some 3) = Some "X" ∧
        ∀ i nd, abc_cycle !! i = Some nd →
          value_at h' (Some i) = Some (Val nd) ∧
          (Some i ≠ Some 1 → h' !! i = Some nd).
Proof.
  assert (Hv : valid abc_cycle (Some 1))
    by (exists 1; split; [reflexivity | simpl; lia]).
  split; [exact Hv|].
  exact (proj1 (insertion_allocates_one_node abc_cycle (Some 1) "X"
                  (or_intror Hv))).
Defined.

(** X3: on a heap with allocated links, [InsertBefore] changes no [next]
    link and no value of the nodes allocated before, so what [All] and
    [Values] hand to a consumer from any such node is what they handed
    before the call: the new node is not met.  In the same way
    [InsertAfter] changes no [prev] link, and [Backward] and
    [ValuesBackward] are as before. *)
Theorem insertion_unseen_in_one_direction {T St Sv} (h : heap T)
    (list ref : ptr) (v : T) (yieldp : consumer St ptr) (yield : consumer Sv T) :
  linked h → list = None ∨ valid h list → valid h ref →
  (∃ h' l', InsertBefore h list v = Some (h', l') ∧
     (∀ fuel s, All h' ref yieldp fuel s = All h ref yieldp fuel s) ∧
     (∀ fuel s, Values h' ref yield fuel s = Values h ref yield fuel s)) ∧
  (∃ h' l', InsertAfter h list v = Some (h', l') ∧
     (∀ fuel s, Backward h' ref yieldp fuel s = Backward h ref yieldp fuel s) ∧
     (∀ fuel s, ValuesBackward h' ref yield fuel s
                = ValuesBackward h ref yield fuel s)).
Proof.
  intros Hl Hlist Href. pose proof Href as (r & -> & Hr). split.
  - destruct (InsertBefore_frame h list v Hlist)
      as (h' & l' & Hins & _ & _ & _ & Hold).
    exists h', l'. split; [done|].
    assert (Hnext : ∀ q, valid h q → Next h' q = Next h q).
    { intros q Hq. destruct (valid_lookup _ _ Hq) as (i & nd & -> & Hi).
      destruct (Hold i nd Hi) as (nd' & Hi' & _ & Hn & _).
      transitivity (Some (next nd)); [|symmetry];
        apply Next_Some_inv; eexists; split; done. }
    assert (HVal : ∀ q s, valid h q → on_Val h' yield s q = on_Val h yield s q).
    { intros q s Hq. destruct (valid_lookup _ _ Hq) as (i & nd & -> & Hi).
      destruct (Hold i nd Hi) as (nd' & Hi' & HV & _).
      unfold on_Val, load. simpl. rewrite Hi, Hi'. simpl. by rewrite HV. }
    split; intros fuel s; unfold Values, All, seq.
    + apply (seq_loop_agree h); try done.
      intros q q'. by apply linked_Next_closed.
    + apply (seq_loop_agree h); try done.
      intros q q'. by apply linked_Next_closed.
  - destruct (InsertAfter_frame h list v Hlist)
      as (h' & l' & Hins & _ & _ & _ & Hold).
    exists h', l'. split; [done|].
    assert (Hprev : ∀ q, valid h q → Prev h' q = Prev h q).
    { intros q Hq. destruct (valid_lookup _ _ Hq) as (i & nd & -> & Hi).
      destruct (Hold i nd Hi) as (nd' & Hi' & _ & Hn & _).
      transitivity (Some (prev nd)); [|symmetry];
        apply Prev_Some_inv; eexists; split; done. }
    assert (HVal : ∀ q s, valid h q → on_Val h' yield s q = on_Val h yield s q).
    { intros q s Hq. destruct (valid_lookup _ _ Hq) as (i & nd & -> & Hi).
      destruct (Hold i nd Hi) as (nd' & Hi' & HV & _).
      unfold on_Val, load. simpl. rewrite Hi, Hi'. simpl. by rewrite HV. }
    split; intros fuel s; unfold ValuesBackward, Backward, seq.
    + apply (seq_loop_agree h); try done.
      intros q q'. by apply linked_Prev_closed.
    + apply (seq_loop_agree h); try done.
      intros q q'. by apply linked_Prev_closed.
Qed.

(** X3 on the list A, B, C: after inserting "X" before B, [Values] from A
    is what it was. *)
Lemma insertion_unseen_in_one_direction_witness :
  linked abc_cycle ∧ valid abc_cycle (Some 1) ∧ valid abc_cycle (Some 0) ∧
  ∃ h' l', InsertBefore abc_cycle (Some 1) "X" = Some (h', l') ∧
    (∀ fuel s, All h' (Some 0) collect fuel s
               = All abc_cycle (Some 0) collect fuel s) ∧
    (∀ fuel s, Values h' (Some 0) collect fuel s
               = Values abc_cycle (Some 0) collect fuel s).
Proof.
  assert (Hl : linked abc_cycle) by linked_by_evaluation.
  assert (Hv1 : valid abc_cycle (Some 1))
    by (exists 1; split; [reflexivity | simpl; lia]).
  assert (Hv0 : valid abc_cycle (Some 0))
    by (exists 0; split; [reflexivity | simpl; lia]).
  split; [exact Hl|]. split; [exact Hv1|]. split; [exact Hv0|].
  exact (proj1 (insertion_unseen_in_one_direction abc_cycle (Some 1) (Some 0)
                  "X" collect collect Hl (or_intror Hv1) Hv0)).
Defined.

Section ListEdge.
Context {T : Type}.
Implicit Types (h : heap T) (nd : node T) (a : nat) (v : T).

Lemma unlink_self h a nd :
  h !! a = Some nd → prev nd = Some a → next nd = Some a → unlink h a a = h.
Proof.
  intros Ha Hp Hn. apply list_eq. intros i.
  destruct (decide (i = a)) as [->|Hne].
  - by rewrite (unlink_lookup_self h a nd a a), Ha.
  - by apply unlink_lookup_ne.
Qed.

(** The loop of [seq] on a node that is its own successor and is not the
    start never ends while the consumer goes on. *)
Lemma seq_loop_stuck {St} (adv : ptr → option ptr) (list q : ptr)
    (yield : consumer St ptr) :
  adv q = Some q → q ≠ list →
  (∀ s, ∃ s', yield s q = Some (s', true)) →
  ∀ fuel s, seq_loop adv list yield fuel q s = OutOfFuel.
Proof.
  intros Hq Hne Hyield. induction fuel as [|fuel IH]; intros s; [done|].
  simpl. destruct (Hyield s) as [s' ->]. rewrite Hq. unfold ptr_eqb.
  by rewrite bool_decide_eq_false_2.
Qed.

Lemma on_Val_Some {St} h a nd (yield : consumer St T) (s : St) :
  h !! a = Some nd → on_Val h yield s (Some a) = yield s (Val nd).
Proof. intros Ha. unfold on_Val, load. simpl. by rewrite Ha. Qed.

End ListEdge.

(** X4: [Remove] on the only node of a list (a node that is its own [prev]
    and [next]) changes nothing and returns that same node, not nil: the
    returned reference is still a list of one node. *)
Theorem Remove_only_node_returns_it {T} (h : heap T) (a : nat) (nd : node T) :
  h !! a = Some nd → prev nd = Some a → next nd = Some a →
  Remove h (Some a) = Some (h, Some a) ∧
  ∀ fuel, 0 < fuel →
    All h (Some a) collect fuel [] = Done [Some a] ∧
    Values h (Some a) collect fuel [] = Done [Val nd].
Proof.
  intros Ha Hp Hn. pose proof (lookup_lt_Some _ _ _ Ha) as Hlt. split.
  - rewrite (Remove_Some h a nd a a) by done.
    by rewrite (unlink_self h a nd).
  - intros fuel Hfuel. destruct fuel as [|fuel]; [lia|].
    unfold Values, All, seq, Next, on_Val, load. simpl.
    rewrite !Ha. simpl. rewrite Hn. unfold ptr_eqb.
    by rewrite bool_decide_eq_true_2.
Qed.

(** X4 on the list that [InsertBefore] makes from nil. *)
Lemma Remove_only_node_returns_it_witness :
  Remove [mkNode (Some 0) (Some 0) "A"] (Some 0)
  = Some ([mkNode (Some 0) (Some 0) "A"], Some 0).
Proof.
  exact (proj1 (Remove_only_node_returns_it [mkNode (Some 0) (Some 0) "A"] 0
                  (mkNode (Some 0) (Some 0) "A") eq_refl eq_refl eq_refl)).
Defined.

(** X5: [Remove] of a node whose [prev] [p] and [next] [n] are allocated
    frees nothing and changes no value; it changes no node other than [p]
    and [n], of [p] at most the [next] link and of [n] at most the [prev]
    link. *)
Theorem Remove_changes_two_links {T} (h : heap T) (a p n : nat) (nd : node T) :
  h !! a = Some nd → prev nd = Some p → next nd = Some n →
  p < length h → n < length h →
  ∃ h', Remove h (Some a) = Some (h', Some p) ∧
        length h' = length h ∧
        (∀ i, value_at h' (Some i) = value_at h (Some i)) ∧
        (∀ i, i ≠ p → i ≠ n → h' !! i = h !! i) ∧
        (∀ i, i ≠ p → Next h' (Some i) = Next h (Some i)) ∧
        (∀ i, i ≠ n → Prev h' (Some i) = Prev h (Some i)).
Proof.
  intros Ha Hp Hn Hpl Hnl. exists (unlink h p n).
  split; [by eapply Remove_Some|]. split; [apply length_unlink|].
  split; [intros i; apply unlink_Val|].
  split; [intros i; apply unlink_lookup_ne|].
  split; [intros i; apply Next_unlink_ne | intros i; apply Prev_unlink_ne].
Qed.

(** X5 on the list A, B, C, removing B. *)
Lemma Remove_changes_two_links_witness :
  ∃ h', Remove abc_cycle (Some 1) = Some (h', Some 0) ∧
        length h' = 3 ∧
        (∀ i, value_at h' (Some i) = value_at abc_cycle (Some i)) ∧
        (∀ i, i ≠ 0 → i ≠ 2 → h' !! i = abc_cycle !! i) ∧
        (∀ i, i ≠ 0 → Next h' (Some i) = Next abc_cycle (Some i)) ∧
        (∀ i, i ≠ 2 → Prev h' (Some i) = Prev abc_cycle (Some i)).
Proof.
  apply (Remove_changes_two_links abc_cycle 1 0 2 (mkNode (Some 0) (Some 2) "B"));
    [reflexivity | reflexivity | reflexivity | simpl; lia | simpl; lia].
Defined.

(** X6: a traversal started at a node that [InsertBefore] has just put
    before a node that is its own [next] (the only node of a list, for one)
    never ends for a consumer that does not stop: [All] and [Values] from
    the new node leave it for the anchor and then stay there.  The same
    holds for [Backward] and [ValuesBackward] from a node that
    [InsertAfter] has put after a node that is its own [prev]. *)
Theorem traversal_from_inserted_node_diverges {T} (h : heap T) (a : nat)
    (nd : node T) (v : T) :
  h !! a = Some nd →
  (next nd = Some a →
   ∃ h', InsertBefore h (Some a) v = Some (h', Some a) ∧
         Prev h' (Some a) = Some (Some (length h)) ∧
         ∀ fuel, All h' (Some (length h)) collect fuel [] = OutOfFuel ∧
                 Values h' (Some (length h)) collect fuel [] = OutOfFuel) ∧
  (prev nd = Some a →
   ∃ h', InsertAfter h (Some a) v = Some (h', Some a) ∧
         Next h' (Some a) = Some (Some (length h)) ∧
         ∀ fuel, Backward h' (Some (length h)) collect fuel [] = OutOfFuel ∧
                 ValuesBackward h' (Some (length h)) collect fuel []
                 = OutOfFuel).
Proof.
  intros Ha. pose proof (lookup_lt_Some _ _ _ Ha) as Hlt.
  assert (Hv : valid h (Some a)) by (by apply valid_Some).
  split; intros Hself.
  - destruct (InsertBefore_frame h (Some a) v (or_intror Hv))
      as (h' & ? & Hins & -> & Hlen & (ndn & Hn & HVal & Hnn) & Hold).
    destruct (Hold a nd Ha) as (nda & Ha' & _ & Hna & _).
    exists h'. split; [done|]. split.
    { pose proof (anchor_new_prev := InsertBefore_Some h a nd v Ha).
      rewrite Hins in anchor_new_prev. injection anchor_new_prev as ->.
      apply Prev_Some_inv. eexists. split.
      - rewrite lookup_app_l by (by rewrite length_insert).
        by apply list_lookup_insert_eq.
      - done. }
    assert (Hnew : Next h' (Some (length h)) = Some (Some a))
      by (apply Next_Some_inv; by exists ndn).
    assert (Hloop : Next h' (Some a) = Some (Some a))
      by (apply Next_Some_inv; exists nda; split; [done | congruence]).
    assert (Hne : Some a ≠ Some (length h)) by (intros [=]; lia).
    intros fuel. destruct fuel as [|fuel]; [done|].
    unfold Values, All, seq. cbn [seq_loop].
    rewrite (on_Val_Some _ _ _ _ _ Hn). cbn [collect]. rewrite Hnew.
    unfold ptr_eqb. rewrite bool_decide_eq_false_2 by done. split.
    + apply seq_loop_stuck; [done | done |]. intros s. by eexists.
    + apply seq_loop_stuck; [done | done |]. intros s.
      rewrite (on_Val_Some _ _ _ _ _ Ha'). by eexists.
  - destruct (InsertAfter_frame h (Some a) v (or_intror Hv))
      as (h' & ? & Hins & -> & Hlen & (ndn & Hn & HVal & Hnn) & Hold).
    destruct (Hold a nd Ha) as (nda & Ha' & _ & Hna & _).
    exists h'. split; [done|]. split.
    { pose proof (anchor_new_next := InsertAfter_Some h a nd v Ha).
      rewrite Hins in anchor_new_next. injection anchor_new_next as ->.
      apply Next_Some_inv. eexists. split.
      - rewrite lookup_app_l by (by rewrite length_insert).
        by apply list_lookup_insert_eq.
      - done. }
    assert (Hnew : Prev h' (Some (length h)) = Some (Some a))
      by (apply Prev_Some_inv; by exists ndn).
    assert (Hloop : Prev h' (Some a) = Some (Some a))
      by (apply Prev_Some_inv; exists nda; split; [done | congruence]).
    assert (Hne : Some a ≠ Some (length h)) by (intros [=]; lia).
    intros fuel. destruct fuel as [|fuel]; [done|].
    unfold ValuesBackward, Backward, seq. cbn [seq_loop].
    rewrite (on_Val_Some _ _ _ _ _ Hn). cbn [collect]. rewrite Hnew.
    unfold ptr_eqb. rewrite bool_decide_eq_false_2 by done. split.
    + apply seq_loop_stuck; [done | done |]. intros s. by eexists.
    + apply seq_loop_stuck; [done | done |]. intros s.
      rewrite (on_Val_Some _ _ _ _ _ Ha'). by eexists.
Qed.

(** X6 on the list that [InsertBefore] makes from nil. *)
Lemma traversal_from_inserted_node_diverges_witness :
  ∃ h', InsertBefore [mkNode (Some 0) (Some 0) "A"] (Some 0) "B"
        = Some (h', Some 0) ∧
        Prev h' (Some 0) = Some (Some 1) ∧
        ∀ fuel, All h' (Some 1) collect fuel [] = OutOfFuel ∧
                Values h' (Some 1) collect fuel [] = OutOfFuel.
Proof.
  exact (proj1 (traversal_from_inserted_node_diverges
                  [mkNode (Some 0) (Some 0) "A"] 0
                  (mkNode (Some 0) (Some 0) "A") "B" eq_refl) eq_refl).
Defined.

(** * Well-formed circular lists *)

Section Ring.
Context {T : Type}.
Implicit Types (h : heap T) (l : list nat).

Lemma ring_step h l i x :
  ring h l → l !! i = Some x →
  ∃ y, l !! (S i mod length l) = Some y ∧
       Next h (Some x) = Some (Some y) ∧ Prev h (Some y) = Some (Some x).
Proof.
  intros [_ Hr] Hx. pose proof (lookup_lt_Some _ _ _ Hx) as Hlt.
  destruct (lookup_lt_is_Some_2 l (S i mod length l)) as [y Hy].
  { apply Nat.mod_upper_bound. lia. }
  exists y. split; [done|]. by apply (Hr i).
Qed.

(** Forward from the [i]-th node of a ring: the nodes up to the last one,
    whose [next] is the first and ends the round. *)
Lemma ring_forward h l first :
  ring h l → l !! 0 = Some first →
  ∀ m i x (s : list ptr) fuel,
    i + m = length l → 0 < m → m ≤ fuel → l !! i = Some x →
    seq_loop (Next h) (Some first) collect fuel (Some x) s
    = Done (s ++ (Some <$> drop i l)).
Proof.
  intros Hring Hfirst. pose proof Hring as [Hnd _].
  induction m as [|m IH]; intros i x s fuel Hi Hm Hfuel Hx; [lia|].
  destruct fuel as [|fuel]; [lia|].
  destruct (ring_step h l i x Hring Hx) as (y & Hy & Hnext & _).
  rewrite (drop_S _ _ _ Hx). cbn [seq_loop collect]. rewrite Hnext.
  unfold ptr_eqb. destruct (decide (S i = length l)) as [Hlast|Hmore].
  - rewrite Hlast, Nat.Div0.mod_same in Hy.
    assert (y = first) as -> by congruence.
    rewrite bool_decide_eq_true_2 by done.
    by rewrite drop_ge by lia.
  - rewrite Nat.mod_small in Hy by lia.
    rewrite bool_decide_eq_false_2.
    + rewrite (IH (S i) y) by (done || lia).
      rewrite <- app_assoc. done.
    + intros [= ->]. pose proof (NoDup_lookup _ _ _ _ Hnd Hy Hfirst). lia.
Qed.

(** Backward from the [i]-th node of a ring, the start being the last
    node: the nodes down to the first one, whose [prev] is the last. *)
Lemma ring_backward h l lst :
  ring h l → l !! pred (length l) = Some lst →
  ∀ i x (s : list ptr) fuel,
    S i ≤ fuel → l !! i = Some x →
    seq_loop (Prev h) (Some lst) collect fuel (Some x) s
    = Done (s ++ (Some <$> rev (take (S i) l))).
Proof.
  intros Hring Hlst. pose proof Hring as [Hnd _].
  pose proof (lookup_lt_Some _ _ _ Hlst) as Hpos.
  induction i as [|i IH]; intros x s fuel Hfuel Hx;
    (destruct fuel as [|fuel]; [lia|]);
    pose proof (lookup_lt_Some _ _ _ Hx) as Hlt;
    rewrite (take_S_r _ _ _ Hx), rev_unit; cbn [seq_loop collect].
  - destruct (ring_step h l _ lst Hring Hlst) as (y & Hy & _ & Hprev).
    replace (S (pred (length l))) with (length l) in Hy by lia.
    rewrite Nat.Div0.mod_same in Hy. assert (y = x) as -> by congruence.
    rewrite Hprev. unfold ptr_eqb. by rewrite bool_decide_eq_true_2.
  - destruct (lookup_lt_is_Some_2 l i) as [w Hw]; [lia|].
    destruct (ring_step h l i w Hring Hw) as (y & Hy & _ & Hprev).
    rewrite Nat.mod_small in Hy by lia. assert (y = x) as -> by congruence.
    rewrite Hprev. unfold ptr_eqb. rewrite bool_decide_eq_false_2.
    + rewrite (IH w) by (done || lia). rewrite <- app_assoc. done.
    + intros [= ->]. pose proof (NoDup_lookup _ _ _ _ Hnd Hw Hlst). lia.
Qed.

Lemma ring_All h l x l' fuel :
  ring h l → l = x :: l' → length l ≤ fuel →
  All h (Some x) collect fuel [] = Done (Some <$> l).
Proof.
  intros Hring -> Hfuel. unfold All, seq.
  rewrite (ring_forward h (x :: l') x Hring eq_refl (length (x :: l')) 0 x);
    simpl in *; done || lia.
Qed.

Lemma ring_Backward h l lst fuel :
  ring h l → l !! pred (length l) = Some lst → length l ≤ fuel →
  Backward h (Some lst) collect fuel [] = Done (Some <$> rev l).
Proof.
  intros Hring Hlst Hfuel. pose proof (lookup_lt_Some _ _ _ Hlst).
  unfold Backward, seq.
  rewrite (ring_backward h l lst Hring Hlst (pred (length l)) lst)
    by (done || lia).
  replace (S (pred (length l))) with (length l) by lia.
  by rewrite firstn_all.
Qed.

(** Removing the first node of a ring of two or more nodes leaves the ring
    of the others. *)
Lemma ring_Remove_first h a n rest :
  ring h (a :: n :: rest) →
  ∃ h' p, Remove h (Some a) = Some (h', Some p) ∧
          (n :: rest) !! length rest = Some p ∧
          ring h' (n :: rest).
Proof.
  intros Hring. pose proof Hring as [Hnd Hr].
  set (l := a :: n :: rest) in *.
  assert (Hlen : length l = S (S (length rest))) by done.
  destruct (lookup_lt_is_Some_2 l (S (length rest))) as [p Hp]; [lia|].
  (* the neighbours of [a] *)
  destruct (ring_step h l 0 a Hring eq_refl) as (n' & Hn' & Hnext_a & Hprev_n).
  rewrite Nat.mod_small in Hn' by lia. injection Hn' as <-.
  destruct (ring_step h l _ p Hring Hp) as (a' & Ha' & Hnext_p & Hprev_a).
  rewrite <- Hlen, Nat.Div0.mod_same in Ha'. injection Ha' as <-.
  apply Next_Some_inv in Hnext_a as (nd & Ha & Hnext).
  apply Prev_Some_inv in Hprev_a as (nd' & Ha2 & Hprev).
  assert (nd' = nd) as -> by congruence.
  apply Next_Some_inv in Hnext_p as (ndp & Hndp & _).
  apply Prev_Some_inv in Hprev_n as (ndn & Hndn & _).
  pose proof (lookup_lt_Some _ _ _ Hndp) as Hpl.
  pose proof (lookup_lt_Some _ _ _ Hndn) as Hnl.
  exists (unlink h p n), p. split; [by eapply Remove_Some|]. split; [done|].
  split; [by apply NoDup_cons in Hnd as [_ ?]|].
  intros i x y Hx Hy. pose proof (lookup_lt_Some _ _ _ Hx) as Hi.
  simpl in Hi.
  destruct (decide (S i = S (length rest))) as [Hlast|Hmore].
  - (* the last of the others and their first: the two new links *)
    assert (Hmod : S i mod length (n :: rest) = 0).
    { change (length (n :: rest)) with (S (length rest)).
      rewrite <- Hlast. apply Nat.Div0.mod_same. }
    rewrite Hmod in Hy. injection Hy as <-.
    assert (x = p) as ->.
    { change ((n :: rest) !! i) with (l !! S i) in Hx. congruence. }
    split; [by apply Next_unlink_eq | by apply Prev_unlink_eq].
  - (* two neighbours among the others: their links are the old ones *)
    rewrite Nat.mod_small in Hy by (simpl; lia).
    change ((n :: rest) !! i) with (l !! S i) in Hx.
    change ((n :: rest) !! S i) with (l !! S (S i)) in Hy.
    destruct (ring_step h l (S i) x Hring Hx) as (y' & Hy' & Hnext_x & Hprev_y).
    rewrite Nat.mod_small in Hy' by lia. assert (y' = y) as -> by congruence.
    rewrite Next_unlink_ne, Prev_unlink_ne; [done | |].
    + intros ->. assert (Hn1 : l !! 1 = Some n) by done.
      pose proof (NoDup_lookup _ _ _ _ Hnd Hy Hn1). lia.
    + intros ->. pose proof (NoDup_lookup _ _ _ _ Hnd Hx Hp). lia.
Qed.

Lemma rotated_lookup (l1 l2 : list nat) i :
  i < length (l2 ++ l1) →
  (l2 ++ l1) !! i = (l1 ++ l2) !! ((i + length l1) mod length (l1 ++ l2)).
Proof.
  rewrite !length_app. intros Hi.
  destruct (decide (i < length l2)) as [Hlt|Hge].
  - rewrite Nat.mod_small by lia.
    rewrite lookup_app_l by done. rewrite lookup_app_r by lia.
    f_equal. lia.
  - replace (i + length l1)
      with ((i - length l2) + 1 * (length l1 + length l2)) by lia.
    rewrite Nat.Div0.mod_add, Nat.mod_small by lia.
    rewrite lookup_app_r by lia. by rewrite lookup_app_l by lia.
Qed.

(** A ring can be read from any of its nodes. *)
Lemma ring_rotate h (l1 l2 : list nat) : ring h (l1 ++ l2) → ring h (l2 ++ l1).
Proof.
  intros [Hnd Hr]. split.
  - by rewrite (comm (++)).
  - intros i x y Hx Hy. pose proof (lookup_lt_Some _ _ _ Hx) as Hi.
    assert (Hlen : length (l2 ++ l1) = length (l1 ++ l2))
      by (rewrite !length_app; lia).
    rewrite rotated_lookup in Hx by done.
    rewrite rotated_lookup in Hy by (apply Nat.mod_upper_bound; lia).
    rewrite Hlen in Hy.
    rewrite Nat.Div0.add_mod_idemp_l in Hy.
    replace (S i + length l1) with (1 + (i + length l1)) in Hy by lia.
    rewrite <- Nat.Div0.add_mod_idemp_r in Hy.
    by apply (Hr ((i + length l1) mod length (l1 ++ l2))).
Qed.

End Ring.

(** X7: on a well-formed circular list of two or more nodes (every node's
    [next] and [prev] on its two neighbours), [Remove] of any node returns
    the node before it and leaves the well-formed circular list of the
    other nodes, in their order: [All] from the node after the removed one
    yields the others in that order, and [Backward] from the returned node
    yields them in the reverse order. *)
Theorem Remove_from_ring {T} (h : heap T) (pre suf : list nat) (a n : nat)
    (rest : list nat) :
  ring h (pre ++ a :: suf) → suf ++ pre = n :: rest →
  ∃ h' p, Remove h (Some a) = Some (h', Some p) ∧
          last (n :: rest) = Some p ∧
          ring h' (pre ++ suf) ∧
          ∀ fuel, S (length rest) ≤ fuel →
            All h' (Some n) collect fuel [] = Done (Some <$> n :: rest) ∧
            Backward h' (Some p) collect fuel []
            = Done (Some <$> rev (n :: rest)).
Proof.
  intros Hring Hothers.
  apply (ring_rotate h pre (a :: suf)) in Hring.
  simpl in Hring. rewrite Hothers in Hring.
  destruct (ring_Remove_first h a n rest Hring) as (h' & p & Hrem & Hp & Hring').
  exists h', p. split; [done|]. split.
  { rewrite last_lookup. done. }
  split.
  { rewrite <- Hothers in Hring'. by apply ring_rotate. }
  intros fuel Hfuel. split.
  - by apply (ring_All h' (n :: rest) n rest).
  - by apply (ring_Backward h' (n :: rest) p).
Qed.

(** X7 on the list A, B, C: removing B leaves A, C, read from C. *)
Lemma Remove_from_ring_witness :
  ring abc_cycle [0; 1; 2] ∧
  ∃ h' p, Remove abc_cycle (Some 1) = Some (h', Some p) ∧
          last [2; 0] = Some p ∧
          ring h' [0; 2] ∧
          ∀ fuel, 2 ≤ fuel →
            All h' (Some 2) collect fuel [] = Done [Some 2; Some 0] ∧
            Backward h' (Some p) collect fuel [] = Done [Some 0; Some 2].
Proof.
  assert (Hring : ring abc_cycle [0; 1; 2]).
  { split; [refine (bool_decide_unpack (NoDup [0; 1; 2]) _); vm_compute; exact I|].
    intros i x y Hx Hy. do 3 (try destruct i as [|i]); simpl in *;
      first [ discriminate Hx
            | injection Hx as <-; injection Hy as <-; split; reflexivity ]. }
  split; [exact Hring|].
  exact (Remove_from_ring abc_cycle [0] [2] 1 2 [0] Hring eq_refl).
Defined.

(** In the loop of [InsertSeqAfter] a non-nil [list] is only carried along
    and returned. *)
Lemma InsertSeqAfter_loop_list {T} (vs : list T) :
  ∀ (h : heap T) (tail : ptr) (a b : nat),
    InsertSeqAfter_loop h (Some a) tail vs
    = (λ r, (fst r, Some a)) <$> InsertSeqAfter_loop h (Some b) tail vs.
Proof.
  induction vs as [|v vs IH]; intros h tail a b; [done|].
  cbn [InsertSeqAfter_loop].
  destruct (InsertAfter h tail v) as [[h1 r]|]; cbn [mbind option_bind];
    [|done].
  destruct (Next h1 r) as [tail'|]; cbn [mbind option_bind]; [|done].
  apply IH.
Qed.

(** X8: bulk insertion after a node is chained insertion.  On a reference
    that is nil or allocated, [InsertSeqAfter] of one value is
    [InsertAfter]; and [InsertSeqAfter] of [v] and then [vs] inserts [v]
    after the reference, inserts [vs] after the node just made for [v], and
    returns what the [InsertAfter] of [v] returned. *)
Theorem InsertSeqAfter_chains_InsertAfter {T} (h : heap T) (l : ptr)
    (v : T) (vs : list T) :
  l = None ∨ valid h l →
  InsertSeqAfter h l [v] = InsertAfter h l v ∧
  InsertSeqAfter h l (v :: vs)
  = ('(h1, r) ← InsertAfter h l v;
     '(h2, _) ← InsertSeqAfter h1 (Some (length h)) vs;
     Some (h2, r)).
Proof.
  intros Hl.
  destruct (InsertAfter_frame h l v Hl)
    as (h' & l' & Hins & Hl' & Hlen & (ndn & Hn & _ & Hprev) & Hold).
  assert (Hnext : Next h' l' = Some (Some (length h)) ∧
                  l' = match l with None => Some (length h) | Some _ => l end).
  { split; [|done]. destruct Hl as [->|Hv].
    - subst l'. rewrite InsertAfter_nil in Hins. injection Hins as <-.
      unfold Next, load. simpl. by rewrite lookup_fresh.
    - destruct (valid_lookup _ _ Hv) as (a & nd & -> & Ha). subst l'.
      rewrite (InsertAfter_Some h a nd v Ha) in Hins. injection Hins as <-.
      pose proof (lookup_lt_Some _ _ _ Ha) as Hlt.
      unfold Next, load. simpl.
      rewrite lookup_app_l by (by rewrite length_insert).
      by rewrite list_lookup_insert_eq. }
  destruct Hnext as [Hnext Hl'']. unfold InsertSeqAfter.
  cbn [InsertSeqAfter_loop]. rewrite Hins. cbn [mbind option_bind].
  rewrite Hnext. cbn [mbind option_bind]. split.
  - destruct l; by subst l'.
  - destruct l as [a|]; subst l'.
    + rewrite (InsertSeqAfter_loop_list vs h' _ a (length h)).
      by destruct (InsertSeqAfter_loop h' (Some (length h))
                     (Some (length h)) vs) as [[h2 q]|].
    + rewrite (InsertSeqAfter_loop_list vs h' _ (length h) (length h)) at 1.
      by destruct (InsertSeqAfter_loop h' (Some (length h))
                     (Some (length h)) vs) as [[h2 q]|].
Qed.

(** X8 on the list A, B, C with the reference B. *)
Lemma InsertSeqAfter_chains_InsertAfter_witness :
  valid abc_cycle (Some 1) ∧
  InsertSeqAfter abc_cycle (Some 1) ["X"; "Y"]
  = ('(h1, r) ← InsertAfter abc_cycle (Some 1) "X";
     '(h2, _) ← InsertSeqAfter h1 (Some (length abc_cycle)) ["Y"];
     Some (h2, r)).
Proof.
  assert (Hv : valid abc_cycle (Some 1))
    by (exists 1; split; [reflexivity | simpl; lia]).
  split; [exact Hv|].
  exact (proj2 (InsertSeqAfter_chains_InsertAfter abc_cycle (Some 1)
                  "X" ["Y"] (or_intror Hv))).
Defined.

Section ValuesOfNodes.
Context {T : Type}.
Implicit Types (h : heap T).

Lemma seq_loop_values_of_nodes h (adv : ptr → option ptr) (list : ptr) :
  (∀ q, valid h q → ∃ q', adv q = Some q' ∧ valid h q') →
  ∀ fuel cur (sn : Datatypes.list ptr) (sv : Datatypes.list T),
    valid h cur →
    Forall2 (λ p v, value_at h p = Some v) sn sv →
    values_of_nodes h (seq_loop adv list collect fuel cur sn)
                      (seq_loop adv list (on_Val h collect) fuel cur sv).
Proof.
  intros Hadv. induction fuel as [|fuel IH]; intros cur sn sv Hcur Hs; [done|].
  destruct (valid_lookup _ _ Hcur) as (a & nd & -> & Ha).
  destruct (Hadv _ Hcur) as (q' & Hq' & Hvq').
  cbn [seq_loop]. rewrite (on_Val_Some _ _ _ _ _ Ha). cbn [collect].
  rewrite Hq'.
  assert (Hs' : Forall2 (λ p v, value_at h p = Some v)
                  (sn ++ [Some a]) (sv ++ [Val nd])).
  { apply Forall2_app; [done|]. constructor; [|done].
    unfold value_at, load. simpl. by rewrite Ha. }
  destruct (ptr_eqb q' list); [done|]. by apply IH.
Qed.

End ValuesOfNodes.

(** X9: on a heap with allocated links, [Values] yields exactly the values
    of the nodes [All] yields, one by one, and [ValuesBackward] those of
    the nodes [Backward] yields; neither run panics, and the one runs out
    of fuel exactly when the other does. *)
Theorem Values_are_values_of_All {T} (h : heap T) (l : ptr) (fuel : nat) :
  linked h → l = None ∨ valid h l →
  values_of_nodes h (All h l collect fuel []) (Values h l collect fuel []) ∧
  values_of_nodes h (Backward h l collect fuel [])
                    (ValuesBackward h l collect fuel []).
Proof.
  intros Hl [->|Hv]; [by split; constructor|].
  pose proof Hv as (a & -> & Ha).
  unfold Values, ValuesBackward, All, Backward, seq. split.
  - apply seq_loop_values_of_nodes; [|done|constructor].
    intros q Hq. destruct (valid_lookup _ _ Hq) as (i & nd & -> & Hi).
    exists (next nd). split; [apply Next_Some_inv; by exists nd|].
    by apply (Hl i nd).
  - apply seq_loop_values_of_nodes; [|done|constructor].
    intros q Hq. destruct (valid_lookup _ _ Hq) as (i & nd & -> & Hi).
    exists (prev nd). split; [apply Prev_Some_inv; by exists nd|].
    by apply (Hl i nd).
Qed.

(** X9 on the list A, B, C, from B. *)
Lemma Values_are_values_of_All_witness :
  linked abc_cycle ∧ valid abc_cycle (Some 1) ∧
  values_of_nodes abc_cycle (All abc_cycle (Some 1) collect 3 [])
                            (Values abc_cycle (Some 1) collect 3 []).
Proof.
  assert (Hl : linked abc_cycle) by linked_by_evaluation.
  assert (Hv : valid abc_cycle (Some 1))
    by (exists 1; split; [reflexivity | simpl; lia]).
  split; [exact Hl|]. split; [exact Hv|].
  exact (proj1 (Values_are_values_of_All abc_cycle (Some 1) 3 Hl (or_intror Hv))).
Defined.

(** * Further properties of the ordered map *)

Section MapMore.
Context `{Countable K} {V : Type} `{ZeroValue V}.
Implicit Types (st : OM.state K V) (om : OM.OrderedMap K) (k : K) (v : V)
  (mdl : gmap K V) (fk : option K).

Lemma represents_index_Some st mdl k p :
  represents st mdl → OM.index (snd st) k = Some p →
  ∃ v a nd, mdl !! k = Some v ∧ p = Some a ∧ fst st !! a = Some nd ∧
            Val nd = OM.enter k v.
Proof.
  intros Hrep Hk. specialize (Hrep k). destruct (mdl !! k) as [v|].
  - destruct Hrep as (a & nd & Hi & Ha & HV). exists v, a, nd.
    repeat (split; [done|]). split; [congruence | done].
  - congruence.
Qed.

Lemma represents_index_None st mdl k :
  represents st mdl → OM.index (snd st) k = None → mdl !! k = None.
Proof.
  intros Hrep Hk. specialize (Hrep k). destruct (mdl !! k) as [v|]; [|done].
  destruct Hrep as (a & nd & Hi & _). congruence.
Qed.

Lemma Next_insert_same_next (h : heap (OM.entry K V)) a nd nd' q :
  h !! a = Some nd → next nd' = next nd →
  Next (<[a := nd']> h) q = Next h q.
Proof.
  intros Ha Hn. destruct q as [i|]; [|done].
  pose proof (lookup_lt_Some _ _ _ Ha).
  unfold Next, load. simpl. destruct (decide (i = a)) as [->|Hne].
  - rewrite list_lookup_insert_eq, Ha by done. simpl. by rewrite Hn.
  - by rewrite list_lookup_insert_ne.
Qed.

Lemma Set_inv st mdl fk k v :
  map_inv st mdl fk →
  ∃ st', OM.Set_ k v st = Some st' ∧
         map_inv st' (<[k := v]> mdl)
                 (match fk with None => Some k | Some _ => fk end).
Proof.
  intros (Hwf & Hrep & Hhead).
  destruct (Set_wf st k v Hwf) as (st' & HSet & Hwf' & _).
  exists st'. split; [done|]. split; [done|].
  destruct st as [h om]. pose proof Hwf as (Hl & Hh & Hi). simpl in *.
  unfold OM.Set_ in HSet. rewrite index_init in HSet.
  destruct (OM.index om k) as [p|] eqn:Hk.
  - (* the key is there: its node gets the value *)
    destruct (represents_index_Some _ _ _ _ Hrep Hk)
      as (v0 & a & nd & Hm & -> & Ha & HV). simpl in Ha.
    pose proof (lookup_lt_Some _ _ _ Ha) as Hlt.
    unfold load, store in HSet. simpl in HSet. rewrite Ha in HSet.
    simpl in HSet. injection HSet as <-.
    assert (Hnew : OM.set_val (Val nd) v = OM.enter k v) by (by rewrite HV).
    split.
    + intros k'. destruct (decide (k' = k)) as [->|Hne].
      * rewrite lookup_insert_eq. eexists a, _. simpl.
        rewrite index_init. split; [done|].
        rewrite list_lookup_insert_eq by done. split; [done|]. done.
      * rewrite lookup_insert_ne by done. specialize (Hrep k').
        destruct (mdl !! k') as [v'|]; simpl in *; rewrite index_init; [|done].
        destruct Hrep as (a' & nd' & Hi' & Ha' & HV').
        exists a', nd'. split; [done|]. split; [|done].
        rewrite list_lookup_insert_ne; [done|]. intros ->.
        assert (nd' = nd) as -> by congruence.
        rewrite HV in HV'. by injection HV'.
    + destruct fk as [k0|]; simpl in *.
      * destruct Hhead as (a0 & nd0 & Hh0 & Ha0 & Hn0 & Hk0 & Hidx).
        destruct (decide (a0 = a)) as [->|Hne].
        -- eexists a, _. rewrite head_init. split; [done|]. simpl.
           rewrite list_lookup_insert_eq by done. split; [done|].
           assert (nd0 = nd) as -> by congruence. simpl.
           split; [done|]. split; [done|].
           intros k' p Hp. rewrite index_init in Hp.
           rewrite (Next_insert_same_next _ _ nd) by done. by apply (Hidx k').
        -- exists a0, nd0. rewrite head_init. split; [done|]. simpl.
           rewrite list_lookup_insert_ne by done. repeat (split; [done|]).
           intros k' p Hp. rewrite index_init in Hp.
           rewrite (Next_insert_same_next _ _ nd) by done. by apply (Hidx k').
      * destruct Hhead as [_ Hnone]. by rewrite Hnone in Hk.
  - (* the key is new: a node is inserted before the head *)
    rewrite head_init in HSet.
    destruct (linked_InsertBefore h (OM.head om) (OM.enter k v) Hl Hh)
      as (h' & l' & Hins & _ & _ & _ & Hprev & _).
    destruct (InsertBefore_frame h (OM.head om) (OM.enter k v) Hh)
      as (h'' & l'' & Hins' & Hl' & Hlen & (ndn & Hn & HVn & Hnn) & Hold).
    rewrite Hins in Hins'. injection Hins' as <- <-.
    rewrite Hins in HSet. simpl in HSet. rewrite Hprev in HSet. simpl in HSet.
    destruct (m_init om) as (mm & Hmm & Hmmk). rewrite Hmm in HSet.
    simpl in HSet. injection HSet as <-.
    split.
    + intros k'. unfold OM.index. simpl.
      destruct (decide (k' = k)) as [->|Hne].
      * rewrite !lookup_insert_eq. by exists (length h), ndn.
      * rewrite !lookup_insert_ne by done. rewrite Hmmk.
        specialize (Hrep k'). destruct (mdl !! k') as [v'|]; [|done].
        destruct Hrep as (a' & nd' & Hi' & Ha' & HV'). simpl in *.
        destruct (Hold a' nd' Ha') as (nd'' & Ha'' & HV'' & _).
        exists a', nd''. split; [done|]. split; [done|]. congruence.
    + assert (Hidx_new : ∀ a0, l' = Some a0 →
                (∀ k' p, OM.index om k' = Some p → Next h p = Some (Some a0)) →
                ∀ k' p, (<[k := Some (length h)]> mm) !! k' = Some p →
                        Next h' p = Some (Some a0)).
      { intros a0 Hl0 Hidx k' p Hp.
        apply lookup_insert_Some in Hp as [[_ <-]|[_ Hp]].
        - apply Next_Some_inv. exists ndn. split; [done | congruence].
        - rewrite Hmmk in Hp. specialize (Hidx k' p Hp).
          destruct p as [i|]; [|done].
          apply Next_Some_inv in Hidx as (ndi & Hi' & Hni).
          destruct (Hold i ndi Hi') as (ndi' & Hi'' & _ & Hni' & _).
          apply Next_Some_inv. exists ndi'. split; [done | congruence]. }
      destruct fk as [k0|]; simpl in *.
      * destruct Hhead as (a0 & nd0 & Hh0 & Ha0 & Hn0 & Hk0 & Hidx).
        rewrite Hh0 in Hl'. subst l'.
        destruct (Hold a0 nd0 Ha0) as (nd0' & Ha0' & HV0 & Hn0' & _).
        exists a0, nd0'. split; [done|]. split; [done|].
        split; [congruence|]. split; [congruence|].
        by apply Hidx_new.
      * destruct Hhead as [Hh0 Hnone]. rewrite Hh0 in Hl'. subst l'.
        exists (length h), ndn. split; [done|]. split; [done|].
        split; [done|]. split; [by rewrite HVn|].
        apply Hidx_new; [done|]. intros k' p Hp. by rewrite Hnone in Hp.
Qed.

End MapMore.

Section MapSteps.
Context `{Countable K} {V : Type} `{ZeroValue V}.
Implicit Types (st : OM.state K V) (om : OM.OrderedMap K) (k : K) (v : V)
  (mdl : gmap K V) (fk : option K).

Lemma Delete_inv st mdl fk k :
  map_inv st mdl fk →
  ∃ st', OM.Delete k st = Some st' ∧ map_inv st' (delete k mdl) fk.
Proof.
  intros (Hwf & Hrep & Hhead).
  destruct (Delete_wf st k Hwf) as (st' & HDel & Hwf' & _).
  exists st'. split; [done|]. split; [done|].
  destruct st as [h om]. pose proof Hwf as (Hl & Hh & Hi). simpl in *.
  unfold OM.Delete in HDel.
  destruct (OM.index om k) as [p|] eqn:Hk.
  - destruct (represents_index_Some _ _ _ _ Hrep Hk)
      as (v0 & a & nd & Hm & -> & Ha & HV). simpl in Ha.
    destruct (Hl a nd Ha) as [(p0 & Hp0 & Hp0l) (n0 & Hn0 & Hn0l)].
    rewrite (Remove_Some h a nd p0 n0) in HDel by done.
    cbn [mbind option_bind] in HDel.
    assert (Hm_some : ∃ mm, OM.m om = Some mm ∧ ∀ k', OM.index om k' = mm !! k').
    { unfold OM.index in *. destruct (OM.m om) as [mm|]; [|done].
      by exists mm. }
    destruct Hm_some as (mm & Hmm & Hmmk).
    destruct fk as [k0|]; simpl in Hhead.
    + destruct Hhead as (a0 & nd0 & Hh0 & Ha0 & Hnx0 & Hk0 & Hidx).
      (* the removed node's [next] is the head *)
      pose proof (Hidx k _ Hk) as Hna.
      apply Next_Some_inv in Hna as (nd' & Ha' & Hna).
      assert (nd' = nd) as -> by congruence.
      assert (n0 = a0) as -> by congruence.
      assert (Hkeep : ∀ q, Next h q = Some (Some a0) →
                Next (unlink h p0 a0) q = Some (Some a0)).
      { intros [i|] Hq; [|done]. destruct (decide (i = p0)) as [->|Hne].
        - by apply Next_unlink_eq.
        - by rewrite Next_unlink_ne. }
      assert (Hhead' : (if ptr_eqb (Some a) (OM.head om)
                        then Next (unlink h p0 a0) (Some p0)
                        else Some (OM.head om)) = Some (Some a0)).
      { destruct (ptr_eqb (Some a) (OM.head om));
          [by apply Next_unlink_eq | by rewrite Hh0]. }
      rewrite Hhead' in HDel. simpl in HDel. injection HDel as <-.
      rewrite Hmm. simpl. split.
      * intros k'. unfold OM.index. simpl.
        destruct (decide (k' = k)) as [->|Hne].
        -- by rewrite !lookup_delete_eq.
        -- rewrite !lookup_delete_ne by done. rewrite <- Hmmk.
           specialize (Hrep k'). destruct (mdl !! k') as [v'|]; [|done].
           destruct Hrep as (a' & nd' & Hi' & Ha'' & HV'). simpl in *.
           pose proof (unlink_Val h p0 a0 a') as HVal. rewrite Ha'' in HVal.
           simpl in HVal. apply fmap_Some in HVal as (nd'' & Hnd'' & HVal).
           exists a', nd''. split; [done|]. split; [done|]. congruence.
      * assert (Hn0' : Next (unlink h p0 a0) (Some a0) = Some (Some a0)).
        { apply Hkeep, Next_Some_inv. by exists nd0. }
        apply Next_Some_inv in Hn0' as (nd0' & Ha0' & Hnx0').
        exists a0, nd0'. split; [done|]. split; [done|]. split; [done|].
        split.
        -- pose proof (unlink_Val h p0 a0 a0) as HVal.
           rewrite Ha0, Ha0' in HVal. simpl in HVal. congruence.
        -- intros k' p. unfold OM.index. simpl. intros Hp.
           apply lookup_delete_Some in Hp as [_ Hp].
           apply Hkeep, (Hidx k'). by rewrite Hmmk.
    + destruct Hhead as [_ Hnone]. by rewrite Hnone in Hk.
  - injection HDel as <-. simpl.
    pose proof (represents_index_None _ _ _ Hrep Hk) as Hm.
    split; [|done]. intros k'. destruct (decide (k' = k)) as [->|Hne].
    + by rewrite lookup_delete_eq.
    + rewrite lookup_delete_ne by done. apply Hrep.
Qed.

Lemma Clear_inv st mdl fk :
  map_inv st mdl fk → ∃ st', OM.Clear st = Some st' ∧ map_inv st' ∅ None.
Proof.
  intros (Hwf & _ & _).
  destruct (Clear_wf st Hwf) as (st' & HClear & Hwf').
  exists st'. split; [done|]. split; [done|].
  destruct st as [h om]. unfold OM.Clear in HClear. injection HClear as <-.
  assert (Hnone : ∀ k, OM.index
            {| OM.m := (λ _ : gmap K ptr, ∅) <$> OM.m om; OM.head := None |} k
            = None).
  { intros k. unfold OM.index. simpl.
    destruct (OM.m om); simpl; [by rewrite lookup_empty | done]. }
  split.
  - intros k. rewrite lookup_empty. apply Hnone.
  - split; [done | apply Hnone].
Qed.

Lemma empty_inv : map_inv (OM.empty : OM.state K V) ∅ None.
Proof.
  split; [apply empty_wf|]. split.
  - intros k. by rewrite lookup_empty.
  - by split.
Qed.

Lemma run_op_inv (o : OM.op K V) st mdl fk :
  map_inv st mdl fk →
  ∃ st', OM.run_op o st = Some st' ∧
         map_inv st' (model_step o mdl) (first_key_step o fk).
Proof.
  intros Hinv. destruct o as [k v|k|]; simpl.
  - by apply Set_inv.
  - by apply Delete_inv.
  - by eapply Clear_inv.
Qed.

Lemma run_inv (ops : list (OM.op K V)) : ∀ st mdl fk,
  map_inv st mdl fk →
  ∃ st', OM.run ops st = Some st' ∧
         map_inv st' (model_of ops mdl) (first_key ops fk).
Proof.
  induction ops as [|o ops IH]; intros st mdl fk Hinv; [by exists st|].
  destruct (run_op_inv o st mdl fk Hinv) as (st1 & Hstep & Hinv1).
  destruct (IH _ _ _ Hinv1) as (st' & Hrun & Hinv').
  exists st'. simpl. rewrite Hstep. simpl. done.
Qed.

Lemma Keys_head_fixed st fk fuel :
  head_fixed st fk → 0 < fuel →
  OM.Keys st collect fuel [] = Done (option_list fk).
Proof.
  intros Hhead Hfuel. destruct st as [h om].
  unfold OM.Keys, OM.All, LinkedList.Values, All, seq. simpl in *.
  destruct fk as [k0|]; simpl in Hhead.
  - destruct Hhead as (a & nd & -> & Ha & Hn & Hk & _).
    destruct fuel as [|fuel]; [lia|]. cbn [seq_loop].
    rewrite (on_Val_Some _ _ _ _ _ Ha). cbn [collect fst].
    assert (Hnext : Next h (Some a) = Some (Some a))
      by (apply Next_Some_inv; by exists nd).
    rewrite Hnext. unfold ptr_eqb. rewrite bool_decide_eq_true_2 by done.
    by rewrite Hk.
  - destruct Hhead as [-> _]. done.
Qed.

End MapSteps.

(** X12: what iteration yields.  After any sequence of [Set], [Delete] and
    [Clear] calls on the zero-value map, [Keys()] yields the key of the
    first [Set] since the last [Clear] and nothing else, whatever was set
    or deleted after it: the head never moves off that node, and the node
    stays its own [next].  Without such a [Set], [Keys()] yields
    nothing. *)
Theorem Keys_yields_first_key_only `{Countable K} {V : Type} `{ZeroValue V}
    (ops : list (OM.op K V)) :
  ∃ st, OM.run ops OM.empty = Some st ∧
        ∀ fuel, 0 < fuel →
          OM.Keys st collect fuel [] = Done (option_list (first_key ops None)).
Proof.
  destruct (run_inv ops _ _ _ empty_inv) as (st & Hrun & _ & _ & Hhead).
  exists st. split; [done|]. intros fuel Hfuel. by apply Keys_head_fixed.
Qed.

Section MapIteration.
Context {T A B : Type}.

(** Collecting [f (g e)] for the entries [e] met is collecting [g e] and
    mapping [f] over the result. *)
Lemma seq_loop_collect_fmap (h : heap T) (adv : ptr → option ptr) (list : ptr)
    (g : T → A) (f : A → B) :
  ∀ fuel cur (s : Datatypes.list A),
    seq_loop adv list (on_Val h (λ s e, collect s (f (g e)))) fuel cur (f <$> s)
    = outcome_map (fmap f)
        (seq_loop adv list (on_Val h (λ s e, collect s (g e))) fuel cur s).
Proof.
  induction fuel as [|fuel IH]; intros cur s; [done|].
  cbn [seq_loop]. unfold on_Val at 1 3.
  destruct (load h cur) as [nd|]; simpl; [|done].
  destruct (adv cur) as [q|]; simpl; [|done].
  destruct (ptr_eqb q list); simpl.
  - by rewrite fmap_app.
  - rewrite <- IH. by rewrite fmap_app.
Qed.

End MapIteration.

(** X13: [Keys] yields the keys and [Values] the values of the pairs [All]
    yields, in the same order, and [All] yields the key and the value of
    the entries that the list's [Values] yields from the head; this holds
    for every state and every amount of fuel, also when the run panics or
    does not end. *)
Theorem Keys_and_Values_project_All `{Countable K} {V : Type}
    (st : OM.state K V) (fuel : nat) :
  OM.Keys st collect fuel [] = outcome_map (fmap fst) (OM.All st collect fuel []) ∧
  OM.Values st collect fuel [] = outcome_map (fmap snd) (OM.All st collect fuel []) ∧
  OM.All st collect fuel []
  = outcome_map (fmap (λ e, (OM.key e, OM.val e)))
      (LinkedList.Values (fst st) (OM.head (snd st)) collect fuel []).
Proof.
  destruct st as [h om].
  unfold OM.Keys, OM.Values, OM.All, LinkedList.Values, All, seq. simpl.
  destruct (OM.head om) as [a|]; [|done].
  split; [|split].
  - apply (seq_loop_collect_fmap h (Next h) (Some a)
             (λ e, (OM.key e, OM.val e)) fst fuel (Some a) []).
  - apply (seq_loop_collect_fmap h (Next h) (Some a)
             (λ e, (OM.key e, OM.val e)) snd fuel (Some a) []).
  - apply (seq_loop_collect_fmap h (Next h) (Some a)
             (λ e, e) (λ e, (OM.key e, OM.val e)) fuel (Some a) []).
Qed.


(** * Go's built-in map *)

Section GoMapFacts.
Context {K : Type} `{Comparable K} {X : Type}.
Implicit Types (m : list (K * X)) (k : K) (x : X).

Lemma get_Some_elem m k x :
  GoMap.get m k = Some x → ∃ ke, (ke, x) ∈ m ∧ go_eq ke k = true.
Proof.
  induction m as [|[k0 x0] m IH]; simpl; [done|].
  destruct (go_eq k0 k) eqn:E.
  - intros [= <-]. exists k0. split; [left | done].
  - intros Hx. destruct (IH Hx) as (ke & ? & ?).
    exists ke. split; [by right | done].
Qed.

Lemma get_None_set m k x : GoMap.get m k = None → GoMap.set m k x = m ++ [(k, x)].
Proof.
  induction m as [|[k0 x0] m IH]; simpl; [done|].
  destruct (go_eq k0 k); [done|]. intros Hm. by rewrite IH.
Qed.

Lemma get_None_delete m k : GoMap.get m k = None → GoMap.delete m k = m.
Proof.
  unfold GoMap.delete.
  induction m as [|[k0 x0] m IH]; simpl; [done|].
  destruct (go_eq k0 k) eqn:E; [done|]. intros Hm.
  rewrite filter_cons_True by done. by rewrite IH.
Qed.

Lemma get_app m1 m2 k :
  GoMap.get (m1 ++ m2) k =
    match GoMap.get m1 k with Some x => Some x | None => GoMap.get m2 k end.
Proof.
  induction m1 as [|[k0 x0] m1 IH]; simpl; [done|].
  by destruct (go_eq k0 k).
Qed.

Lemma get_ext m k1 k2 :
  (∀ ke, go_eq ke k1 = go_eq ke k2) → GoMap.get m k1 = GoMap.get m k2.
Proof.
  intros Hk. induction m as [|[k0 x0] m IH]; simpl; [done|].
  by rewrite Hk, IH.
Qed.

Lemma get_delete_other m k1 k2 :
  (∀ ke, go_eq ke k2 = true → go_eq ke k1 = false) →
  GoMap.get (GoMap.delete m k1) k2 = GoMap.get m k2.
Proof.
  intros Hk. unfold GoMap.delete.
  induction m as [|[k0 x0] m IH]; simpl; [done|].
  destruct (go_eq k0 k1) eqn:E1.
  - rewrite filter_cons_False by (simpl; congruence).
    destruct (go_eq k0 k2) eqn:E2; [|done].
    apply Hk in E2. congruence.
  - rewrite filter_cons_True by done. simpl. by rewrite IH.
Qed.

Lemma get_delete_related m k1 k2 :
  (∀ ke, go_eq ke k2 = true → go_eq ke k1 = true) →
  GoMap.get (GoMap.delete m k1) k2 = None.
Proof.
  intros Hk. unfold GoMap.delete.
  induction m as [|[k0 x0] m IH]; simpl; [done|].
  destruct (go_eq k0 k1) eqn:E1.
  - by rewrite filter_cons_False by (simpl; congruence).
  - rewrite filter_cons_True by done. simpl.
    destruct (go_eq k0 k2) eqn:E2; [|done].
    apply Hk in E2. congruence.
Qed.

(** [delete(m, k)] leaves nothing to be found under [k], whatever [==] is. *)
Lemma get_delete_same m k : GoMap.get (GoMap.delete m k) k = None.
Proof. by apply get_delete_related. Qed.

Lemma delete_sublist m k : GoMap.delete m k `sublist_of` m.
Proof. apply sublist_filter. Qed.

End GoMapFacts.

(** * The ordered map at any comparable key type *)

Section CMapFacts.
Context {K : Type} `{Comparable K} {V : Type} `{ZeroValue V}.
Implicit Types (h : heap (OM.entry K V)) (om : OMC.OrderedMap K) (k : K) (v : V).

Lemma c_index_entries om k : OMC.index om k = GoMap.get (OMC.entries om) k.
Proof. unfold OMC.index, OMC.entries. by destruct (OMC.m om). Qed.

Lemma c_entries_init om : OMC.entries (OMC.init om) = OMC.entries om.
Proof. by destruct om as [[mm|] hd]. Qed.

Lemma c_m_init om : OMC.m (OMC.init om) = Some (OMC.entries om).
Proof. by destruct om as [[mm|] hd]. Qed.

Lemma c_head_init om : OMC.head (OMC.init om) = OMC.head om.
Proof. by destruct om as [[mm|] hd]. Qed.

Lemma c_index_init om k : OMC.index (OMC.init om) k = OMC.index om k.
Proof. by rewrite !c_index_entries, c_entries_init. Qed.

(** [Lookup] reads the value of the node the index gives. *)
Lemma Lookup_alt k h om :
  OMC.Lookup k (h, om) =
    match OMC.index om k with
    | None => Some (zero_value, false)
    | Some p => (λ e, (OM.val e, true)) <$> value_at h p
    end.
Proof.
  unfold OMC.Lookup, value_at. destruct (OMC.index om k) as [p|]; [|done].
  by destruct (load h p).
Qed.

Lemma value_at_agree h h' (p : ptr) :
  (∀ i, Val <$> h' !! i = Val <$> h !! i) → value_at h' p = value_at h p.
Proof. intros Hv. destruct p as [a|]; [apply Hv | done]. Qed.

Lemma cwf_index h om k (p : ptr) :
  cwf (h, om) → OMC.index om k = Some p →
  ∃ ke a nd, (ke, p) ∈ OMC.entries om ∧ go_eq ke k = true ∧
             p = Some a ∧ h !! a = Some nd ∧ OM.key (Val nd) = ke.
Proof.
  intros (_ & _ & _ & Hf) Hk. simpl in *. rewrite c_index_entries in Hk.
  destruct (get_Some_elem _ _ _ Hk) as (ke & Hin & Hke).
  rewrite Forall_forall in Hf.
  destruct (Hf _ Hin) as (a & nd & Hp & Ha & Hkey). simpl in *.
  by exists ke, a, nd.
Qed.

Lemma empty_cwf : cwf (OMC.empty : OMC.state K V).
Proof.
  split; [|split; [|split]]; simpl.
  - intros a nd Ha. by rewrite lookup_nil in Ha.
  - by left.
  - apply NoDup_nil_2.
  - apply Forall_nil_2.
Qed.

(** [Set] on a well-formed state: either the key is found and the value of
    its node is overwritten, or a node is inserted before the head and
    entered in the index. *)
Lemma Set_c h om k v :
  cwf (h, om) →
  ∃ st', OMC.Set_ k v (h, om) = Some st' ∧ cwf st' ∧
    ((∃ a nd, OMC.index om k = Some (Some a) ∧ h !! a = Some nd ∧
        st' = (<[a := set_Val nd (OM.set_val (Val nd) v)]> h, OMC.init om)) ∨
     (∃ h' l', OMC.index om k = None ∧
        InsertBefore h (OMC.head om) (OM.enter k v) = Some (h', l') ∧
        st' = (h', OMC.mkMap
                     (Some (OMC.entries om ++ [(k, Some (length h))])) l'))).
Proof.
  intros Hwf. pose proof Hwf as (Hl & Hh & Hnd & Hf). simpl in *.
  unfold OMC.Set_. rewrite c_index_init.
  destruct (OMC.index om k) as [p|] eqn:Hk.
  - destruct (cwf_index _ _ _ _ Hwf Hk) as (ke & a & nd & _ & _ & -> & Ha & _).
    pose proof (lookup_lt_Some _ _ _ Ha) as Hlt.
    unfold load, store. simpl. rewrite Ha. simpl.
    eexists. split; [done|]. split; [|left; by exists a, nd].
    split; [|split; [|split]]; simpl.
    + intros i x Hx.
      apply list_lookup_insert_Some in Hx as [(<- & <- & _)|[_ Hx]]; simpl;
        split; (apply valid_mono with h; [by rewrite length_insert|]);
        first [ by apply (Hl a nd) | by apply (Hl i x) ].
    + rewrite c_head_init. destruct Hh as [?|Hh]; [by left | right].
      apply valid_mono with h; [by rewrite length_insert | done].
    + by rewrite c_entries_init.
    + rewrite c_entries_init. apply (Forall_impl _ _ _ Hf).
      intros [k1 p1] (a1 & nd1 & Hp1 & Ha1 & Hk1). simpl in *.
      destruct (decide (a1 = a)) as [->|Hne].
      * exists a, (set_Val nd (OM.set_val (Val nd) v)).
        rewrite list_lookup_insert_eq by done. by simplify_eq.
      * exists a1, nd1. by rewrite list_lookup_insert_ne.
  - destruct (linked_InsertBefore h (OMC.head om) (OM.enter k v) Hl Hh)
      as (h' & p' & Hins & Hl' & Hp' & Hlen & Hprev & nd & Hn & HVal).
    destruct (InsertBefore_frame h (OMC.head om) (OM.enter k v) Hh)
      as (h'' & l'' & Hins' & _ & _ & _ & Hframe).
    rewrite Hins in Hins'. injection Hins' as <- <-.
    rewrite c_head_init, Hins. cbn [mbind option_bind]. rewrite Hprev.
    cbn [mbind option_bind]. rewrite c_m_init. cbn [mbind option_bind].
    rewrite get_None_set by (by rewrite <- c_index_entries).
    eexists. split; [done|]. split; [|right; by exists h', p'].
    split; [done|]. split; [by right|].
    change (OMC.entries (snd (h', OMC.mkMap
              (Some (OMC.entries om ++ [(k, Some (length h))])) p')))
      with (OMC.entries om ++ [(k, Some (length h))]).
    simpl. split.
    + rewrite fmap_app. apply NoDup_app. split; [done|].
      split; [|apply NoDup_singleton].
      intros q Hq Hq'. apply list_elem_of_singleton in Hq' as ->.
      apply list_elem_of_fmap in Hq as (e & He & Hin).
      rewrite Forall_forall in Hf.
      destruct (Hf e Hin) as (a1 & nd1 & Hp1 & Ha1 & _).
      apply lookup_lt_Some in Ha1. rewrite <- He in Hp1.
      injection Hp1 as <-. lia.
    + apply Forall_app. split.
      * apply (Forall_impl _ _ _ Hf).
        intros e (a1 & nd1 & Hp1 & Ha1 & Hk1).
        destruct (Hframe a1 nd1 Ha1) as (nd' & Ha' & HV' & _).
        exists a1, nd'. by rewrite HV'.
      * apply Forall_singleton. exists (length h), nd. by rewrite HVal.
Qed.

(** [Delete] removes from the index every entry whose key is equal to the
    key, and changes no node's value. *)
Lemma Delete_c h om k :
  cwf (h, om) →
  ∃ st', OMC.Delete k (h, om) = Some st' ∧ cwf st' ∧
    OMC.entries (snd st') = GoMap.delete (OMC.entries om) k ∧
    ∀ i, Val <$> fst st' !! i = Val <$> h !! i.
Proof.
  intros Hwf. pose proof Hwf as (Hl & Hh & Hnd & Hf). simpl in *.
  unfold OMC.Delete.
  destruct (OMC.index om k) as [p|] eqn:Hk.
  2:{ exists (h, om). split; [done|]. split; [done|]. split; [|done].
      simpl. symmetry. apply get_None_delete. by rewrite <- c_index_entries. }
  destruct (cwf_index _ _ _ _ Hwf Hk) as (ke & a & nd & _ & _ & -> & Ha & _).
  destruct (Hl a nd Ha) as [(p0 & Hp0 & Hp0l) (n0 & Hn0 & Hn0l)].
  rewrite (Remove_Some h a nd p0 n0) by done. cbn [mbind option_bind].
  pose proof (linked_unlink h p0 n0 Hl Hp0l Hn0l) as Hl'.
  assert (Hhead : ∃ q, (if ptr_eqb (Some a) (OMC.head om)
                        then Next (unlink h p0 n0) (Some p0)
                        else Some (OMC.head om)) = Some q ∧
                       (q = None ∨ valid (unlink h p0 n0) q)).
  { destruct (ptr_eqb (Some a) (OMC.head om)).
    - destruct (lookup_lt_is_Some_2 (unlink h p0 n0) p0) as [y Hy];
        [by rewrite length_unlink|].
      unfold Next, load. simpl. rewrite Hy. simpl.
      eexists. split; [done|]. right. by apply (Hl' p0 y).
    - eexists. split; [done|]. destruct Hh as [?|Hh]; [by left | right].
      apply valid_mono with h; [by rewrite length_unlink | done]. }
  destruct Hhead as (q & -> & Hq). simpl.
  eexists. split; [done|].
  assert (He : OMC.entries
                 (OMC.mkMap ((λ mm, GoMap.delete mm k) <$> OMC.m om) q)
               = GoMap.delete (OMC.entries om) k).
  { unfold OMC.entries. simpl. by destruct (OMC.m om). }
  split; [|split; [done | intros i; apply unlink_Val]].
  split; [done|]. split; [done|]. simpl. rewrite He. split.
  - apply (sublist_NoDup _ (snd <$> OMC.entries om)); [done|].
    apply fmap_sublist, delete_sublist.
  - rewrite Forall_forall in Hf. apply Forall_forall. intros e Hin.
    apply list_elem_of_filter in Hin as [_ Hin].
    destruct (Hf e Hin) as (a1 & nd1 & Hp1 & Ha1 & Hk1).
    pose proof (unlink_Val h p0 n0 a1) as HV. rewrite Ha1 in HV.
    destruct (unlink h p0 n0 !! a1) as [nd'|] eqn:Ha'; [|done].
    injection HV as HV. exists a1, nd'. by rewrite HV.
Qed.

Lemma Clear_c h om :
  cwf (h, om) →
  ∃ st', OMC.Clear (h, om) = Some st' ∧ cwf st' ∧
    fst st' = h ∧ OMC.head (snd st') = None ∧ OMC.entries (snd st') = [].
Proof.
  intros (Hl & _ & _ & _). simpl in *.
  assert (He : OMC.entries (OMC.mkMap (GoMap.clear <$> OMC.m om) None) = []).
  { unfold OMC.entries. simpl. by destruct (OMC.m om). }
  eexists. split; [done|]. split; [|done].
  split; [done|]. split; [by left|]. simpl. rewrite He.
  split; [apply NoDup_nil_2 | apply Forall_nil_2].
Qed.

Lemma run_op_cwf (o : OM.op K V) st :
  cwf st → ∃ st', OMC.run_op o st = Some st' ∧ cwf st'.
Proof.
  destruct st as [h om]. intros Hwf. destruct o as [k v|k|]; simpl.
  - destruct (Set_c h om k v Hwf) as (st1 & ? & ? & _). by exists st1.
  - destruct (Delete_c h om k Hwf) as (st1 & ? & ? & _). by exists st1.
  - destruct (Clear_c h om Hwf) as (st1 & ? & ? & _). by exists st1.
Qed.

Lemma run_cwf (ops : list (OM.op K V)) st :
  cwf st → ∃ st', OMC.run ops st = Some st' ∧ cwf st'.
Proof.
  revert st. induction ops as [|o ops IH]; intros st Hwf; [by exists st|].
  destruct (run_op_cwf o st Hwf) as (st1 & Hrun & Hwf1).
  simpl. rewrite Hrun. simpl. by apply IH.
Qed.

Lemma run_snoc (ops : list (OM.op K V)) (o : OM.op K V) st :
  OMC.run (ops ++ [o]) st = st' ← OMC.run ops st; OMC.run_op o st'.
Proof.
  revert st. induction ops as [|o' ops IH]; intros st; simpl.
  - by destruct (OMC.run_op o st).
  - destruct (OMC.run_op o' st) as [st1|]; simpl; [apply IH | done].
Qed.

End CMapFacts.

(** C8 as stated fails: on the zero-value [OrderedMap[float64, int]],
    [Set(NaN, 1)] succeeds and [Lookup(NaN)] then returns [(0, false)], not
    [(1, true)]: the index is searched with [==], and NaN is different from
    itself. *)
Lemma Set_NaN_then_Lookup_not_found :
  ∃ st, map_nan_set = Some st ∧
        OMC.Lookup PrimFloat.nan st = Some (0%Z, false) ∧
        OMC.Lookup PrimFloat.nan st ≠ Some (1%Z, true).
Proof. eexists. split; [reflexivity|]. split; [reflexivity | discriminate]. Qed.

(** C8 (amended): in every state reached from the zero-value map by
    [Set], [Delete] and [Clear] calls, at any comparable key type, for every
    key [k] and value [v]: [Set(k, v)] succeeds and, if [k == k] (every key
    but a floating-point NaN or a key holding one), [Lookup(k)] then returns
    [(v, true)]; [Delete(k)] succeeds and [Lookup(k)] then returns the zero
    value and [false]; [Lookup(k)] never panics, and returns the zero value
    and [false] for a key the index does not find. *)
Theorem Set_Delete_then_Lookup_comparable {K} `{Comparable K} {V}
    `{ZeroValue V} (ops : list (OM.op K V)) (k : K) (v : V) :
  ∃ st, OMC.run ops OMC.empty = Some st ∧
    (∃ st', OMC.Set_ k v st = Some st' ∧
            (go_eq k k = true → OMC.Lookup k st' = Some (v, true))) ∧
    (∃ st', OMC.Delete k st = Some st' ∧
            OMC.Lookup k st' = Some (zero_value, false)) ∧
    (∃ r, OMC.Lookup k st = Some r) ∧
    (OMC.index (snd st) k = None →
     OMC.Lookup k st = Some (zero_value, false)).
Proof.
  destruct (run_cwf ops _ empty_cwf) as ([h om] & Hrun & Hwf).
  exists (h, om). split; [done|].
  pose proof Hwf as (Hl & Hh & Hnd & Hf). simpl in Hl, Hh, Hnd, Hf.
  split; [|split; [|split]].
  - destruct (Set_c h om k v Hwf) as (st' & HSet & _ & Hcase).
    exists st'. split; [done|]. intros Hkk.
    destruct Hcase as [(a & nd & Hk & Ha & ->)|(h' & l' & Hk & Hins & ->)].
    + rewrite Lookup_alt, c_index_init, Hk. unfold value_at, load. simpl.
      by rewrite list_lookup_insert_eq by (by eapply lookup_lt_Some).
    + destruct (InsertBefore_frame h (OMC.head om) (OM.enter k v) Hh)
        as (h'' & l'' & Hins' & _ & _ & (nd & Hn & HVal & _) & _).
      rewrite Hins in Hins'. injection Hins' as <- <-.
      rewrite Lookup_alt. unfold OMC.index. simpl.
      rewrite get_app. rewrite c_index_entries in Hk. rewrite Hk. simpl.
      rewrite Hkk. unfold value_at, load. simpl. rewrite Hn. simpl.
      by rewrite HVal.
  - destruct (Delete_c h om k Hwf) as ([h' om'] & HDel & _ & He & _).
    exists (h', om'). split; [done|]. simpl in He.
    rewrite Lookup_alt, c_index_entries, He. by rewrite get_delete_same.
  - rewrite Lookup_alt. destruct (OMC.index om k) as [p|] eqn:Hk; [|by eexists].
    destruct (cwf_index _ _ _ _ Hwf Hk) as (ke & a & nd & _ & _ & -> & Ha & _).
    unfold value_at, load. simpl. rewrite Ha. by eexists.
  - intros Hk. simpl in Hk. by rewrite Lookup_alt, Hk.
Qed.

(** C8 (amended) on an [OrderedMap[float64, int]] after [Set(NaN, 1);
    Set(1.0, 2)], with the key [1.0]. *)
Lemma Set_Delete_then_Lookup_comparable_witness :
  go_eq PrimFloat.one PrimFloat.one = true ∧
  ∃ st, OMC.run ops_nan_one OMC.empty = Some st ∧
    ∃ st', OMC.Set_ PrimFloat.one 5%Z st = Some st' ∧
           OMC.Lookup PrimFloat.one st' = Some (5%Z, true).
Proof.
  split; [reflexivity|].
  destruct (Set_Delete_then_Lookup_comparable ops_nan_one PrimFloat.one 5%Z)
    as (st & Hrun & (st' & HSet & HLookup) & _).
  exists st. split; [exact Hrun|]. exists st'. split; [exact HSet|].
  apply HLookup. reflexivity.
Defined.

(** ** What [Lookup] finds *)

Section CMapLookup.
Context {K : Type} `{Comparable K} {V : Type} `{ZeroValue V}.
Hypothesis go_eq_sym : ∀ a b : K, go_eq a b = true → go_eq b a = true.
Hypothesis go_eq_trans :
  ∀ a b c : K, go_eq a b = true → go_eq b c = true → go_eq a c = true.

Lemma go_eq_ext (k1 k2 ke : K) :
  go_eq k1 k2 = true → go_eq ke k1 = go_eq ke k2.
Proof.
  intros E. destruct (go_eq ke k1) eqn:E1, (go_eq ke k2) eqn:E2; try done.
  - by rewrite (go_eq_trans _ _ _ E1 E) in E2.
  - by rewrite (go_eq_trans _ _ _ E2 (go_eq_sym _ _ E)) in E1.
Qed.

Lemma go_eq_apart (k1 k2 ke : K) :
  go_eq k1 k2 = false → go_eq ke k2 = true → go_eq ke k1 = false.
Proof.
  intros E E2. destruct (go_eq ke k1) eqn:E1; [|done].
  by rewrite (go_eq_trans _ _ _ (go_eq_sym _ _ E1) E2) in E.
Qed.

Lemma Set_found h om (k' : K) (v : V) (r : K → option V) :
  cwf (h, om) →
  (∀ k, OMC.Lookup k (h, om) = Some (lookup_result (r k))) →
  ∃ st', OMC.Set_ k' v (h, om) = Some st' ∧ cwf st' ∧
    ∀ k, OMC.Lookup k st' =
           Some (lookup_result (found_step k (r k) (OM.OpSet k' v))).
Proof.
  intros Hwf Hr. pose proof Hwf as (Hl & Hh & Hnd & Hf).
  simpl in Hl, Hh, Hnd, Hf.
  destruct (Set_c h om k' v Hwf) as (st' & HSet & Hwf' & Hcase).
  exists st'. split; [done|]. split; [done|]. intros k.
  specialize (Hr k). rewrite Lookup_alt in Hr. simpl.
  destruct Hcase as [(a & nd & Hk' & Ha & ->)|(h' & l' & Hk' & Hins & ->)].
  - pose proof (lookup_lt_Some _ _ _ Ha) as Hlt.
    rewrite Lookup_alt, c_index_init.
    destruct (go_eq k' k) eqn:E.
    + rewrite c_index_entries, <- (get_ext _ k' k) by
        (intros ke; by apply go_eq_ext).
      rewrite <- c_index_entries, Hk'. unfold value_at, load. simpl.
      by rewrite list_lookup_insert_eq.
    + destruct (OMC.index om k) as [q|] eqn:Hq; [|done].
      destruct (cwf_index _ _ _ _ Hwf Hq)
        as (kb & b & ndb & _ & Hkb & -> & Hb & Hkeyb).
      destruct (cwf_index _ _ _ _ Hwf Hk')
        as (ke & a' & nda & _ & Hke & [= <-] & Ha' & Hkeya).
      assert (b ≠ a) as Hne.
      { intros ->. rewrite Ha in Hb, Ha'. simplify_eq.
        rewrite (go_eq_trans _ _ _ (go_eq_sym _ _ Hke) Hkb) in E. done. }
      unfold value_at, load in *. simpl in *.
      by rewrite list_lookup_insert_ne.
  - destruct (InsertBefore_frame h (OMC.head om) (OM.enter k' v) Hh)
      as (h'' & l'' & Hins' & _ & _ & (nd & Hn & HVal & _) & Hframe).
    rewrite Hins in Hins'. injection Hins' as <- <-.
    rewrite Lookup_alt. unfold OMC.index at 1. simpl.
    rewrite get_app. rewrite c_index_entries in Hk', Hr.
    destruct (go_eq k' k) eqn:E.
    + rewrite <- (get_ext _ k' k) by (intros ke; by apply go_eq_ext).
      rewrite Hk'. simpl. rewrite E.
      unfold value_at, load. simpl. rewrite Hn. simpl. by rewrite HVal.
    + simpl. rewrite E.
      destruct (GoMap.get (OMC.entries om) k) as [q|] eqn:Hq; [|done].
      rewrite <- c_index_entries in Hq.
      destruct (cwf_index _ _ _ _ Hwf Hq)
        as (kb & b & ndb & _ & _ & -> & Hb & _).
      destruct (Hframe b ndb Hb) as (nd' & Hb' & HV' & _).
      unfold value_at, load in *. simpl in *.
      rewrite Hb'. rewrite Hb in Hr. simpl in *. by rewrite HV'.
Qed.

Lemma Delete_found h om (k' : K) (r : K → option V) :
  cwf (h, om) →
  (∀ k, OMC.Lookup k (h, om) = Some (lookup_result (r k))) →
  ∃ st', OMC.Delete k' (h, om) = Some st' ∧ cwf st' ∧
    ∀ k, OMC.Lookup k st' =
           Some (lookup_result (found_step k (r k) (OM.OpDelete k'))).
Proof.
  intros Hwf Hr.
  destruct (Delete_c h om k' Hwf) as ([h' om'] & HDel & Hwf' & He & HV).
  exists (h', om'). split; [done|]. split; [done|]. intros k.
  specialize (Hr k). rewrite Lookup_alt, c_index_entries in Hr.
  simpl in He, HV. rewrite Lookup_alt, c_index_entries, He. simpl.
  destruct (go_eq k' k) eqn:E.
  - rewrite get_delete_related; [done|].
    intros ke Hke. by rewrite (go_eq_ext k' k ke E).
  - rewrite get_delete_other by (intros ke; by apply go_eq_apart).
    destruct (GoMap.get (OMC.entries om) k) as [q|]; [|done].
    by rewrite (value_at_agree h h' q HV).
Qed.

Lemma run_op_found (o : OM.op K V) h om (r : K → option V) :
  cwf (h, om) →
  (∀ k, OMC.Lookup k (h, om) = Some (lookup_result (r k))) →
  ∃ st', OMC.run_op o (h, om) = Some st' ∧ cwf st' ∧
    ∀ k, OMC.Lookup k st' = Some (lookup_result (found_step k (r k) o)).
Proof.
  intros Hwf Hr. destruct o as [k' v|k'|].
  - by apply Set_found.
  - by apply Delete_found.
  - destruct (Clear_c h om Hwf) as ([h' om'] & HC & Hwf' & _ & _ & He).
    exists (h', om'). split; [done|]. split; [done|]. intros k.
    simpl in He. by rewrite Lookup_alt, c_index_entries, He.
Qed.

Lemma run_found (ops : list (OM.op K V)) st (r : K → option V) :
  cwf st →
  (∀ k, OMC.Lookup k st = Some (lookup_result (r k))) →
  ∃ st', OMC.run ops st = Some st' ∧ cwf st' ∧
    ∀ k, OMC.Lookup k st' =
           Some (lookup_result (foldl (found_step k) (r k) ops)).
Proof.
  revert st r. induction ops as [|o ops IH]; intros [h om] r Hwf Hr.
  - by exists (h, om).
  - destruct (run_op_found o h om r Hwf Hr) as (st1 & Hrun & Hwf1 & Hr1).
    simpl. rewrite Hrun. simpl.
    apply (IH st1 (λ k, found_step k (r k) o) Hwf1 Hr1).
Qed.

End CMapLookup.

(** X10: [Lookup] finds the value last set.  At any key type whose [==] is
    symmetric and transitive (as Go's [==] is; it need not be reflexive),
    after any sequence of [Set], [Delete] and [Clear] calls on the
    zero-value map, [Lookup(k)] returns the value of the last [Set] with a
    key equal to [k], and [true], unless a [Delete] with a key equal to [k]
    or a [Clear] came after it or there is no such [Set]: then it returns
    the zero value and [false]. *)
Theorem Lookup_finds_last_value_set {K} `{Comparable K} {V} `{ZeroValue V}
    (go_eq_sym : ∀ a b : K, go_eq a b = true → go_eq b a = true)
    (go_eq_trans :
       ∀ a b c : K, go_eq a b = true → go_eq b c = true → go_eq a c = true)
    (ops : list (OM.op K V)) (k : K) :
  ∃ st, OMC.run ops OMC.empty = Some st ∧
        OMC.Lookup k st = Some (lookup_result (found_after ops k)).
Proof.
  destruct (run_found go_eq_sym go_eq_trans ops OMC.empty (λ _, None) empty_cwf)
    as (st & Hrun & _ & Hr); [done|].
  exists st. split; [done | apply Hr].
Qed.

(** X10 at string keys, after [Set("a", 1); Set("b", 2); Set("a", 3);
    Delete("b")]. *)
Lemma Lookup_finds_last_value_set_witness :
  (∀ a b : string, go_eq a b = true → go_eq b a = true) ∧
  (∀ a b c : string,
     go_eq a b = true → go_eq b c = true → go_eq a c = true) ∧
  ∃ st, OMC.run [OM.OpSet "a"%string 1%Z; OM.OpSet "b"%string 2%Z;
                 OM.OpSet "a"%string 3%Z; OM.OpDelete "b"%string]
                OMC.empty = Some st ∧
        OMC.Lookup "a"%string st = Some (3%Z, true).
Proof.
  assert (Hsym : ∀ a b : string, go_eq a b = true → go_eq b a = true).
  { intros a b Hab. apply String.eqb_eq in Hab as ->. apply String.eqb_refl. }
  assert (Htrans : ∀ a b c : string,
            go_eq a b = true → go_eq b c = true → go_eq a c = true).
  { intros a b c Hab Hbc. apply String.eqb_eq in Hab as ->. exact Hbc. }
  split; [exact Hsym|]. split; [exact Htrans|].
  exact (Lookup_finds_last_value_set Hsym Htrans
           [OM.OpSet "a"%string 1%Z; OM.OpSet "b"%string 2%Z;
            OM.OpSet "a"%string 3%Z; OM.OpDelete "b"%string] "a"%string).
Defined.

(** X11: what the index holds.  After any sequence of [Set], [Delete] and
    [Clear] calls on the zero-value map, at any comparable key type: every
    entry of the index holds a non-nil, allocated node whose entry has the
    key of the index entry; no node is held by two index entries; and a
    node the index finds for a key [k] is held under a key equal to [k]. *)
Theorem index_entries_hold_their_node {K} `{Comparable K} {V}
    (ops : list (OM.op K V)) :
  ∃ st, OMC.run ops OMC.empty = Some st ∧
    NoDup (snd <$> OMC.entries (snd st)) ∧
    (∀ ke p, (ke, p) ∈ OMC.entries (snd st) →
       ∃ a nd, p = Some a ∧ fst st !! a = Some nd ∧ OM.key (Val nd) = ke) ∧
    (∀ k p, OMC.index (snd st) k = Some p →
       ∃ ke, (ke, p) ∈ OMC.entries (snd st) ∧ go_eq ke k = true).
Proof.
  destruct (run_cwf ops _ empty_cwf) as ([h om] & Hrun & Hwf).
  exists (h, om). split; [done|].
  pose proof Hwf as (_ & _ & Hnd & Hf). split; [done|]. split.
  - intros ke p Hin. rewrite Forall_forall in Hf.
    destruct (Hf _ Hin) as (a & nd & ? & ? & ?). by exists a, nd.
  - intros k p Hk.
    destruct (cwf_index h om k p Hwf Hk) as (ke & _ & _ & ? & ? & _).
    by exists ke.
Qed.

(** X14: calling twice is calling once.  In every state reached from the
    zero-value map, at any comparable key type: a second [Delete(k)] right
    after a [Delete(k)] changes nothing, a second [Clear()] right after a
    [Clear()] changes nothing, and, if [k == k], a second [Set(k, v)] right
    after a [Set(k, v)] changes nothing. *)
Theorem Set_Delete_Clear_twice_comparable {K} `{Comparable K} {V}
    (ops : list (OM.op K V)) (k : K) (v : V) :
  ∃ st, OMC.run ops OMC.empty = Some st ∧
    (∃ st1, OMC.Set_ k v st = Some st1 ∧
            (go_eq k k = true → OMC.Set_ k v st1 = Some st1)) ∧
    (∃ st1, OMC.Delete k st = Some st1 ∧ OMC.Delete k st1 = Some st1) ∧
    (∃ st1, OMC.Clear st = Some st1 ∧ OMC.Clear st1 = Some st1).
Proof.
  destruct (run_cwf ops _ empty_cwf) as ([h om] & Hrun & Hwf).
  exists (h, om). split; [done|].
  pose proof Hwf as (Hl & Hh & Hnd & Hf). simpl in Hl, Hh, Hnd, Hf.
  split; [|split].
  - destruct (Set_c h om k v Hwf) as (st1 & HSet & _ & Hcase).
    exists st1. split; [done|]. intros Hkk.
    destruct Hcase as [(a & nd & Hk & Ha & ->)|(h' & l' & Hk & Hins & ->)].
    + pose proof (lookup_lt_Some _ _ _ Ha) as Hlt.
      unfold OMC.Set_.
      assert (Hinit : OMC.init (OMC.init om) = OMC.init om)
        by (by destruct om as [[mm|] hd]).
      rewrite Hinit, c_index_init, Hk. unfold load, store. simpl.
      rewrite list_lookup_insert_eq by done. simpl.
      by rewrite list_insert_insert_eq.
    + destruct (InsertBefore_frame h (OMC.head om) (OM.enter k v) Hh)
        as (h'' & l'' & Hins' & _ & _ & (nd & Hn & HVal & _) & _).
      rewrite Hins in Hins'. injection Hins' as <- <-.
      unfold OMC.Set_.
      change (OMC.init (OMC.mkMap
                (Some (OMC.entries om ++ [(k, Some (length h))])) l'))
        with (OMC.mkMap (Some (OMC.entries om ++ [(k, Some (length h))])) l').
      unfold OMC.index at 1. simpl. rewrite get_app.
      rewrite c_index_entries in Hk. rewrite Hk. simpl. rewrite Hkk.
      unfold load, store. simpl. rewrite Hn. simpl.
      assert (Hsame : set_Val nd (OM.set_val (Val nd) v) = nd)
        by (destruct nd; simpl in *; by subst).
      by rewrite Hsame, list_insert_id.
  - destruct (Delete_c h om k Hwf) as ([h' om'] & HDel & _ & He & _).
    exists (h', om'). split; [done|]. simpl in He.
    unfold OMC.Delete. by rewrite c_index_entries, He, get_delete_same.
  - eexists. split; [done|]. simpl. by destruct (OMC.m om).
Qed.

(** X14 on an [OrderedMap[float64, int]] after [Set(NaN, 1); Set(1.0, 2)],
    with the key [1.0]. *)
Lemma Set_Delete_Clear_twice_comparable_witness :
  go_eq PrimFloat.one PrimFloat.one = true ∧
  ∃ st, OMC.run ops_nan_one OMC.empty = Some st ∧
    ∃ st1, OMC.Set_ PrimFloat.one 5%Z st = Some st1 ∧
           OMC.Set_ PrimFloat.one 5%Z st1 = Some st1.
Proof.
  split; [reflexivity|].
  destruct (Set_Delete_Clear_twice_comparable ops_nan_one PrimFloat.one 5%Z)
    as (st & Hrun & (st1 & HSet & Hagain) & _).
  exists st. split; [exact Hrun|]. exists st1. split; [exact HSet|].
  apply Hagain. reflexivity.
Defined.

(** X15: a cleared map is as good as a new one.  In every state reached
    from the zero-value map, at any comparable key type, after [Clear()]:
    [Lookup] finds no key and [Keys()] yields nothing; a [Set(k, v)] then
    succeeds, [Keys()] yields [k] and nothing else, and, if [k == k],
    [Lookup(k)] returns [(v, true)]. *)
Theorem Clear_then_reuse_comparable {K} `{Comparable K} {V} `{ZeroValue V}
    (ops : list (OM.op K V)) (k : K) (v : V) :
  ∃ st, OMC.run (ops ++ [OM.OpClear]) OMC.empty = Some st ∧
    (∀ k', OMC.Lookup k' st = Some (zero_value, false)) ∧
    (∀ fuel, OMC.Keys st collect fuel [] = Done []) ∧
    ∃ st', OMC.Set_ k v st = Some st' ∧
      (∀ fuel, 0 < fuel → OMC.Keys st' collect fuel [] = Done [k]) ∧
      (go_eq k k = true → OMC.Lookup k st' = Some (v, true)).
Proof.
  destruct (run_cwf ops _ empty_cwf) as ([h0 om0] & Hrun & Hwf0).
  destruct (Clear_c h0 om0 Hwf0) as ([h om] & HC & Hwf & _ & Hhd & He).
  simpl in Hhd, He.
  exists (h, om). split; [by rewrite run_snoc, Hrun|].
  assert (Hidx : ∀ k', OMC.index om k' = None)
    by (intros k'; by rewrite c_index_entries, He).
  split; [intros k'; by rewrite Lookup_alt, Hidx|].
  split.
  { intros fuel. unfold OMC.Keys, OMC.All, LinkedList.Values, All, seq.
    simpl. by rewrite Hhd. }
  destruct (Set_c h om k v Hwf) as (st' & HSet & _ & Hcase).
  exists st'. split; [done|].
  destruct Hcase as [(a & nd & Hk & _)|(h' & l' & _ & Hins & ->)];
    [by rewrite Hidx in Hk|].
  rewrite Hhd, InsertBefore_nil in Hins. injection Hins as <- <-.
  rewrite He. simpl. split.
  - intros fuel Hfuel.
    unfold OMC.Keys, OMC.All, LinkedList.Values, All, seq. simpl.
    destruct fuel as [|fuel]; [lia|]. cbn [seq_loop].
    rewrite (on_Val_Some _ _ _ _ _ (lookup_fresh h _)). cbn [collect fst].
    assert (Hnext : Next (h ++ [mkNode (Some (length h)) (Some (length h))
                                        (OM.enter k v)]) (Some (length h))
                    = Some (Some (length h))).
    { apply Next_Some_inv. eexists. by rewrite lookup_fresh. }
    rewrite Hnext. unfold ptr_eqb. by rewrite bool_decide_eq_true_2.
  - intros Hkk. unfold OMC.index. simpl. rewrite Hkk.
    unfold load. simpl. by rewrite lookup_fresh.
Qed.

(** X15 on an [OrderedMap[float64, int]] after [Set(NaN, 1); Set(1.0, 2);
    Clear()], with the key [1.0]. *)
Lemma Clear_then_reuse_comparable_witness :
  go_eq PrimFloat.one PrimFloat.one = true ∧ 0 < 1 ∧
  ∃ st, OMC.run (ops_nan_one ++ [OM.OpClear]) OMC.empty = Some st ∧
    ∃ st', OMC.Set_ PrimFloat.one 5%Z st = Some st' ∧
           OMC.Keys st' collect 1 [] = Done [PrimFloat.one] ∧
           OMC.Lookup PrimFloat.one st' = Some (5%Z, true).
Proof.
  split; [reflexivity|]. split; [lia|].
  destruct (Clear_then_reuse_comparable ops_nan_one PrimFloat.one 5%Z)
    as (st & Hrun & _ & _ & st' & HSet & HKeys & HLookup).
  exists st. split; [exact Hrun|]. exists st'. split; [exact HSet|].
  split; [apply HKeys; lia | apply HLookup; reflexivity].
Defined.

(** * The two readings of the index agree where [==] is equality *)

Section Simulation.
Context `{Countable K} `{Comparable K} {V : Type} `{ZeroValue V}.
Hypothesis go_eq_decide : ∀ k1 k2 : K, go_eq k1 k2 = bool_decide (k1 = k2).

Lemma get_set_decide {X} (m : list (K * X)) (k k' : K) (x : X) :
  GoMap.get (GoMap.set m k x) k' =
    if bool_decide (k = k') then Some x else GoMap.get m k'.
Proof.
  induction m as [|[k0 x0] m IH]; simpl.
  - by rewrite go_eq_decide.
  - rewrite (go_eq_decide k0 k). destruct (decide (k0 = k)) as [->|E0].
    + rewrite (bool_decide_eq_true_2 (k = k)) by done. simpl.
      rewrite go_eq_decide. by case_bool_decide.
    + rewrite (bool_decide_eq_false_2 (k0 = k)) by done. simpl.
      rewrite IH, (go_eq_decide k0 k').
      repeat case_bool_decide; simplify_eq; done.
Qed.

Lemma get_delete_decide {X} (m : list (K * X)) (k k' : K) :
  GoMap.get (GoMap.delete m k) k' =
    if bool_decide (k = k') then None else GoMap.get m k'.
Proof.
  case_bool_decide as E.
  - subst k'. apply get_delete_same.
  - apply get_delete_other. intros ke. rewrite !go_eq_decide.
    repeat case_bool_decide; simplify_eq; done.
Qed.

Lemma Set_agree (cst : OMC.state K V) (st : OM.state K V) k v :
  agree cst st → agree_opt (OMC.Set_ k v cst) (OM.Set_ k v st).
Proof.
  destruct cst as [h c], st as [h' o]. intros (Hh & Hhd & Hi).
  simpl in Hh, Hhd, Hi. subst h'.
  unfold OMC.Set_, OM.Set_. rewrite c_index_init, index_init, Hi.
  destruct (OM.index o k) as [p|] eqn:Hk.
  - destruct (load h p) as [nd|]; simpl; [|done].
    destruct (store h p _) as [h1|]; simpl; [|done].
    split; [done|]. split; [simpl; by rewrite c_head_init, head_init|].
    intros k'. simpl. by rewrite c_index_init, index_init.
  - rewrite c_head_init, head_init, Hhd.
    destruct (InsertBefore h (OM.head o) (OM.enter k v)) as [[h1 l1]|];
      cbn [mbind option_bind]; [|done].
    destruct (Prev h1 l1) as [p|]; cbn [mbind option_bind]; [|done].
    rewrite c_m_init. destruct (m_init o) as (mm & -> & Hmm).
    cbn [mbind option_bind].
    split; [done|]. split; [done|]. intros k'.
    unfold OMC.index, OM.index. simpl. rewrite get_set_decide.
    case_bool_decide as E.
    + subst k'. by rewrite lookup_insert_eq.
    + rewrite lookup_insert_ne by done.
      by rewrite Hmm, <- Hi, c_index_entries.
Qed.

Lemma Delete_agree (cst : OMC.state K V) (st : OM.state K V) k :
  agree cst st → agree_opt (OMC.Delete k cst) (OM.Delete k st).
Proof.
  destruct cst as [h c], st as [h' o]. intros (Hh & Hhd & Hi).
  simpl in Hh, Hhd, Hi. subst h'.
  unfold OMC.Delete, OM.Delete. rewrite Hi, Hhd.
  destruct (OM.index o k) as [p|] eqn:Hk; [|done].
  destruct (Remove h p) as [[h1 q]|]; cbn [mbind option_bind]; [|done].
  destruct (if ptr_eqb p (OM.head o) then Next h1 q else Some (OM.head o))
    as [hd'|]; cbn [mbind option_bind]; [|done].
  split; [done|]. split; [done|]. intros k'.
  pose proof (Hi k') as Hk'. unfold OMC.index, OM.index in *. simpl.
  destruct (OMC.m c) as [cm|], (OM.m o) as [mm|]; simpl in *.
  - rewrite get_delete_decide. case_bool_decide as E.
    + subst k'. by rewrite lookup_delete_eq.
    + by rewrite lookup_delete_ne.
  - rewrite get_delete_decide. by case_bool_decide.
  - destruct (decide (k = k')) as [->|E].
    + by rewrite lookup_delete_eq.
    + by rewrite lookup_delete_ne.
  - done.
Qed.

Lemma Clear_agree (cst : OMC.state K V) (st : OM.state K V) :
  agree cst st → agree_opt (OMC.Clear cst) (OM.Clear st).
Proof.
  destruct cst as [h c], st as [h' o]. intros (Hh & _ & _).
  simpl in Hh. subst h'. split; [done|]. split; [done|]. intros k'.
  unfold OMC.index, OM.index. simpl.
  destruct (OMC.m c), (OM.m o); simpl; by rewrite ?lookup_empty.
Qed.

Lemma run_agree (ops : list (OM.op K V)) (cst : OMC.state K V)
    (st : OM.state K V) :
  agree cst st → agree_opt (OMC.run ops cst) (OM.run ops st).
Proof.
  revert cst st. induction ops as [|o ops IH]; intros cst st Hag; [done|].
  assert (Hstep : agree_opt (OMC.run_op o cst) (OM.run_op o st)).
  { destruct o as [k v|k|]; simpl.
    - by apply Set_agree.
    - by apply Delete_agree.
    - by apply Clear_agree. }
  simpl. destruct (OMC.run_op o cst) as [cst1|], (OM.run_op o st) as [st1|];
    simpl in *; try done.
  by apply IH.
Qed.

(** At a key type whose [==] is equality, the map with Go's built-in map as
    its index and the map with a finite map as its index go through the
    same states: the same heap, the same head, the same index. *)
Lemma OMC_simulates_OM (ops : list (OM.op K V)) :
  agree_opt (OMC.run ops OMC.empty) (OM.run ops OM.empty).
Proof. apply run_agree. by split. Qed.

(** What the two then answer is the same. *)
Lemma agree_Lookup (cst : OMC.state K V) (st : OM.state K V) k :
  agree cst st → OMC.Lookup k cst = OM.Lookup k st.
Proof.
  destruct cst as [h c], st as [h' o]. intros (Hh & _ & Hi).
  simpl in Hh, Hi. subst h'. unfold OMC.Lookup, OM.Lookup. by rewrite Hi.
Qed.

Lemma agree_All {St} (cst : OMC.state K V) (st : OM.state K V)
    (yield : consumer St (K * V)) fuel s :
  agree cst st → OMC.All cst yield fuel s = OM.All st yield fuel s.
Proof.
  destruct cst as [h c], st as [h' o]. intros (Hh & Hhd & _).
  simpl in Hh, Hhd. subst h'. unfold OMC.All, OM.All. simpl. by rewrite Hhd.
Qed.

End Simulation.
